(** * PARTH-BOT: the chess rules engine and its search engine

    A shallow embedding of [utils/chess.ts] (squares, move generation,
    [applyMove], [getAllValidMoves]), of [services/chessEngine.ts]
    ([evaluatePosition], [minimax], [getBestMove]) and of
    [hooks/useChessGame.ts] ([checkGameStatus] and the event handlers), with
    what the components compute (the names of the cells, the list of
    captured pieces, the move labels, the status line), followed by the
    properties of the specification that are about them and by further
    properties of the code.

    Conventions of the embedding.
    - JavaScript numbers that index the board are integers ([Z]).
    - A [Square] is a string; its characters are bytes.
    - [null], [undefined] and array holes, which the code only ever tests
      for truthiness, are all [None].
    - A function that can throw returns an [outcome]: [TypeError] is the
      exception JavaScript raises when a property of [undefined] is read
      or written (a board row that does not exist).  [OutOfFuel] is only
      produced by the recursive search when its recursion budget is used
      up; a search that answers [OutOfFuel] for every budget is one that
      does not return.

    The file has six parts: the embedding of the rules and of the search,
    the vocabulary of the statements with the positions they are tried on,
    the embedding of the hook and of the components with the vocabulary of
    the further statements, the properties of the specification, the
    further properties, and the two properties of the specification that
    draw on them: that no legal move leaves the mover's king attacked, and
    which move [getBestMove] settles on. *)

From Stdlib Require Import ZArith List String Ascii Bool Lia.
From Stdlib Require Import DecimalString Permutation QArith.
Import ListNotations.

Open Scope string_scope.
Open Scope list_scope.
Open Scope Z_scope.

(** ** Outcomes: values, exceptions, exhausted recursion budget *)

Inductive outcome (A : Type) : Type :=
| Ok (a : A)
| TypeError
| OutOfFuel.

Arguments Ok {A} a.
Arguments TypeError {A}.
Arguments OutOfFuel {A}.

Definition bind {A B : Type} (x : outcome A) (k : A -> outcome B) : outcome B :=
  match x with
  | Ok a => k a
  | TypeError => TypeError
  | OutOfFuel => OutOfFuel
  end.

Notation "x <- e ;; k" := (bind e (fun x => k))
  (at level 61, e at next level, right associativity).

(** [for (const x of l) { acc = f acc x }], stopping at the first exception. *)
Fixpoint foldM {A B : Type} (f : B -> A -> outcome B) (l : list A) (b : B)
  : outcome B :=
  match l with
  | [] => Ok b
  | x :: t => b' <- f b x ;; foldM f t b'
  end.

(** A scan that returns [true] at the first element satisfying [f] (the
    [return true] inside a loop), [false] when the loop runs to its end. *)
Fixpoint anyM {A : Type} (f : A -> outcome bool) (l : list A) : outcome bool :=
  match l with
  | [] => Ok false
  | x :: t => b <- f x ;; if b then Ok true else anyM f t
  end.

(** A scan that returns the first [Some] result (the [return v] inside a
    loop), [None] when the loop runs to its end. *)
Fixpoint firstM {A B : Type} (f : A -> outcome (option B)) (l : list A)
  : outcome (option B) :=
  match l with
  | [] => Ok None
  | x :: t => r <- f x ;;
              match r with
              | Some v => Ok (Some v)
              | None => firstM f t
              end
  end.

(** The index range of [for (let i = 0; i < 8; i++)]. *)
Definition idx8 : list Z := [0; 1; 2; 3; 4; 5; 6; 7].

(** ** types.ts *)

Inductive PieceType := pawn | rook | knight | bishop | queen | king.
Inductive PieceColor := white | black.
Inductive CastlingSide := kingside | queenside.

Definition Square := string.

Record ChessPiece := { type : PieceType; color : PieceColor }.

Record Move := {
  from : Square;
  to : Square;
  piece : ChessPiece;
  captured : option ChessPiece;
  promotion : option PieceType;
  castling : option CastlingSide;
  enPassant : option bool
}.

Record CastlingRights := {
  whiteKingside : bool;
  whiteQueenside : bool;
  blackKingside : bool;
  blackQueenside : bool
}.

Definition Board := list (list (option ChessPiece)).

Record GameState := {
  board : Board;
  currentPlayer : PieceColor;
  moveHistory : list Move;
  castlingRights : CastlingRights;
  enPassantTarget : option Square;
  halfMoveClock : Z;
  fullMoveNumber : Z;
  isCheck : bool;
  isCheckmate : bool;
  isStalemate : bool;
  isGameOver : bool
}.

Record Position := { row : Z; col : Z }.

Definition PieceType_eqb (a b : PieceType) : bool :=
  match a, b with
  | pawn, pawn | rook, rook | knight, knight
  | bishop, bishop | queen, queen | king, king => true
  | _, _ => false
  end.

Definition PieceColor_eqb (a b : PieceColor) : bool :=
  match a, b with
  | white, white | black, black => true
  | _, _ => false
  end.

(** [color === 'white' ? 'black' : 'white'] *)
Definition opponent (c : PieceColor) : PieceColor :=
  match c with white => black | black => white end.

(** Truthiness of an optional boolean field. *)
Definition truthy (b : option bool) : bool :=
  match b with Some true => true | _ => false end.

Definition isSome {A : Type} (o : option A) : bool :=
  match o with Some _ => true | None => false end.

(** ** JavaScript strings and arrays, as far as the engine uses them *)

(** [s.charCodeAt(0)]; [None] is NaN (the empty string). *)
Definition charCodeAt0 (s : string) : option Z :=
  match s with
  | EmptyString => None
  | String c _ => Some (Z.of_N (N_of_ascii c))
  end.

(** [s.charAt(i)]: the one-character string at [i], or the empty string. *)
Definition charAt (s : string) (i : nat) : string :=
  match String.get i s with
  | Some c => String c EmptyString
  | None => EmptyString
  end.

(** [parseInt(s, 10)] on a string of at most one character, which is all
    [charAt] returns: the value of a decimal digit, NaN ([None]) for the
    empty string and for any other character. *)
Definition parseInt10 (s : string) : option Z :=
  match s with
  | String c EmptyString =>
      let n := Z.of_N (N_of_ascii c) in
      if (48 <=? n) && (n <=? 57) then Some (n - 48) else None
  | _ => None
  end.

(** [String.fromCharCode(n)]: the code unit [n] modulo 2^16.  Characters are
    bytes here; a square built from bytes never asks for a code above 255. *)
Definition fromCharCode (n : Z) : ascii :=
  ascii_of_N (Z.to_N (n mod 65536)).

(** The decimal text of an integer, as a template literal prints it. *)
Definition numToString (n : Z) : string :=
  NilZero.string_of_int (Z.to_int n).

(** [a[i]] on an array: [None] is [undefined] (index out of range). *)
Definition index {A : Type} (l : list A) (i : Z) : option A :=
  if i <? 0 then None else nth_error l (Z.to_nat i).

(** [a[i] = v] on an array.  Inside the array the element is replaced; past
    its end JavaScript extends the array, leaving holes.  A negative [i]
    creates a property that is not an element: a list has no place for it,
    the copy [[...r]] drops it, and the engine reads no negative index on
    the squares it generates itself; the elements stay as they are. *)
Fixpoint assignNat {A : Type} (l : list (option A)) (i : nat) (v : option A)
  : list (option A) :=
  match i, l with
  | O, [] => [v]
  | O, _ :: t => v :: t
  | S j, [] => None :: assignNat [] j v
  | S j, x :: t => x :: assignNat t j v
  end.

Definition assign {A : Type} (l : list (option A)) (i : Z) (v : option A)
  : list (option A) :=
  if i <? 0 then l else assignNat l (Z.to_nat i) v.

(** [board[r][c]]: throws when row [r] does not exist. *)
Definition cell (b : Board) (r c : Z) : outcome (option ChessPiece) :=
  match index b r with
  | Some rw => Ok (match index rw c with Some x => x | None => None end)
  | None => TypeError
  end.

(** [board[r]?.[c]]: [undefined] when row [r] does not exist. *)
Definition cellOpt (b : Board) (r c : Z) : option ChessPiece :=
  match index b r with
  | Some rw => match index rw c with Some x => x | None => None end
  | None => None
  end.

(** [board[r][c] = v]: throws when row [r] does not exist. *)
Definition setCell (b : Board) (r c : Z) (v : option ChessPiece)
  : outcome Board :=
  match index b r with
  | Some rw =>
      Ok (firstn (Z.to_nat r) b ++ assign rw c v :: skipn (S (Z.to_nat r)) b)
  | None => TypeError
  end.

(** ** utils/chess.ts: squares *)

(** [squareToPosition].  [None] stands for a position whose [row] is NaN,
    which is the case exactly when the second character is not a decimal
    digit (the empty string, whose [col] is NaN too, has no second
    character).  Every use of the result either indexes the board with
    [row] at once, which throws, or compares [row] with an integer, which
    is false; so the other field of such a position is never looked at. *)
Definition squareToPosition (square : Square) : option Position :=
  match charCodeAt0 square, parseInt10 (charAt square 1) with
  | Some code, Some rank => Some {| row := 8 - rank; col := code - 97 |}
  | _, _ => None
  end.

Definition positionToSquare (position : Position) : Square :=
  String (fromCharCode (97 + col position)) (numToString (8 - row position)).

(** The 64 squares a1 .. h8, file by file. *)
Definition fileLetters : list ascii :=
  ["a"; "b"; "c"; "d"; "e"; "f"; "g"; "h"]%char.
Definition rankDigits : list ascii :=
  ["1"; "2"; "3"; "4"; "5"; "6"; "7"; "8"]%char.
Definition validSquares : list Square :=
  flat_map (fun f => map (fun r => String f (String r EmptyString)) rankDigits)
           fileLetters.

Definition inBoard (p : Position) : Prop :=
  0 <= row p < 8 /\ 0 <= col p < 8.

(** ** utils/chess.ts: the initial position *)

Definition backRank : list PieceType :=
  [rook; knight; bishop; queen; king; bishop; knight; rook].

Definition emptyBoard : Board := repeat (repeat None 8%nat) 8%nat.

(** The local [placePiece] of [createInitialBoard]. *)
Definition placePiece (b : Board) (pos : Square) (p : ChessPiece)
  : outcome Board :=
  match squareToPosition pos with
  | Some q => setCell b (row q) (col q) (Some p)
  | None => TypeError
  end.

Definition mkPiece (t : PieceType) (c : PieceColor) : ChessPiece :=
  {| type := t; color := c |}.

(** The loop of [createInitialBoard], which can in principle throw. *)
Definition createInitialBoardM : outcome Board :=
  foldM (fun b i =>
           let file := fromCharCode (97 + i) in
           let sq := fun d : ascii => String file (String d EmptyString) in
           let back := nth (Z.to_nat i) backRank pawn in
           b <- placePiece b (sq "1"%char) (mkPiece back white) ;;
           b <- placePiece b (sq "2"%char) (mkPiece pawn white) ;;
           b <- placePiece b (sq "7"%char) (mkPiece pawn black) ;;
           placePiece b (sq "8"%char) (mkPiece back black))
        idx8 emptyBoard.

(** It does not: this is the board it returns. *)
Definition createInitialBoard : Board :=
  match createInitialBoardM with
  | Ok b => b
  | _ => []
  end.

Definition initialRights : CastlingRights :=
  {| whiteKingside := true; whiteQueenside := true;
     blackKingside := true; blackQueenside := true |}.

Definition createInitialGameState : GameState :=
  {| board := createInitialBoard;
     currentPlayer := white;
     moveHistory := [];
     castlingRights := initialRights;
     enPassantTarget := None;
     halfMoveClock := 0;
     fullMoveNumber := 1;
     isCheck := false;
     isCheckmate := false;
     isStalemate := false;
     isGameOver := false |}.

(** ** utils/chess.ts: move generation *)

Definition mkMove (f t : Square) (p : ChessPiece) : Move :=
  {| from := f; to := t; piece := p; captured := None; promotion := None;
     castling := None; enPassant := None |}.

(** [const { row, col } = squareToPosition(from); const piece = board[row][col]!].
    A NaN row throws at the board access.  The assertion [!] is the
    programmer's promise that the square is occupied.  Where it is broken
    the generated moves would carry [undefined] for a piece, which is not a
    [Move]; the embedding has no such moves and answers [TypeError], the
    exception the first use of [move.piece.type] raises.  Neither
    [isSquareAttacked] nor [getAllValidMoves] breaks the promise: both pass
    the square on which they found the piece. *)
Definition pieceAt (b : Board) (from : Square)
  : outcome (Position * ChessPiece) :=
  match squareToPosition from with
  | None => TypeError
  | Some p =>
      x <- cell b (row p) (col p) ;;
      match x with
      | Some pc => Ok (p, pc)
      | None => TypeError
      end
  end.

Definition inRange8 (x : Z) : bool := (0 <=? x) && (x <? 8).

Definition lastRank (r : Z) : option PieceType :=
  if (r =? 0) || (r =? 7) then Some queen else None.

Definition hasColor (c : PieceColor) (x : option ChessPiece) : bool :=
  match x with
  | Some p => PieceColor_eqb (color p) c
  | None => false
  end.

(** One iteration of [[-1, 1].forEach(dCol => ...)] in [getPawnMoves]. *)
Definition pawnCapture (b : Board) (from : Square) (pc : ChessPiece)
    (clr : PieceColor) (enPassantTarget : option Square) (r c : Z)
    (moves : list Move) (dCol : Z) : outcome (list Move) :=
  let direction := match clr with white => -1 | black => 1 end in
  if inRange8 (c + dCol) then
    let targetRow := r + direction in
    let targetCol := c + dCol in
    let targetPiece := cellOpt b targetRow targetCol in
    let to := positionToSquare {| row := targetRow; col := targetCol |} in
    let moves :=
      if hasColor (opponent clr) targetPiece
      then moves ++ [{| from := from; to := to; piece := pc;
                        captured := targetPiece;
                        promotion := lastRank targetRow;
                        castling := None; enPassant := None |}]
      else moves in
    let enPassantPos :=
      match enPassantTarget with
      | Some sq => if String.eqb sq EmptyString then None else squareToPosition sq
      | None => None
      end in
    match enPassantPos with
    | Some ep =>
        if (row ep =? targetRow) && (col ep =? targetCol) then
          cap <- cell b r targetCol ;;
          Ok (moves ++ [{| from := from; to := to; piece := pc;
                           captured := cap; promotion := None;
                           castling := None; enPassant := Some true |}])
        else Ok moves
    | None => Ok moves
    end
  else Ok moves.

(** Steps 1 and 2 of [getPawnMoves]: the forward move and, from the start
    row, the double move. *)
Definition pawnForward (b : Board) (from : Square) (pc : ChessPiece)
    (clr : PieceColor) (r c : Z) : outcome (list Move) :=
  let direction := match clr with white => -1 | black => 1 end in
  let startRow := match clr with white => 6 | black => 1 end in
  if inRange8 (r + direction) then
    ahead <- cell b (r + direction) c ;;
    if isSome ahead then Ok []
    else
      let m1 := {| from := from;
                   to := positionToSquare {| row := r + direction; col := c |};
                   piece := pc; captured := None;
                   promotion := lastRank (r + direction);
                   castling := None; enPassant := None |} in
      if r =? startRow then
        ahead2 <- cell b (r + 2 * direction) c ;;
        if isSome ahead2 then Ok [m1]
        else Ok [m1; mkMove from
                       (positionToSquare {| row := r + 2 * direction; col := c |})
                       pc]
      else Ok [m1]
  else Ok [].

Definition getPawnMoves (b : Board) (from : Square) (clr : PieceColor)
    (enPassantTarget : option Square) : outcome (list Move) :=
  x <- pieceAt b from ;;
  let (p, pc) := x in
  moves <- pawnForward b from pc clr (row p) (col p) ;;
  foldM (pawnCapture b from pc clr enPassantTarget (row p) (col p)) [-1; 1] moves.

(** One ray of [getSlidingMoves]: the loop [for (let i = 1; i < 8; i++)]
    with its two [break]s. *)
Fixpoint slideRay (b : Board) (from : Square) (pc : ChessPiece)
    (clr : PieceColor) (r c dr dc : Z) (steps : list Z) (moves : list Move)
  : outcome (list Move) :=
  match steps with
  | [] => Ok moves
  | i :: rest =>
      let newRow := r + i * dr in
      let newCol := c + i * dc in
      if (newRow <? 0) || (newRow >=? 8) || (newCol <? 0) || (newCol >=? 8)
      then Ok moves
      else
        targetPiece <- cell b newRow newCol ;;
        let to := positionToSquare {| row := newRow; col := newCol |} in
        match targetPiece with
        | Some tp =>
            if negb (PieceColor_eqb (color tp) clr)
            then Ok (moves ++ [{| from := from; to := to; piece := pc;
                                  captured := targetPiece; promotion := None;
                                  castling := None; enPassant := None |}])
            else Ok moves
        | None => slideRay b from pc clr r c dr dc rest (moves ++ [mkMove from to pc])
        end
  end.

Definition getSlidingMoves (b : Board) (from : Square) (clr : PieceColor)
    (directions : list (Z * Z)) : outcome (list Move) :=
  x <- pieceAt b from ;;
  let (p, pc) := x in
  foldM (fun moves d =>
           slideRay b from pc clr (row p) (col p) (fst d) (snd d)
                    [1; 2; 3; 4; 5; 6; 7] moves)
        directions [].

(** The body shared by the knight's loop and the king's double loop: a step
    to [(r + dr, c + dc)] when that is on the board and not on a piece of
    the mover's colour. *)
Definition stepTo (b : Board) (from : Square) (pc : ChessPiece)
    (clr : PieceColor) (r c : Z) (moves : list Move) (d : Z * Z)
  : outcome (list Move) :=
  let newRow := r + fst d in
  let newCol := c + snd d in
  if inRange8 newRow && inRange8 newCol then
    targetPiece <- cell b newRow newCol ;;
    if negb (isSome targetPiece) || negb (hasColor clr targetPiece)
    then Ok (moves ++ [{| from := from;
                          to := positionToSquare {| row := newRow; col := newCol |};
                          piece := pc; captured := targetPiece;
                          promotion := None; castling := None;
                          enPassant := None |}])
    else Ok moves
  else Ok moves.

Definition knightDeltas : list (Z * Z) :=
  [(2, 1); (2, -1); (-2, 1); (-2, -1); (1, 2); (1, -2); (-1, 2); (-1, -2)].

Definition getKnightMoves (b : Board) (from : Square) (clr : PieceColor)
  : outcome (list Move) :=
  x <- pieceAt b from ;;
  let (p, pc) := x in
  foldM (stepTo b from pc clr (row p) (col p)) knightDeltas [].

(** [for dr in -1..1, for dc in -1..1, skipping (0, 0)], in loop order. *)
Definition kingDeltas : list (Z * Z) :=
  [(-1, -1); (-1, 0); (-1, 1); (0, -1); (0, 1); (1, -1); (1, 0); (1, 1)].

(** Short-circuit [&&] over conditions that may throw. *)
Definition andThen (x : outcome bool) (k : unit -> outcome bool) : outcome bool :=
  b <- x ;; if b then k tt else Ok false.

Notation "x &&& y" := (andThen x (fun _ => y))
  (at level 40, left associativity).

(** [!board[r][c]] *)
Definition isEmpty (b : Board) (r c : Z) : outcome bool :=
  x <- cell b r c ;; Ok (negb (isSome x)).

Definition notM (x : outcome bool) : outcome bool :=
  v <- x ;; Ok (negb v).

Definition castleMove (from to : Square) (pc : ChessPiece) (side : CastlingSide)
  : Move :=
  {| from := from; to := to; piece := pc; captured := None; promotion := None;
     castling := Some side; enPassant := None |}.

(** The generators that depend on the square-attacked test take it as
    [attacked]; [isSquareAttacked] below closes the loop, calling them with
    [ignoreKingCheck = true], under which [attacked] is never consulted. *)
Section Generators.

Variable attacked : Board -> Square -> PieceColor -> outcome bool.

Definition getKingMoves (b : Board) (from : Square) (clr : PieceColor)
    (rights : CastlingRights) (ignoreKingCheck : bool)
  : outcome (list Move) :=
  x <- pieceAt b from ;;
  let (p, pc) := x in
  let opponentColor := opponent clr in
  moves <- foldM (stepTo b from pc clr (row p) (col p)) kingDeltas [] ;;
  go <- (Ok (negb ignoreKingCheck) &&& notM (attacked b from opponentColor)) ;;
  if go then
    match clr with
    | white =>
        k <- (Ok (whiteKingside rights)
                &&& isEmpty b 7 5 &&& isEmpty b 7 6
                &&& notM (attacked b "f1" opponentColor)
                &&& notM (attacked b "g1" opponentColor)) ;;
        let moves :=
          if k then moves ++ [castleMove from "g1" pc kingside] else moves in
        q <- (Ok (whiteQueenside rights)
                &&& isEmpty b 7 1 &&& isEmpty b 7 2 &&& isEmpty b 7 3
                &&& notM (attacked b "d1" opponentColor)
                &&& notM (attacked b "c1" opponentColor)) ;;
        Ok (if q then moves ++ [castleMove from "c1" pc queenside] else moves)
    | black =>
        k <- (Ok (blackKingside rights)
                &&& isEmpty b 0 5 &&& isEmpty b 0 6
                &&& notM (attacked b "f8" opponentColor)
                &&& notM (attacked b "g8" opponentColor)) ;;
        let moves :=
          if k then moves ++ [castleMove from "g8" pc kingside] else moves in
        q <- (Ok (blackQueenside rights)
                &&& isEmpty b 0 1 &&& isEmpty b 0 2 &&& isEmpty b 0 3
                &&& notM (attacked b "d8" opponentColor)
                &&& notM (attacked b "c8" opponentColor)) ;;
        Ok (if q then moves ++ [castleMove from "c8" pc queenside] else moves)
    end
  else Ok moves.

Definition rookDirs : list (Z * Z) := [(0, 1); (0, -1); (1, 0); (-1, 0)].
Definition bishopDirs : list (Z * Z) := [(1, 1); (1, -1); (-1, 1); (-1, -1)].

Definition getPieceMovesWith (b : Board) (square : Square) (pc : ChessPiece)
    (rights : CastlingRights) (enPassantTarget : option Square)
    (ignoreKingCheck : bool) : outcome (list Move) :=
  match type pc with
  | pawn => getPawnMoves b square (color pc) enPassantTarget
  | rook => getSlidingMoves b square (color pc) rookDirs
  | knight => getKnightMoves b square (color pc)
  | bishop => getSlidingMoves b square (color pc) bishopDirs
  | queen => getSlidingMoves b square (color pc) (rookDirs ++ bishopDirs)
  | king => getKingMoves b square (color pc) rights ignoreKingCheck
  end.

End Generators.

(** The rights record [isSquareAttacked] passes: all four false. *)
Definition noRights : CastlingRights :=
  {| whiteKingside := false; whiteQueenside := false;
     blackKingside := false; blackQueenside := false |}.

(** [isSquareAttacked]: some piece of [byColor] has a generated move (with
    castling suppressed and no en-passant target) that lands on [square]. *)
Definition isSquareAttacked (b : Board) (square : Square) (byColor : PieceColor)
  : outcome bool :=
  anyM (fun r =>
    anyM (fun c =>
      x <- cell b r c ;;
      match x with
      | Some pc =>
          if PieceColor_eqb (color pc) byColor then
            let fromSquare := positionToSquare {| row := r; col := c |} in
            moves <- getPieceMovesWith (fun _ _ _ => Ok false)
                       b fromSquare pc noRights None true ;;
            Ok (existsb (fun move => String.eqb (to move) square) moves)
          else Ok false
      | None => Ok false
      end) idx8) idx8.

Definition getPieceMoves : Board -> Square -> ChessPiece -> CastlingRights ->
                           option Square -> bool -> outcome (list Move) :=
  getPieceMovesWith isSquareAttacked.

Definition findKing (b : Board) (clr : PieceColor) : outcome (option Square) :=
  firstM (fun r =>
    firstM (fun c =>
      x <- cell b r c ;;
      match x with
      | Some pc =>
          if PieceType_eqb (type pc) king && PieceColor_eqb (color pc) clr
          then Ok (Some (positionToSquare {| row := r; col := c |}))
          else Ok None
      | None => Ok None
      end) idx8) idx8.

(** ** utils/chess.ts: applying a move *)

(** The board part of [applyMove]: the copy of the board with the piece
    moved, the en-passant victim removed and the castling rook relocated. *)
Definition moveBoard (b : Board) (move : Move) : outcome Board :=
  match squareToPosition (from move), squareToPosition (to move) with
  | Some fromPos, Some toPos =>
      nb <- setCell b (row fromPos) (col fromPos) None ;;
      nb <- setCell nb (row toPos) (col toPos)
              (Some match promotion move with
                    | Some t => {| type := t; color := color (piece move) |}
                    | None => piece move
                    end) ;;
      nb <- (if truthy (enPassant move)
             then setCell nb (row fromPos) (col toPos) None
             else Ok nb) ;;
      match castling move with
      | Some kingside =>
          rk <- cell nb (row toPos) 7 ;;
          nb <- setCell nb (row toPos) 7 None ;;
          setCell nb (row toPos) 5 rk
      | Some queenside =>
          rk <- cell nb (row toPos) 0 ;;
          nb <- setCell nb (row toPos) 0 None ;;
          setCell nb (row toPos) 3 rk
      | None => Ok nb
      end
  | _, _ => TypeError
  end.

(** The castling-rights part of [applyMove]. *)
Definition moveRights (cr : CastlingRights) (move : Move) : CastlingRights :=
  let cr :=
    if PieceType_eqb (type (piece move)) king then
      match color (piece move) with
      | white => {| whiteKingside := false; whiteQueenside := false;
                    blackKingside := blackKingside cr;
                    blackQueenside := blackQueenside cr |}
      | black => {| whiteKingside := whiteKingside cr;
                    whiteQueenside := whiteQueenside cr;
                    blackKingside := false; blackQueenside := false |}
      end
    else cr in
  let touches := fun sq => String.eqb (from move) sq || String.eqb (to move) sq in
  {| whiteKingside := if touches "h1" then false else whiteKingside cr;
     whiteQueenside := if touches "a1" then false else whiteQueenside cr;
     blackKingside := if touches "h8" then false else blackKingside cr;
     blackQueenside := if touches "a8" then false else blackQueenside cr |}.

(** The en-passant part of [applyMove].  When the rows differ by two their
    sum is even, so the division is exact. *)
Definition moveEnPassantTarget (fromPos toPos : Position) (move : Move)
  : option Square :=
  if PieceType_eqb (type (piece move)) pawn
     && (Z.abs (row fromPos - row toPos) =? 2)
  then Some (positionToSquare {| row := (row fromPos + row toPos) / 2;
                                 col := col fromPos |})
  else None.

Definition applyMove (gameState : GameState) (move : Move) : outcome GameState :=
  newBoard <- moveBoard (board gameState) move ;;
  match squareToPosition (from move), squareToPosition (to move) with
  | Some fromPos, Some toPos =>
      Ok {| board := newBoard;
            currentPlayer := opponent (currentPlayer gameState);
            moveHistory := moveHistory gameState ++ [move];
            castlingRights := moveRights (castlingRights gameState) move;
            enPassantTarget := moveEnPassantTarget fromPos toPos move;
            halfMoveClock :=
              (if PieceType_eqb (type (piece move)) pawn
                  || isSome (captured move)
               then 0 else halfMoveClock gameState + 1);
            fullMoveNumber :=
              (match currentPlayer gameState with
               | black => fullMoveNumber gameState + 1
               | white => fullMoveNumber gameState
               end);
            isCheck := isCheck gameState;
            isCheckmate := isCheckmate gameState;
            isStalemate := isStalemate gameState;
            isGameOver := isGameOver gameState |}
  | _, _ => TypeError
  end.

Definition getAllValidMoves (state : GameState) (clr : PieceColor)
  : outcome (list Move) :=
  let opponentColor := opponent clr in
  foldM (fun allMoves r =>
    foldM (fun allMoves c =>
      x <- cell (board state) r c ;;
      match x with
      | Some pc =>
          if PieceColor_eqb (color pc) clr then
            let fromSquare := positionToSquare {| row := r; col := c |} in
            pieceMoves <- getPieceMoves (board state) fromSquare pc
                            (castlingRights state) (enPassantTarget state)
                            false ;;
            foldM (fun allMoves move =>
                     tempState <- applyMove state move ;;
                     kingSquare <- findKing (board tempState) clr ;;
                     match kingSquare with
                     | Some k =>
                         att <- isSquareAttacked (board tempState) k opponentColor ;;
                         if negb att then Ok (allMoves ++ [move])
                         else Ok allMoves
                     | None => Ok allMoves
                     end)
                  pieceMoves allMoves
          else Ok allMoves
      | None => Ok allMoves
      end) idx8 allMoves) idx8 [].

(** ** hooks/useChessGame.ts: classifying the position *)

Definition checkGameStatus (state : GameState) : outcome GameState :=
  let nextPlayer := currentPlayer state in
  let opponentColor := opponent nextPlayer in
  kingSquare <- findKing (board state) nextPlayer ;;
  match kingSquare with
  | None =>
      Ok {| board := board state;
            currentPlayer := currentPlayer state;
            moveHistory := moveHistory state;
            castlingRights := castlingRights state;
            enPassantTarget := enPassantTarget state;
            halfMoveClock := halfMoveClock state;
            fullMoveNumber := fullMoveNumber state;
            isCheck := isCheck state;
            isCheckmate := true;
            isStalemate := isStalemate state;
            isGameOver := true |}
  | Some k =>
      inCheck <- isSquareAttacked (board state) k opponentColor ;;
      moves <- getAllValidMoves state nextPlayer ;;
      let hasValidMoves := negb (Nat.eqb (List.length moves) 0) in
      let isCheckmate' := inCheck && negb hasValidMoves in
      let isStalemate' := negb inCheck && negb hasValidMoves in
      Ok {| board := board state;
            currentPlayer := currentPlayer state;
            moveHistory := moveHistory state;
            castlingRights := castlingRights state;
            enPassantTarget := enPassantTarget state;
            halfMoveClock := halfMoveClock state;
            fullMoveNumber := fullMoveNumber state;
            isCheck := inCheck;
            isCheckmate := isCheckmate';
            isStalemate := isStalemate';
            isGameOver := isCheckmate' || isStalemate' |}
  end.

(** [makeMove], as the state it hands to [setGameState]: a finished game
    is left as it is, otherwise the move is applied and the result
    classified. *)
Definition makeMove (gameState : GameState) (move : Move) : outcome GameState :=
  if isGameOver gameState then Ok gameState
  else
    newState <- applyMove gameState move ;;
    checkGameStatus newState.

(** ** services/chessEngine.ts: evaluation and search *)

(** Scores.  The material values and table entries are integers or halves
    and their sums are computed exactly, here as rationals; the two
    infinities are those of JavaScript.  The rounding of the one addition
    of the random term is not represented. *)
Inductive num := NegInf | Fin (q : Q) | PosInf.

Definition num_leb (a b : num) : bool :=
  match a, b with
  | NegInf, _ => true
  | _, PosInf => true
  | Fin x, Fin y => Qle_bool x y
  | _, _ => false
  end.

Definition num_ltb (a b : num) : bool := negb (num_leb b a).

(** [Math.max] and [Math.min] *)
Definition num_max (a b : num) : num := if num_leb a b then b else a.
Definition num_min (a b : num) : num := if num_leb a b then a else b.

Definition PIECE_VALUES (t : PieceType) : Z :=
  match t with
  | pawn => 100 | knight => 320 | bishop => 330
  | rook => 500 | queen => 900 | king => 20000
  end.

Definition pawnTable : list (list Z) :=
  [[ 0;  0;  0;  0;  0;  0;  0;  0];
   [50; 50; 50; 50; 50; 50; 50; 50];
   [10; 10; 20; 30; 30; 20; 10; 10];
   [ 5;  5; 10; 25; 25; 10;  5;  5];
   [ 0;  0;  0; 20; 20;  0;  0;  0];
   [ 5; -5;-10;  0;  0;-10; -5;  5];
   [ 5; 10; 10;-20;-20; 10; 10;  5];
   [ 0;  0;  0;  0;  0;  0;  0;  0]].

Definition knightTable : list (list Z) :=
  [[-50;-40;-30;-30;-30;-30;-40;-50];
   [-40;-20;  0;  0;  0;  0;-20;-40];
   [-30;  0; 10; 15; 15; 10;  0;-30];
   [-30;  5; 15; 20; 20; 15;  5;-30];
   [-30;  0; 15; 20; 20; 15;  0;-30];
   [-30;  5; 10; 15; 15; 10;  5;-30];
   [-40;-20;  0;  5;  5;  0;-20;-40];
   [-50;-40;-30;-30;-30;-30;-40;-50]].

Definition kingTable : list (list Z) :=
  [[-30; -40; -40; -50; -50; -40; -40; -30];
   [-30; -40; -40; -50; -50; -40; -40; -30];
   [-30; -40; -40; -50; -50; -40; -40; -30];
   [-30; -40; -40; -50; -50; -40; -40; -30];
   [-20; -30; -30; -40; -40; -30; -30; -20];
   [-10; -20; -20; -20; -20; -20; -20; -10];
   [ 20;  20;   0;   0;   0;   0;  20;  20];
   [ 20;  30;  10;   0;   0;  10;  30;  20]].

Definition pieceSquareTables (t : PieceType) : list (list Q) :=
  match t with
  | pawn => map (map inject_Z) pawnTable
  | knight => map (map inject_Z) knightTable
  | bishop => map (fun r => rev (map (fun v => inject_Z (v + 5)) r)) knightTable
  | rook => map (map (fun v => inject_Z v / 10)%Q) pawnTable
  | queen => map (map (fun v => inject_Z v / 5)%Q) pawnTable
  | king => map (map inject_Z) kingTable
  end.

(** [table[r][c]]; the tables are 8 by 8 and [r], [c] are loop indices. *)
Definition tableAt (table : list (list Q)) (r c : Z) : Q :=
  nth (Z.to_nat c) (nth (Z.to_nat r) table []) 0%Q.

(** The sum of [evaluatePosition] before the random term is added. *)
Definition materialAndPosition (b : Board) : outcome Q :=
  foldM (fun score r =>
    foldM (fun score c =>
      x <- cell b r c ;;
      match x with
      | Some pc =>
          let value := inject_Z (PIECE_VALUES (type pc)) in
          let table := pieceSquareTables (type pc) in
          let positionalValue :=
            match color pc with
            | white => tableAt table r c
            | black => tableAt table (7 - r) c
            end in
          Ok (score + (value + positionalValue)
                      * (match color pc with white => 1 | black => -1 end))%Q
      | None => Ok score
      end) idx8 score) idx8 0%Q.

Section Search.

(** The randomness source: a state and [Math.random()], which returns a
    number in [0, 1) and the next state. *)
Variable rng : Type.
Variable Math_random : rng -> Q * rng.

(** [moves.sort(() => Math.random() - 0.5)]: the engine's sort run with a
    comparator that ignores its arguments.  Which order comes out, and how
    many random numbers are drawn, is the JavaScript engine's business. *)
Variable sortRandom : rng -> list Move -> list Move * rng.

Definition evaluatePosition (g : rng) (gameState : GameState)
  : outcome (num * rng) :=
  score <- materialAndPosition (board gameState) ;;
  let (x, g') := Math_random g in
  Ok (Fin (score + (x * 10 - 5))%Q, g').

(** The two loops of [minimax]; [child] is the recursive call on a child
    state with the window of the moment. *)
Fixpoint maxLoop (child : rng -> GameState -> num -> num -> outcome (num * rng))
    (gameState : GameState) (moves : list Move) (maxEval alpha beta : num)
    (g : rng) : outcome (num * rng) :=
  match moves with
  | [] => Ok (maxEval, g)
  | move :: rest =>
      childState <- applyMove gameState move ;;
      r <- child g childState alpha beta ;;
      let (evaluation, g) := r in
      let maxEval := num_max maxEval evaluation in
      let alpha := num_max alpha evaluation in
      if num_leb beta alpha then Ok (maxEval, g)
      else maxLoop child gameState rest maxEval alpha beta g
  end.

Fixpoint minLoop (child : rng -> GameState -> num -> num -> outcome (num * rng))
    (gameState : GameState) (moves : list Move) (minEval alpha beta : num)
    (g : rng) : outcome (num * rng) :=
  match moves with
  | [] => Ok (minEval, g)
  | move :: rest =>
      childState <- applyMove gameState move ;;
      r <- child g childState alpha beta ;;
      let (evaluation, g) := r in
      let minEval := num_min minEval evaluation in
      let beta := num_min beta evaluation in
      if num_leb beta alpha then Ok (minEval, g)
      else minLoop child gameState rest minEval alpha beta g
  end.

(** [minimax]; [fuel] bounds the depth of the recursion. *)
Fixpoint minimax (fuel : nat) (g : rng) (gameState : GameState) (depth : Z)
    (isMaximizing : bool) (alpha beta : num) : outcome (num * rng) :=
  match fuel with
  | O => OutOfFuel
  | S fuel' =>
      if (depth =? 0) || isGameOver gameState then
        if isCheckmate gameState
        then Ok (if isMaximizing then NegInf else PosInf, g)
        else if isStalemate gameState then Ok (Fin 0, g)
        else evaluatePosition g gameState
      else
        moves <- getAllValidMoves gameState (currentPlayer gameState) ;;
        if isMaximizing then
          maxLoop (fun g s a b => minimax fuel' g s (depth - 1) false a b)
                  gameState moves NegInf alpha beta g
        else
          minLoop (fun g s a b => minimax fuel' g s (depth - 1) true a b)
                  gameState moves PosInf alpha beta g
  end.

(** The loop of [getBestMove] over the shuffled moves. *)
Fixpoint bestLoop (fuel : nat) (gameState : GameState) (depth : Z)
    (moves : list Move) (bestMove : option Move) (bestValue : num) (g : rng)
  : outcome (option Move * rng) :=
  match moves with
  | [] => Ok (bestMove, g)
  | move :: rest =>
      childState <- applyMove gameState move ;;
      let isMaximizing := PieceColor_eqb (currentPlayer gameState) black in
      r <- minimax fuel g childState (depth - 1) isMaximizing NegInf PosInf ;;
      let (moveValue, g) := r in
      let better :=
        match currentPlayer gameState with
        | white => num_ltb bestValue moveValue
        | black => num_ltb moveValue bestValue
        end in
      if better then bestLoop fuel gameState depth rest (Some move) moveValue g
      else bestLoop fuel gameState depth rest bestMove bestValue g
  end.

(** [getBestMove]; [None] is [null]. *)
Definition getBestMove (fuel : nat) (g : rng) (gameState : GameState)
    (depth : Z) : outcome (option Move * rng) :=
  moves <- getAllValidMoves gameState (currentPlayer gameState) ;;
  if Nat.eqb (List.length moves) 0 then Ok (None, g)
  else
    let bestValue := match currentPlayer gameState with
                     | white => NegInf
                     | black => PosInf
                     end in
    let (moves, g) := sortRandom g moves in
    r <- bestLoop fuel gameState depth moves None bestValue g ;;
    let (bestMove, g) := r in
    Ok (match bestMove with
        | Some m => Some m
        | None => nth_error moves 0
        end, g).

End Search.

(** * Vocabulary of the statements, and the positions they are tried on *)

(** ** Positions *)

(** 1.e4 *)
Definition e2e4 : Move := mkMove "e2" "e4" (mkPiece pawn white).

Definition afterE2E4 : GameState :=
  match applyMove createInitialGameState e2e4 with
  | Ok s => s
  | _ => createInitialGameState
  end.

(** 1.e4 e5 *)
Definition afterE2E4_E7E5 : GameState :=
  match applyMove afterE2E4 (mkMove "e7" "e5" (mkPiece pawn black)) with
  | Ok s => s
  | _ => afterE2E4
  end.

(** 2.Ke2: white's king leaves e1. *)
Definition kingStep : Move := mkMove "e1" "e2" (mkPiece king white).

Definition afterKingStep : GameState :=
  match applyMove afterE2E4_E7E5 kingStep with
  | Ok s => s
  | _ => afterE2E4_E7E5
  end.

Definition initialWhiteMoves : list Move :=
  match getAllValidMoves createInitialGameState white with
  | Ok l => l
  | _ => []
  end.

(** Fool's mate, 1.f3 e5 2.g4 Qh4, played through [makeMove]. *)
Definition foolsMate : GameState :=
  match
    foldM makeMove
      [ mkMove "f2" "f3" (mkPiece pawn white);
        mkMove "e7" "e5" (mkPiece pawn black);
        mkMove "g2" "g4" (mkPiece pawn white);
        mkMove "d8" "h4" (mkPiece queen black) ]
      createInitialGameState
  with
  | Ok s => s
  | _ => createInitialGameState
  end.

(** A white move made on the mated position. *)
Definition a2a3 : Move := mkMove "a2" "a3" (mkPiece pawn white).

Definition afterMateA3 : GameState :=
  match applyMove foolsMate a2a3 with
  | Ok s => s
  | _ => foolsMate
  end.

(** A state with the given board and side to move, no rights, no target,
    no flag set. *)
Definition bareState (b : Board) (p : PieceColor) : GameState :=
  {| board := b;
     currentPlayer := p;
     moveHistory := [];
     castlingRights := noRights;
     enPassantTarget := None;
     halfMoveClock := 0;
     fullMoveNumber := 1;
     isCheck := false;
     isCheckmate := false;
     isStalemate := false;
     isGameOver := false |}.

(** White's king on e1 behind a white knight on e2, a black rook on e8:
    the knight is pinned. *)
Definition pinnedKnightBoard : Board :=
  match
    (b <- placePiece emptyBoard "e1" (mkPiece king white) ;;
     b <- placePiece b "e2" (mkPiece knight white) ;;
     b <- placePiece b "e8" (mkPiece rook black) ;;
     placePiece b "a8" (mkPiece king black))
  with
  | Ok b => b
  | _ => []
  end.

Definition pinnedKnightState : GameState := bareState pinnedKnightBoard white.

(** A lone black pawn on e7. *)
Definition lonePawnBoard : Board :=
  match placePiece emptyBoard "e7" (mkPiece pawn black) with
  | Ok b => b
  | _ => []
  end.

(** A state flagged as stalemate whose side to move has no king on the
    board: only black's king, on e8, and white to move. *)
Definition kinglessStaleState : GameState :=
  {| board := match placePiece emptyBoard "e8" (mkPiece king black) with
              | Ok b => b
              | _ => []
              end;
     currentPlayer := white;
     moveHistory := [];
     castlingRights := noRights;
     enPassantTarget := None;
     halfMoveClock := 0;
     fullMoveNumber := 1;
     isCheck := false;
     isCheckmate := false;
     isStalemate := true;
     isGameOver := true |}.

(** A board with two kings and nothing else. *)
Definition kingsBoard (wk bk : Square) : Board :=
  match
    (b <- placePiece emptyBoard wk (mkPiece king white) ;;
     placePiece b bk (mkPiece king black))
  with
  | Ok b => b
  | _ => []
  end.

(** White's king on d8, black's on b8, white to move. *)
Definition twoKings : GameState := bareState (kingsBoard "d8" "b8") white.

(** Four positions that the first legal move of each side cycles through:
    white's king between d8 and e8, black's between b8 and a8.  Each entry
    is a board, the side to move, its first legal move and the board after
    that move. *)
Definition shuffleCycle : list (Board * PieceColor * Move * Board) :=
  [ (kingsBoard "d8" "b8", white, mkMove "d8" "e8" (mkPiece king white),
     kingsBoard "e8" "b8");
    (kingsBoard "e8" "b8", black, mkMove "b8" "a8" (mkPiece king black),
     kingsBoard "e8" "a8");
    (kingsBoard "e8" "a8", white, mkMove "e8" "d8" (mkPiece king white),
     kingsBoard "d8" "a8");
    (kingsBoard "d8" "a8", black, mkMove "a8" "b8" (mkPiece king black),
     kingsBoard "d8" "b8") ].

(** The state is one of the cycle, not flagged as over. *)
Definition inCycle (s : GameState) : Prop :=
  isGameOver s = false /\
  castlingRights s = noRights /\
  enPassantTarget s = None /\
  exists m nb, In (board s, currentPlayer s, m, nb) shuffleCycle.

(** A randomness source that always answers one half. *)
Definition constHalf (g : unit) : Q * unit := ((1 # 2)%Q, g).

(** A shuffle that leaves the order alone. *)
Definition keepOrder (g : unit) (l : list Move) : list Move * unit := (l, g).

(** ** Predicates on moves *)

(** The mover is the king of colour [c]. *)
Definition kingOf (c : PieceColor) (m : Move) : bool :=
  PieceType_eqb (type (piece m)) king && PieceColor_eqb (color (piece m)) c.

(** The move starts from or lands on [sq]. *)
Definition touches (m : Move) (sq : Square) : bool :=
  String.eqb (from m) sq || String.eqb (to m) sq.

(** The move is a pawn move whose from- and to-rows are exactly two apart. *)
Definition twoRowPawnMove (m : Move) (fromPos toPos : Position) : Prop :=
  type (piece m) = pawn /\ Z.abs (row fromPos - row toPos) = 2.

(** A pawn advance of [n] rows: the mover is a pawn, the move stays in its
    column, captures nothing and goes [n] rows towards the far rank. *)
Definition isPawnAdvance (n : Z) (m : Move) : bool :=
  match squareToPosition (from m), squareToPosition (to m) with
  | Some f, Some t =>
      PieceType_eqb (type (piece m)) pawn
      && (col f =? col t)
      && negb (isSome (captured m))
      && (match color (piece m) with
          | white => row f - row t =? n
          | black => row t - row f =? n
          end)
  | _, _ => false
  end.

Definition isKnightMove (m : Move) : bool :=
  PieceType_eqb (type (piece m)) knight.

Definition count (f : Move -> bool) (l : list Move) : nat :=
  List.length (filter f l).

(** What [getAllValidMoves] checks before it keeps a move. *)
Definition kingSafeAfter (state : GameState) (clr : PieceColor) (m : Move)
  : Prop :=
  exists s' k,
    applyMove state m = Ok s' /\
    findKing (board s') clr = Ok (Some k) /\
    isSquareAttacked (board s') k (opponent clr) = Ok false.

(** The invariant of the status flags: game over is checkmate or stalemate,
    and the two exclude each other. *)
Definition flagsConsistent (s : GameState) : Prop :=
  isGameOver s = isCheckmate s || isStalemate s /\
  isCheckmate s && isStalemate s = false.

(** ** Loops that collect moves *)

(** A loop step that only appends to the accumulator what [g] makes of the
    element. *)
Definition appending {A B : Type} (f : list B -> A -> outcome (list B))
    (g : A -> outcome (list B)) : Prop :=
  forall acc x, f acc x = (ys <- g x ;; Ok (acc ++ ys)).

(** The check of [getAllValidMoves] on one pseudo-legal move: the move
    itself when it passes, nothing otherwise. *)
Definition keepIfSafe (state : GameState) (clr : PieceColor) (move : Move)
  : outcome (list Move) :=
  tempState <- applyMove state move ;;
  kingSquare <- findKing (board tempState) clr ;;
  match kingSquare with
  | Some k =>
      att <- isSquareAttacked (board tempState) k (opponent clr) ;;
      Ok (if negb att then [move] else [])
  | None => Ok []
  end.

(** The legal moves of the piece on [(r, c)], when it has colour [clr]. *)
Definition legalFrom (state : GameState) (clr : PieceColor) (r c : Z)
  : outcome (list Move) :=
  x <- cell (board state) r c ;;
  match x with
  | Some pc =>
      if PieceColor_eqb (color pc) clr then
        pieceMoves <- getPieceMoves (board state)
                        (positionToSquare {| row := r; col := c |}) pc
                        (castlingRights state) (enPassantTarget state) false ;;
        foldM (fun allMoves move =>
                 ys <- keepIfSafe state clr move ;; Ok (allMoves ++ ys))
              pieceMoves []
      else Ok []
  | None => Ok []
  end.

(** ** Well-formed states *)

(** The board has eight rows (of any length). *)
Definition rows8 (b : Board) : Prop := List.length b = 8%nat.

(** The en-passant target, when it parses, names a row of the board. *)
Definition epOk (ep : option Square) : Prop :=
  match ep with
  | Some sq => forall p, squareToPosition sq = Some p -> 0 <= row p < 8
  | None => True
  end.

Definition wellFormed (s : GameState) : Prop :=
  rows8 (board s) /\ epOk (enPassantTarget s).

(** Both ends of the move are among the 64 squares. *)
Definition goodMove (m : Move) : Prop :=
  In (from m) validSquares /\ In (to m) validSquares.

(** A generator returned, and every move it returned is between two of the
    64 squares. *)
Definition genOk (x : outcome (list Move)) : Prop :=
  exists ms, x = Ok ms /\ Forall goodMove ms.

(** Children of a state: [applyMove] accepts each listed move and makes a
    well-formed state of it. *)
Definition childrenOk (s : GameState) (moves : list Move) : Prop :=
  Forall (fun m => exists s', applyMove s m = Ok s' /\ wellFormed s') moves.

(** The recursive call handed to the loops of [minimax] returns on every
    well-formed state. *)
Definition childTotal {rng : Type}
    (child : rng -> GameState -> num -> num -> outcome (num * rng)) : Prop :=
  forall g s a b, wellFormed s -> exists v g', child g s a b = Ok (v, g').

(** * The hook, the components, and further vocabulary *)

(** ** hooks/useChessGame.ts: the hook as a state machine

    The four [useState] cells make up the state; an event handler is a
    function from the state of the render it was created in to the state
    after all its [set...] calls.  Timers and re-rendering are left out:
    the body of the [setTimeout] callback is [aiTimer], run on the state
    the effect saw. *)

Module Hook.

Record State := {
  gameState : GameState;
  selectedPiece : option Square;
  aiIsThinking : bool;
  promotionMove : option Move
}.

(** Truthiness of a [Square | null]: neither null nor the empty string. *)
Definition isSet (o : option Square) : bool :=
  match o with
  | Some sq => negb (String.eqb sq EmptyString)
  | None => false
  end.

(** [selectedPiece === square] *)
Definition isSquare (o : option Square) (square : Square) : bool :=
  match o with
  | Some sq => String.eqb sq square
  | None => false
  end.

(** [array.filter] with a predicate that may throw. *)
Fixpoint filterM {A : Type} (f : A -> outcome bool) (l : list A)
  : outcome (list A) :=
  match l with
  | [] => Ok []
  | x :: t => keep <- f x ;; rest <- filterM f t ;;
              Ok (if keep then x :: rest else rest)
  end.

(** The predicate of the filter in [validMoves]; a move after which the
    mover has no king is kept. *)
Definition keepsKingSafe (gs : GameState) (move : Move) : outcome bool :=
  tempState <- applyMove gs move ;;
  kingSquare <- findKing (board tempState) (currentPlayer gs) ;;
  match kingSquare with
  | Some k =>
      att <- isSquareAttacked (board tempState) k (opponent (currentPlayer gs)) ;;
      Ok (negb att)
  | None => Ok true
  end.

(** The [useMemo] value [validMoves]. *)
Definition validMoves (st : State) : outcome (list Move) :=
  let gs := gameState st in
  if negb (isSet (selectedPiece st)) || isSome (promotionMove st) then Ok []
  else
    match selectedPiece st with
    | None => Ok []
    | Some sel =>
        match squareToPosition sel with
        | None => TypeError
        | Some pos =>
            x <- cell (board gs) (row pos) (col pos) ;;
            match x with
            | None => Ok []
            | Some pc =>
                if negb (PieceColor_eqb (color pc) (currentPlayer gs)) then Ok []
                else
                  allMoves <- getPieceMoves (board gs) sel pc (castlingRights gs)
                                (enPassantTarget gs) false ;;
                  filterM (keepsKingSafe gs) allMoves
            end
        end
    end.

Definition select (st : State) (o : option Square) : State :=
  {| gameState := gameState st; selectedPiece := o;
     aiIsThinking := aiIsThinking st; promotionMove := promotionMove st |}.

(** [makeMove]: nothing on a finished game; otherwise the move is applied,
    the result classified, and the selection dropped. *)
Definition makeMove (st : State) (move : Move) : outcome State :=
  if isGameOver (gameState st) then Ok st
  else
    newState <- applyMove (gameState st) move ;;
    newState <- checkGameStatus newState ;;
    Ok {| gameState := newState; selectedPiece := None;
          aiIsThinking := aiIsThinking st; promotionMove := promotionMove st |}.

(** [handleSquareClick].  The handler belongs to a render, and the render
    computed [validMoves]: had that thrown there would be no handler. *)
Definition handleSquareClick (st : State) (square : Square) : outcome State :=
  rendered <- validMoves st ;;
  let gs := gameState st in
  if isGameOver gs || PieceColor_eqb (currentPlayer gs) black
     || isSome (promotionMove st)
  then Ok st
  else if isSquare (selectedPiece st) square then Ok (select st None)
  else
    match squareToPosition square with
    | None => TypeError
    | Some pos =>
        x <- cell (board gs) (row pos) (col pos) ;;
        let own := hasColor (currentPlayer gs) x in
        if isSet (selectedPiece st) then
          match find (fun m => String.eqb (to m) square) rendered with
          | Some move =>
              if isSome (promotion move)
                 && PieceColor_eqb (currentPlayer gs) white
              then Ok {| gameState := gs; selectedPiece := None;
                         aiIsThinking := aiIsThinking st;
                         promotionMove := Some move |}
              else makeMove st move
          | None => Ok (select st (if own then Some square else None))
          end
        else if own then Ok (select st (Some square)) else Ok st
    end.

(** [{ ...promotionMove, promotion: pieceType }] *)
Definition withPromotion (m : Move) (t : PieceType) : Move :=
  {| from := from m; to := to m; piece := piece m; captured := captured m;
     promotion := Some t; castling := castling m; enPassant := enPassant m |}.

Definition handlePromotionChoice (st : State) (pieceType : PieceType)
  : outcome State :=
  match promotionMove st with
  | None => Ok st
  | Some pm =>
      st' <- makeMove st (withPromotion pm pieceType) ;;
      Ok {| gameState := gameState st'; selectedPiece := selectedPiece st';
            aiIsThinking := aiIsThinking st'; promotionMove := None |}
  end.

Definition newGame (st : State) : State :=
  {| gameState := createInitialGameState; selectedPiece := None;
     aiIsThinking := false; promotionMove := None |}.

(** The state [undoMove] rebuilds: the history without its last two moves,
    replayed from the initial state and classified once at the end. *)
Definition replayWithoutLastTwo (gs : GameState) : outcome GameState :=
  let historyToReplay :=
    firstn (List.length (moveHistory gs) - 2) (moveHistory gs) in
  tempState <- foldM applyMove historyToReplay createInitialGameState ;;
  checkGameStatus tempState.

Definition undoMove (st : State) : outcome State :=
  if (List.length (moveHistory (gameState st)) <? 2)%nat then Ok st
  else
    tempState <- replayWithoutLastTwo (gameState st) ;;
    Ok {| gameState := tempState; selectedPiece := None;
          aiIsThinking := aiIsThinking st; promotionMove := None |}.

(** The effect that starts the automated side: with black to move in an
    unfinished game it raises [aiIsThinking] (and arms the timer). *)
Definition aiEffect (st : State) : State :=
  if PieceColor_eqb (currentPlayer (gameState st)) black
     && negb (isGameOver (gameState st))
  then {| gameState := gameState st; selectedPiece := selectedPiece st;
          aiIsThinking := true; promotionMove := promotionMove st |}
  else st.

Section Timer.

Variable rng : Type.
Variable Math_random : rng -> Q * rng.
Variable sortRandom : rng -> list Move -> list Move * rng.

(** The body of the timer callback: ask [getBestMove] at depth 3, play the
    move if there is one, lower [aiIsThinking]. *)
Definition aiTimer (fuel : nat) (g : rng) (st : State) : outcome (State * rng) :=
  r <- getBestMove rng Math_random sortRandom fuel g (gameState st) 3 ;;
  let (aiMove, g') := r in
  st' <- match aiMove with
         | Some m => makeMove st m
         | None => Ok st
         end ;;
  Ok ({| gameState := gameState st'; selectedPiece := selectedPiece st';
         aiIsThinking := false; promotionMove := promotionMove st' |}, g').

End Timer.

End Hook.

(** ** components/GameInfo.tsx and components/ChessBoard.tsx *)

(** [initialCounts] of [getCapturedPieces] *)
Definition initialCounts (t : PieceType) : Z :=
  match t with
  | pawn => 8 | rook => 2 | knight => 2 | bishop => 2 | queen => 1 | king => 1
  end.

(** The keys of [initialCounts] in the order [for ... in] visits them. *)
Definition countedTypes : list PieceType :=
  [pawn; rook; knight; bishop; queen; king].

(** [currentCounts[t]] after the loop over [board.flat()]. *)
Definition currentCount (b : Board) (clr : PieceColor) (t : PieceType) : Z :=
  fold_left
    (fun n x =>
       match x with
       | Some pc =>
           if PieceColor_eqb (color pc) clr && PieceType_eqb (type pc) t
           then n + 1 else n
       | None => n
       end)
    (List.concat b) 0.

(** [getCapturedPieces]: for each type, as many pieces as the board is short
    of the initial count; none when it is not short. *)
Definition getCapturedPieces (b : Board) (clr : PieceColor) : list ChessPiece :=
  fold_left
    (fun captured t =>
       let capturedCount := initialCounts t - currentCount b clr t in
       captured ++ repeat {| type := t; color := clr |} (Z.to_nat capturedCount))
    countedTypes [].

(** The name of a piece type, as the string the source uses for it. *)
Definition typeName (t : PieceType) : string :=
  match t with
  | pawn => "pawn" | rook => "rook" | knight => "knight"
  | bishop => "bishop" | queen => "queen" | king => "king"
  end.

(** [c.toUpperCase()] on a byte. *)
Definition toUpperCase (c : ascii) : ascii :=
  let n := N_of_ascii c in
  if (N.leb 97 n && N.leb n 122)%bool then ascii_of_N (n - 32) else c.

(** The text of one entry of the move history:
    [{move.piece.type.charAt(0).toUpperCase()}{move.to}]. *)
Definition moveLabel (m : Move) : string :=
  match typeName (type (piece m)) with
  | String c _ => String (toUpperCase c) (to m)
  | EmptyString => to m
  end.

Definition cols : list string := ["a"; "b"; "c"; "d"; "e"; "f"; "g"; "h"].
Definition rows : list string := ["8"; "7"; "6"; "5"; "4"; "3"; "2"; "1"].

(** An array element in a template literal; a missing one prints as
    "undefined". *)
Definition elementText (l : list string) (i : Z) : string :=
  match index l i with
  | Some s => s
  | None => "undefined"
  end.

(** The square a cell of the grid reports when clicked:
    [`${cols[colIndex]}${rows[rowIndex]}`] in [SquareContent]. *)
Definition cellSquare (rowIndex colIndex : Z) : Square :=
  String.append (elementText cols colIndex) (elementText rows rowIndex).

(** [gameStatusMessage] of App.tsx; [None] is null. *)
Definition gameStatusMessage (gs : GameState) : option string :=
  if isCheckmate gs then
    Some (match currentPlayer gs with
          | white => "Checkmate! Black wins."
          | black => "Checkmate! White wins."
          end)
  else if isStalemate gs then Some "Stalemate! The game is a draw."
  else if isCheck gs then Some "Check!"
  else None.

(** ** Vocabulary of the further statements *)

(** The piece [applyMove] puts on the destination: the mover, or a piece of
    the promotion type in the mover's colour. *)
Definition landingPiece (m : Move) : ChessPiece :=
  match promotion m with
  | Some t => {| type := t; color := color (piece m) |}
  | None => piece m
  end.

(** Position equality on the board's index pair. *)
Definition at_ (p : Position) (r c : Z) : bool := (r =? row p) && (c =? col p).

(** The columns castling works on: where the rook stands, where it goes
    and where the king goes. *)
Definition rookFrom (side : CastlingSide) : Z :=
  match side with kingside => 7 | queenside => 0 end.
Definition rookTo (side : CastlingSide) : Z :=
  match side with kingside => 5 | queenside => 3 end.
Definition kingTo (side : CastlingSide) : Z :=
  match side with kingside => 6 | queenside => 2 end.

(** The destination of a move as the board has it: it parses to a position
    on the board, the move's [captured] field is what stands there, and
    that is no piece of colour [clr]. *)
Definition destFit (b : Board) (clr : PieceColor) (m : Move) (tp : Position)
  : Prop :=
  squareToPosition (to m) = Some tp /\ inBoard tp /\
  cell b (row tp) (col tp) = Ok (captured m) /\
  hasColor clr (captured m) = false.

(** The shapes of the moves the generators build for the piece [pc] found
    on [(r, c)]. *)
Definition plainShape (b : Board) (clr : PieceColor) (m : Move) : Prop :=
  promotion m = None /\ castling m = None /\ enPassant m = None /\
  exists tp, destFit b clr m tp.

Definition pawnShape (b : Board) (clr : PieceColor) (r c : Z) (m : Move) : Prop :=
  castling m = None /\ enPassant m = None /\
  exists tp, destFit b clr m tp /\ promotion m = lastRank (row tp) /\
    let forward := match clr with white => r - row tp | black => row tp - r end in
    (col tp = c /\ captured m = None /\
     (forward = 1 \/ forward = 2 /\ r = match clr with white => 6 | black => 1 end))
    \/ (Z.abs (col tp - c) = 1 /\ forward = 1 /\ captured m <> None).

Definition enPassantShape (b : Board) (clr : PieceColor) (r c : Z)
    (ep : option Square) (m : Move) : Prop :=
  enPassant m = Some true /\ castling m = None /\ promotion m = None /\
  exists tp sq,
    squareToPosition (to m) = Some tp /\
    ep = Some sq /\ squareToPosition sq = Some tp /\
    row tp = match clr with white => r - 1 | black => r + 1 end /\
    Z.abs (col tp - c) = 1 /\
    cell b r (col tp) = Ok (captured m).

Definition castleShape (clr : PieceColor) (m : Move) : Prop :=
  exists side,
    castling m = Some side /\ promotion m = None /\ enPassant m = None /\
    captured m = None /\
    squareToPosition (to m)
    = Some {| row := match clr with white => 7 | black => 0 end;
              col := kingTo side |}.

(** A plain move of [pc] from [(r, c)]. *)
Definition plainFrom (b : Board) (r c : Z) (pc : ChessPiece) (clr : PieceColor)
    (m : Move) : Prop :=
  from m = positionToSquare {| row := r; col := c |} /\ piece m = pc /\
  plainShape b clr m.

(** A pawn's move from [(r, c)], en passant or not. *)
Definition pawnFrom (b : Board) (r c : Z) (pc : ChessPiece) (clr : PieceColor)
    (ep : option Square) (m : Move) : Prop :=
  from m = positionToSquare {| row := r; col := c |} /\ piece m = pc /\
  (pawnShape b clr r c m \/ enPassantShape b clr r c ep m).

(** What a generated move looks like, by the type of the piece. *)
Definition generatedShape (b : Board) (r c : Z) (pc : ChessPiece)
    (ep : option Square) (m : Move) : Prop :=
  from m = positionToSquare {| row := r; col := c |} /\
  piece m = pc /\
  match type pc with
  | pawn => pawnShape b (color pc) r c m \/ enPassantShape b (color pc) r c ep m
  | king => plainShape b (color pc) m \/ castleShape (color pc) m
  | _ => plainShape b (color pc) m
  end.

(** White's king on e1 with both rooks at home, black's king on e8; all
    castling rights held, white to move. *)
Definition castleBoard : Board :=
  match
    (b <- placePiece emptyBoard "e1" (mkPiece king white) ;;
     b <- placePiece b "a1" (mkPiece rook white) ;;
     b <- placePiece b "h1" (mkPiece rook white) ;;
     placePiece b "e8" (mkPiece king black))
  with
  | Ok b => b
  | _ => []
  end.

Definition castleState : GameState :=
  {| board := castleBoard;
     currentPlayer := white;
     moveHistory := [];
     castlingRights := initialRights;
     enPassantTarget := None;
     halfMoveClock := 0;
     fullMoveNumber := 1;
     isCheck := false;
     isCheckmate := false;
     isStalemate := false;
     isGameOver := false |}.

Definition shortCastle : Move :=
  castleMove "e1" "g1" (mkPiece king white) kingside.

Definition afterShortCastle : GameState :=
  match applyMove castleState shortCastle with
  | Ok s => s
  | _ => castleState
  end.

(** ** The conditions of castling *)

Definition homeRow (clr : PieceColor) : Z :=
  match clr with white => 7 | black => 0 end.

Definition holdsRight (rights : CastlingRights) (clr : PieceColor)
    (side : CastlingSide) : bool :=
  match clr, side with
  | white, kingside => whiteKingside rights
  | white, queenside => whiteQueenside rights
  | black, kingside => blackKingside rights
  | black, queenside => blackQueenside rights
  end.

(** The columns that have to be empty, and the columns the king crosses and
    lands on. *)
Definition between (side : CastlingSide) : list Z :=
  match side with kingside => [5; 6] | queenside => [1; 2; 3] end.

Definition kingPath (side : CastlingSide) : list Z :=
  match side with kingside => [5; 6] | queenside => [3; 2] end.

(** What [getKingMoves] tests before it adds a castling move from [src];
    where the king and the rook stand is not among it. *)
Definition castleAllowed (attacked : Board -> Square -> PieceColor -> outcome bool)
    (b : Board) (src : Square) (clr : PieceColor) (rights : CastlingRights)
    (side : CastlingSide) : Prop :=
  holdsRight rights clr side = true /\
  Forall (fun c => cell b (homeRow clr) c = Ok None) (between side) /\
  attacked b src (opponent clr) = Ok false /\
  Forall (fun c => attacked b (positionToSquare {| row := homeRow clr; col := c |})
                     (opponent clr) = Ok false)
         (kingPath side).

(** The castling move [getKingMoves] builds. *)
Definition castleOf (src : Square) (pc : ChessPiece) (clr : PieceColor)
    (side : CastlingSide) : Move :=
  castleMove src (positionToSquare {| row := homeRow clr; col := kingTo side |})
             pc side.

(** The test [getKingMoves] makes for one castling move, once it has found
    the king's own square unattacked. *)
Definition castleTest (attacked : Board -> Square -> PieceColor -> outcome bool)
    (b : Board) (clr : PieceColor) (rights : CastlingRights)
    (side : CastlingSide) : outcome bool :=
  match clr, side with
  | white, kingside =>
      Ok (whiteKingside rights)
        &&& isEmpty b 7 5 &&& isEmpty b 7 6
        &&& notM (attacked b "f1" (opponent clr))
        &&& notM (attacked b "g1" (opponent clr))
  | white, queenside =>
      Ok (whiteQueenside rights)
        &&& isEmpty b 7 1 &&& isEmpty b 7 2 &&& isEmpty b 7 3
        &&& notM (attacked b "d1" (opponent clr))
        &&& notM (attacked b "c1" (opponent clr))
  | black, kingside =>
      Ok (blackKingside rights)
        &&& isEmpty b 0 5 &&& isEmpty b 0 6
        &&& notM (attacked b "f8" (opponent clr))
        &&& notM (attacked b "g8" (opponent clr))
  | black, queenside =>
      Ok (blackQueenside rights)
        &&& isEmpty b 0 1 &&& isEmpty b 0 2 &&& isEmpty b 0 3
        &&& notM (attacked b "d8" (opponent clr))
        &&& notM (attacked b "c8" (opponent clr))
  end.

(** After 1. e4 a6 2. e5 d5: white's pawn on e5 may take the pawn on d5 en
    passant. *)
Definition epGame : list Move :=
  [e2e4; mkMove "a7" "a6" (mkPiece pawn black);
   mkMove "e4" "e5" (mkPiece pawn white);
   mkMove "d7" "d5" (mkPiece pawn black)].

Definition epState : GameState :=
  match foldM makeMove epGame createInitialGameState with
  | Ok s => s
  | _ => createInitialGameState
  end.

Definition epCapture : Move :=
  {| from := "e5"; to := "d6"; piece := mkPiece pawn white;
     captured := Some (mkPiece pawn black); promotion := None;
     castling := None; enPassant := Some true |}.

(** White's king on e1 and a white pawn on h7, black's king on a8; white
    to move. *)
Definition promoBoard : Board :=
  match
    (b <- placePiece emptyBoard "e1" (mkPiece king white) ;;
     b <- placePiece b "h7" (mkPiece pawn white) ;;
     placePiece b "a8" (mkPiece king black))
  with
  | Ok b => b
  | _ => []
  end.

Definition promoState : GameState := bareState promoBoard white.

Definition promoMove : Move :=
  {| from := "h7"; to := "h8"; piece := mkPiece pawn white;
     captured := None; promotion := Some queen;
     castling := None; enPassant := None |}.

(** A king of colour [clr] stands on [(r, c)]. *)
Definition kingAt (b : Board) (clr : PieceColor) (r c : Z) : Prop :=
  exists pc, cell b r c = Ok (Some pc) /\ type pc = king /\ color pc = clr.

(** [(r', c')] comes before [(r, c)] in the order the loops visit cells. *)
Definition visitedBefore (r' c' r c : Z) : Prop :=
  r' < r \/ (r' = r /\ c' < c).

(** The side to move after [n] moves of a game. *)
Definition sideAfter (n : nat) : PieceColor :=
  if Nat.even n then white else black.

(** Two states that agree on everything but the four status flags. *)
Definition sameCore (s t : GameState) : Prop :=
  board s = board t /\ currentPlayer s = currentPlayer t /\
  moveHistory s = moveHistory t /\ castlingRights s = castlingRights t /\
  enPassantTarget s = enPassantTarget t /\
  halfMoveClock s = halfMoveClock t /\ fullMoveNumber s = fullMoveNumber t.

(** A hook state around a game state, with the given selection and no
    promotion pending. *)
Definition hookOf (gs : GameState) (sel : option Square) : Hook.State :=
  {| Hook.gameState := gs; Hook.selectedPiece := sel;
     Hook.aiIsThinking := false; Hook.promotionMove := None |}.

(** The initial position after 1. e4, as [makeMove] leaves it. *)
Definition afterE2E4_checked : GameState :=
  match makeMove createInitialGameState e2e4 with
  | Ok s => s
  | _ => createInitialGameState
  end.

(** The promotion h7-h8 parked, awaiting the choice of piece. *)
Definition promoPending : Hook.State :=
  {| Hook.gameState := promoState; Hook.selectedPiece := None;
     Hook.aiIsThinking := false; Hook.promotionMove := Some promoMove |}.

(** ** The search without pruning

    The value [minimax] is meant to compute: the same recursion with no
    window and no [break].  The random term of [evaluatePosition] is the
    parameter [jitter]: the value [Math.random()] returns. *)

Definition staticValue (jitter : Q) (s : GameState) : outcome num :=
  score <- materialAndPosition (board s) ;;
  Ok (Fin (score + (jitter * 10 - 5))%Q).

Definition leafValue (jitter : Q) (s : GameState) (isMaximizing : bool)
  : outcome num :=
  if isCheckmate s then Ok (if isMaximizing then NegInf else PosInf)
  else if isStalemate s then Ok (Fin 0)
  else staticValue jitter s.

Fixpoint fullValue (jitter : Q) (fuel : nat) (s : GameState) (depth : Z)
    (isMaximizing : bool) : outcome num :=
  match fuel with
  | O => OutOfFuel
  | S fuel' =>
      if (depth =? 0) || isGameOver s then leafValue jitter s isMaximizing
      else
        moves <- getAllValidMoves s (currentPlayer s) ;;
        if isMaximizing then
          foldM (fun best move =>
                   childState <- applyMove s move ;;
                   e <- fullValue jitter fuel' childState (depth - 1) false ;;
                   Ok (num_max best e))
                moves NegInf
        else
          foldM (fun best move =>
                   childState <- applyMove s move ;;
                   e <- fullValue jitter fuel' childState (depth - 1) true ;;
                   Ok (num_min best e))
                moves PosInf
  end.

(** Two scores that compare equal (the rationals are not normalised). *)
Definition num_eq (a b : num) : Prop :=
  num_leb a b = true /\ num_leb b a = true.

(** What a search with the window [(alpha, beta)] tells about the full
    value [e]: at or below [alpha] it returns something at or below
    [alpha], at or above [beta] something at or above [beta], and strictly
    between the two the value itself. *)
Definition within (v e alpha beta : num) : Prop :=
  (num_leb e alpha = true -> num_leb v alpha = true) /\
  (num_leb beta e = true -> num_leb beta v = true) /\
  (num_leb e alpha = false -> num_leb beta e = false -> num_eq v e).

(** The state of the maximising loop ([maxEval], the raised [alpha])
    against the running maximum [best] of the full values. *)
Definition maxInv (alpha beta maxEval best a : num) : Prop :=
  num_leb beta a = false /\
  ((num_leb best alpha = true /\ num_leb maxEval alpha = true /\
    num_eq a alpha) \/
   (num_leb best alpha = false /\ num_eq maxEval best /\ num_eq a maxEval)).

(** The same for the minimising loop and the lowered [beta]. *)
Definition minInv (alpha beta minEval best b : num) : Prop :=
  num_leb b alpha = false /\
  ((num_leb beta best = true /\ num_leb beta minEval = true /\
    num_eq b beta) \/
   (num_leb beta best = false /\ num_eq minEval best /\ num_eq b minEval)).

(** Black's king on a8, white's king on a6 and queen on c1; white to
    move.  The queen's move to c7 leaves black without a legal move and
    not in check. *)
Definition cornerBoard : Board :=
  match
    (b <- placePiece emptyBoard "a8" (mkPiece king black) ;;
     b <- placePiece b "a6" (mkPiece king white) ;;
     placePiece b "c1" (mkPiece queen white))
  with
  | Ok b => b
  | _ => []
  end.

Definition cornerState : GameState := bareState cornerBoard white.

Definition queenToC7 : Move := mkMove "c1" "c7" (mkPiece queen white).

Definition afterQueenToC7 : GameState :=
  match applyMove cornerState queenToC7 with
  | Ok s => s
  | _ => cornerState
  end.

(** ** The hook under a sequence of events *)

(** A game state some list of calls of [makeMove] reaches from the
    initial state. *)
Definition played (gs : GameState) : Prop :=
  exists ms, foldM makeMove ms createInitialGameState = Ok gs.

(** What holds of the hook's state between events: the game has been
    played from the initial state, a selected square is one of the 64, and
    a parked promotion is a move between two of them. *)
Definition hookInv (st : Hook.State) : Prop :=
  played (Hook.gameState st) /\
  (forall sel, Hook.selectedPiece st = Some sel -> In sel validSquares) /\
  (forall pm, Hook.promotionMove st = Some pm -> goodMove pm).

(** The state of the first render. *)
Definition initialHook : Hook.State :=
  {| Hook.gameState := createInitialGameState; Hook.selectedPiece := None;
     Hook.aiIsThinking := false; Hook.promotionMove := None |}.

Section HookMachine.

Variable rng : Type.
Variable Math_random : rng -> Q * rng.
Variable sortRandom : rng -> list Move -> list Move * rng.

(** What can happen to the hook: a click on the cell in a row and column
    of the grid, a choice in the promotion dialog, the two buttons, the
    effect that announces the automated move, and its timer firing (with
    the state of the random source at that moment). *)
Inductive Event :=
| Click (rowIndex colIndex : Z)
| Choose (pieceType : PieceType)
| Undo
| NewGame
| AiEffect
| AiTimer (g : rng).

(** The clicks the grid can produce are those on its 64 cells. *)
Definition onGrid (ev : Event) : Prop :=
  match ev with
  | Click rowIndex colIndex => 0 <= rowIndex < 8 /\ 0 <= colIndex < 8
  | _ => True
  end.

Definition step (st : Hook.State) (ev : Event) : outcome Hook.State :=
  match ev with
  | Click rowIndex colIndex =>
      Hook.handleSquareClick st (cellSquare rowIndex colIndex)
  | Choose pieceType => Hook.handlePromotionChoice st pieceType
  | Undo => Hook.undoMove st
  | NewGame => Ok (Hook.newGame st)
  | AiEffect => Ok (Hook.aiEffect st)
  | AiTimer g =>
      r <- Hook.aiTimer rng Math_random sortRandom 3 g st ;;
      Ok (fst r)
  end.

End HookMachine.

(** ** The choice of [getBestMove] *)

(** The full value of the position a move of [s] leads to, searched to
    [depth - 1] as [getBestMove] does. *)
Definition moveValue (jitter : Q) (fuel : nat) (s : GameState) (depth : Z)
    (m : Move) : outcome num :=
  childState <- applyMove s m ;;
  fullValue jitter fuel childState (depth - 1)
            (PieceColor_eqb (currentPlayer s) black).

(** [e] is at least as good as [e'] for the side to move in [s]: white
    wants the larger value, black the smaller. *)
Definition prefers (s : GameState) (e e' : num) : Prop :=
  match currentPlayer s with
  | white => num_leb e' e = true
  | black => num_leb e e' = true
  end.

(** The value [getBestMove] starts from: the worst for the side to move. *)
Definition worstValue (s : GameState) : num :=
  match currentPlayer s with
  | white => NegInf
  | black => PosInf
  end.

(** The state of the loop of [getBestMove] after the moves [done]. *)
Definition bestInv (jitter : Q) (fuel : nat) (s : GameState) (depth : Z)
    (done : list Move) (bestMove : option Move) (bestValue : num) : Prop :=
  match bestMove with
  | None =>
      bestValue = worstValue s /\
      forall p e, In p done -> moveValue jitter fuel s depth p = Ok e ->
                  prefers s (worstValue s) e
  | Some b =>
      exists eb, In b done /\ moveValue jitter fuel s depth b = Ok eb /\
                 num_eq bestValue eb /\
                 forall p e, In p done -> moveValue jitter fuel s depth p = Ok e ->
                             prefers s eb e
  end.

(** A state with the board, rights and en-passant target of [epState] and
    everything else different. *)
Definition epStateScrambled : GameState :=
  {| board := board epState;
     currentPlayer := black;
     moveHistory := [];
     castlingRights := castlingRights epState;
     enPassantTarget := enPassantTarget epState;
     halfMoveClock := 99;
     fullMoveNumber := 1;
     isCheck := true;
     isCheckmate := true;
     isStalemate := true;
     isGameOver := true |}.

(** A move to a square whose file is past the h-file. *)
Definition sidewaysOff : Move := mkMove "e2" "z4" (mkPiece pawn white).

(** ** What [checkGameStatus] is handed

    [checkGameStatus] is private to the hook and has two callers.
    [makeMove] hands it what [applyMove] made of the hook's game state,
    and only when that state is not over; [undoMove] hands it a replay of
    a list of moves with [applyMove] from the initial state.  The hook's
    game state is always one a game played from the initial state
    reaches. *)
Definition passedByMakeMove (t : GameState) : Prop :=
  exists gs m, played gs /\ isGameOver gs = false /\ applyMove gs m = Ok t.

Definition passedByUndoMove (t : GameState) : Prop :=
  exists history, foldM applyMove history createInitialGameState = Ok t.

Definition received (t : GameState) : Prop :=
  passedByMakeMove t \/ passedByUndoMove t.

(** ** Attack, by the geometry of the pieces

    Which squares a piece standing on [(r, c)] attacks, stated from the
    rules of the pieces and the board alone: no move generator and no
    [isSquareAttacked] is involved. *)

(** Every square strictly between [(r, c)] and [(tr, tc)], along the line
    or diagonal that joins them, is empty. *)
Definition emptyBetween (b : Board) (r c tr tc : Z) : Prop :=
  forall i,
    0 < i < Z.max (Z.abs (tr - r)) (Z.abs (tc - c)) ->
    cell b (r + i * Z.sgn (tr - r)) (c + i * Z.sgn (tc - c)) = Ok None.

Definition onLine (r c tr tc : Z) : Prop :=
  (tr = r /\ tc <> c) \/ (tc = c /\ tr <> r).

Definition onDiagonal (r c tr tc : Z) : Prop :=
  Z.abs (tr - r) = Z.abs (tc - c) /\ tr <> r.

(** A pawn attacks the two squares diagonally ahead (white moves towards
    row 0), a knight the eight squares a knight's jump away, a king the
    squares next to it, and rook, bishop and queen along lines, diagonals
    or both as far as the first occupied square. *)
Definition attacks (b : Board) (pc : ChessPiece) (r c tr tc : Z) : Prop :=
  match type pc with
  | pawn =>
      tr = r + match color pc with white => -1 | black => 1 end /\
      Z.abs (tc - c) = 1
  | knight =>
      (Z.abs (tr - r) = 1 /\ Z.abs (tc - c) = 2) \/
      (Z.abs (tr - r) = 2 /\ Z.abs (tc - c) = 1)
  | king =>
      Z.abs (tr - r) <= 1 /\ Z.abs (tc - c) <= 1 /\ (tr <> r \/ tc <> c)
  | rook => onLine r c tr tc /\ emptyBetween b r c tr tc
  | bishop => onDiagonal r c tr tc /\ emptyBetween b r c tr tc
  | queen =>
      (onLine r c tr tc \/ onDiagonal r c tr tc) /\ emptyBetween b r c tr tc
  end.

(** Some piece of colour [clr] on the 8 x 8 grid attacks [(tr, tc)]. *)
Definition attackedBy (b : Board) (clr : PieceColor) (tr tc : Z) : Prop :=
  exists r c pc,
    0 <= r < 8 /\ 0 <= c < 8 /\
    cell b r c = Ok (Some pc) /\ color pc = clr /\
    attacks b pc r c tr tc.

(** ** The scores [getBestMove] compares *)

Section Scoring.

Variable rng : Type.
Variable Math_random : rng -> Q * rng.

(** The [moveValue]s of the loop of [getBestMove], move by move in the
    order of the loop, each computed by the loop's own call of [minimax]
    on the child state, with the random source handed from one call to the
    next as the loop does. *)
Fixpoint scoreMoves (fuel : nat) (gameState : GameState) (depth : Z)
    (moves : list Move) (g : rng) : outcome (list (Move * num) * rng) :=
  match moves with
  | [] => Ok ([], g)
  | move :: rest =>
      childState <- applyMove gameState move ;;
      let isMaximizing := PieceColor_eqb (currentPlayer gameState) black in
      r <- minimax rng Math_random fuel g childState (depth - 1) isMaximizing
             NegInf PosInf ;;
      let (value, g) := r in
      r <- scoreMoves fuel gameState depth rest g ;;
      let (scored, g) := r in
      Ok ((move, value) :: scored, g)
  end.

End Scoring.

(** The test of the loop: [moveValue > bestValue] on white's turn,
    [moveValue < bestValue] on black's. *)
Definition beats (s : GameState) (value best : num) : bool :=
  match currentPlayer s with
  | white => num_ltb best value
  | black => num_ltb value best
  end.

(** [m], scored [v], is the best-scoring candidate of the scored list: its
    score strictly improves on the value the loop starts from and on every
    score before it, and no score after it strictly improves on it. *)
Definition bestScoring (s : GameState) (scored : list (Move * num))
    (m : Move) (v : num) : Prop :=
  exists before after,
    scored = before ++ (m, v) :: after /\
    beats s v (worstValue s) = true /\
    (forall m' v', In (m', v') before -> beats s v v' = true) /\
    (forall m' v', In (m', v') after -> beats s v' v = false).

(** Scoring produced no strict improvement on the starting value. *)
Definition noImprovement (s : GameState) (scored : list (Move * num)) : Prop :=
  forall m' v', In (m', v') scored -> beats s v' (worstValue s) = false.

(** The state of the loop of [getBestMove] once the moves of [scored] have
    been scored. *)
Definition scoredInv (s : GameState) (scored : list (Move * num))
    (bestMove : option Move) (bestValue : num) : Prop :=
  match bestMove with
  | None => bestValue = worstValue s /\ noImprovement s scored
  | Some m => bestScoring s scored m bestValue
  end.

(** * Properties *)

(** ** Squares *)

Lemma validSquares_length : List.length validSquares = 64%nat.
Proof. reflexivity. Qed.

Lemma validSquares_NoDup : NoDup validSquares.
Proof.
  unfold validSquares; simpl.
  repeat (constructor; [simpl; intuition discriminate |]).
  constructor.
Qed.

(** Every board position prints as one of the 64 squares and parses back. *)
Lemma position_roundtrip (p : Position) :
  inBoard p ->
  In (positionToSquare p) validSquares /\
  squareToPosition (positionToSquare p) = Some p.
Proof.
  destruct p as [r c]; unfold inBoard; simpl; intros [Hr Hc].
  assert (Er : r = 0 \/ r = 1 \/ r = 2 \/ r = 3 \/ r = 4 \/ r = 5 \/ r = 6 \/ r = 7)
    by lia.
  assert (Ec : c = 0 \/ c = 1 \/ c = 2 \/ c = 3 \/ c = 4 \/ c = 5 \/ c = 6 \/ c = 7)
    by lia.
  clear Hr Hc.
  repeat (destruct Er as [-> | Er]); [| | | | | | |subst r];
    (repeat (destruct Ec as [-> | Ec]); [| | | | | | |subst c]);
    (split; [vm_compute; tauto | reflexivity]).
Qed.

(** Each of the 64 squares parses to a position on the board. *)
Lemma validSquares_on_board (s : Square) :
  In s validSquares -> exists p, squareToPosition s = Some p /\ inBoard p.
Proof.
  unfold validSquares; simpl; intros H.
  repeat (destruct H as [<- | H];
          [eexists; split; [reflexivity | unfold inBoard; simpl; lia] |]).
  contradiction.
Qed.

(** C8. For each of the 64 valid square identifiers (file a-h, rank 1-8),
    [squareToPosition] yields a position on the board and
    [positionToSquare] maps that position back to the same identifier. *)
Theorem square_roundtrip (s : Square) :
  In s validSquares ->
  exists p, squareToPosition s = Some p /\ inBoard p /\ positionToSquare p = s.
Proof.
  unfold validSquares; simpl; intros H.
  repeat (destruct H as [<- | H];
          [eexists; split; [reflexivity |
             split; [unfold inBoard; simpl; lia | reflexivity]] |]).
  contradiction.
Qed.

Lemma square_roundtrip_witness :
  In "e4" validSquares /\
  exists p, squareToPosition "e4" = Some p /\ inBoard p
            /\ positionToSquare p = "e4".
Proof.
  assert (H : In "e4" validSquares) by (vm_compute; tauto).
  split; [exact H | exact (square_roundtrip "e4" H)].
Defined.

(** ** [applyMove] *)

Lemma bind_Ok {A B : Type} (x : outcome A) (k : A -> outcome B) (b : B) :
  bind x k = Ok b -> exists a, x = Ok a /\ k a = Ok b.
Proof. destruct x; simpl; intros H; try discriminate; eauto. Qed.

(** What a successful [applyMove] returns, field by field. *)
Lemma applyMove_Ok (s : GameState) (m : Move) (s' : GameState) :
  applyMove s m = Ok s' ->
  exists nb fp tp,
    moveBoard (board s) m = Ok nb /\
    squareToPosition (from m) = Some fp /\
    squareToPosition (to m) = Some tp /\
    board s' = nb /\
    currentPlayer s' = opponent (currentPlayer s) /\
    moveHistory s' = moveHistory s ++ [m] /\
    castlingRights s' = moveRights (castlingRights s) m /\
    enPassantTarget s' = moveEnPassantTarget fp tp m /\
    isCheck s' = isCheck s /\ isCheckmate s' = isCheckmate s /\
    isStalemate s' = isStalemate s /\ isGameOver s' = isGameOver s.
Proof.
  unfold applyMove; intros H.
  apply bind_Ok in H as (nb & Hb & H).
  destruct (squareToPosition (from m)) as [fp|]; [|discriminate].
  destruct (squareToPosition (to m)) as [tp|]; [|discriminate].
  injection H as <-. exists nb, fp, tp; simpl. repeat split; assumption.
Qed.

(** C9. The state returned by [applyMove] carries the four status flags of
    the state it was given: isCheck, isCheckmate, isStalemate and
    isGameOver are copied, not recomputed. *)
Theorem applyMove_status_unchanged (s : GameState) (m : Move) (s' : GameState) :
  applyMove s m = Ok s' ->
  isCheck s' = isCheck s /\ isCheckmate s' = isCheckmate s /\
  isStalemate s' = isStalemate s /\ isGameOver s' = isGameOver s.
Proof.
  intros H; apply applyMove_Ok in H.
  destruct H as (nb & fp & tp & _ & _ & _ & _ & _ & _ & _ & _ & H).
  exact H.
Qed.

Lemma applyMove_e2e4 : applyMove createInitialGameState e2e4 = Ok afterE2E4.
Proof. reflexivity. Qed.

(** After fool's mate white, who has no legal move, is moved all the
    same: the flags of the mated state are still there, with black to
    move. *)
Lemma applyMove_status_unchanged_witness :
  applyMove foolsMate a2a3 = Ok afterMateA3 /\
  currentPlayer afterMateA3 = black /\
  isCheck afterMateA3 = isCheck foolsMate /\
  isCheckmate afterMateA3 = isCheckmate foolsMate /\
  isStalemate afterMateA3 = isStalemate foolsMate /\
  isGameOver afterMateA3 = isGameOver foolsMate /\
  isCheckmate afterMateA3 = true.
Proof.
  assert (H : applyMove foolsMate a2a3 = Ok afterMateA3)
    by (vm_compute; reflexivity).
  split; [exact H |]. split; [vm_compute; reflexivity |].
  destruct (applyMove_status_unchanged foolsMate a2a3 afterMateA3 H)
    as (H1 & H2 & H3 & H4).
  split; [exact H1 |]. split; [exact H2 |]. split; [exact H3 |].
  split; [exact H4 |]. vm_compute; reflexivity.
Defined.

(** *** Castling rights *)

Ltac rights_cases m :=
  unfold moveRights, kingOf, touches;
  destruct (type (piece m)), (color (piece m)); simpl;
  repeat match goal with
         | |- context [String.eqb ?a ?b] => destruct (String.eqb a b); simpl
         end;
  repeat match goal with
         | |- context [?f ?cr] =>
             match type of cr with CastlingRights => destruct (f cr) end
         end;
  reflexivity.

Lemma moveRights_whiteKingside (cr : CastlingRights) (m : Move) :
  whiteKingside (moveRights cr m)
  = whiteKingside cr && negb (kingOf white m) && negb (touches m "h1").
Proof. rights_cases m. Qed.

Lemma moveRights_whiteQueenside (cr : CastlingRights) (m : Move) :
  whiteQueenside (moveRights cr m)
  = whiteQueenside cr && negb (kingOf white m) && negb (touches m "a1").
Proof. rights_cases m. Qed.

Lemma moveRights_blackKingside (cr : CastlingRights) (m : Move) :
  blackKingside (moveRights cr m)
  = blackKingside cr && negb (kingOf black m) && negb (touches m "h8").
Proof. rights_cases m. Qed.

Lemma moveRights_blackQueenside (cr : CastlingRights) (m : Move) :
  blackQueenside (moveRights cr m)
  = blackQueenside cr && negb (kingOf black m) && negb (touches m "a8").
Proof. rights_cases m. Qed.

Lemma kingOf_true (c : PieceColor) (m : Move) :
  type (piece m) = king -> color (piece m) = c -> kingOf c m = true.
Proof. unfold kingOf; intros -> ->; destruct c; reflexivity. Qed.

Lemma touches_true (m : Move) (sq : Square) :
  from m = sq \/ to m = sq -> touches m sq = true.
Proof.
  unfold touches; intros [<- | <-]; rewrite String.eqb_refl;
    [reflexivity | apply orb_true_r].
Qed.

(** One wing: the right after the move is the right before it, unless the
    wing's king moved or the move touched the wing's rook corner. *)
Lemma wing_right (old new : bool) (k t : bool) :
  new = old && negb k && negb t ->
  (old = false -> new = false) /\
  (k = true -> new = false) /\
  (t = true -> new = false) /\
  (old = true -> k = false -> t = false -> new = true).
Proof. intros ->; destruct old, k, t; simpl; intuition congruence. Qed.

(** C2. Castling rights after [applyMove]: (1) a right that was false stays
    false; (2) a move of a colour's king, from its home square or from
    anywhere else, makes both rights of that colour false; (3) a move whose
    from- or to-square is a rook's home corner (the rook leaving it, or
    anything landing on it) makes that wing's right false; (4) in every
    other case the right is kept. *)
Theorem castling_rights_monotone_and_revoked
    (s : GameState) (m : Move) (s' : GameState) :
  applyMove s m = Ok s' ->
  let cr := castlingRights s in
  let cr' := castlingRights s' in
  (* (1) never re-granted *)
  ((whiteKingside cr = false -> whiteKingside cr' = false) /\
   (whiteQueenside cr = false -> whiteQueenside cr' = false) /\
   (blackKingside cr = false -> blackKingside cr' = false) /\
   (blackQueenside cr = false -> blackQueenside cr' = false)) /\
  (* (2) the king moves *)
  ((type (piece m) = king -> color (piece m) = white ->
    whiteKingside cr' = false /\ whiteQueenside cr' = false) /\
   (type (piece m) = king -> color (piece m) = black ->
    blackKingside cr' = false /\ blackQueenside cr' = false)) /\
  (* (3) a rook's corner is left or landed on *)
  ((from m = "h1" \/ to m = "h1" -> whiteKingside cr' = false) /\
   (from m = "a1" \/ to m = "a1" -> whiteQueenside cr' = false) /\
   (from m = "h8" \/ to m = "h8" -> blackKingside cr' = false) /\
   (from m = "a8" \/ to m = "a8" -> blackQueenside cr' = false)) /\
  (* (4) otherwise kept *)
  ((whiteKingside cr = true -> kingOf white m = false ->
    touches m "h1" = false -> whiteKingside cr' = true) /\
   (whiteQueenside cr = true -> kingOf white m = false ->
    touches m "a1" = false -> whiteQueenside cr' = true) /\
   (blackKingside cr = true -> kingOf black m = false ->
    touches m "h8" = false -> blackKingside cr' = true) /\
   (blackQueenside cr = true -> kingOf black m = false ->
    touches m "a8" = false -> blackQueenside cr' = true)).
Proof.
  intros H; apply applyMove_Ok in H.
  destruct H as (nb & fp & tp & _ & _ & _ & _ & _ & _ & Hcr & _).
  cbv zeta; rewrite Hcr.
  pose proof (wing_right _ _ _ _ (moveRights_whiteKingside (castlingRights s) m))
    as (A1 & A2 & A3 & A4).
  pose proof (wing_right _ _ _ _ (moveRights_whiteQueenside (castlingRights s) m))
    as (B1 & B2 & B3 & B4).
  pose proof (wing_right _ _ _ _ (moveRights_blackKingside (castlingRights s) m))
    as (C1 & C2 & C3 & C4).
  pose proof (wing_right _ _ _ _ (moveRights_blackQueenside (castlingRights s) m))
    as (D1 & D2 & D3 & D4).
  repeat split; auto using kingOf_true, touches_true.
Qed.

Lemma castling_rights_monotone_and_revoked_witness :
  applyMove afterE2E4_E7E5 kingStep = Ok afterKingStep /\
  castlingRights afterE2E4_E7E5 = initialRights /\
  whiteKingside (castlingRights afterKingStep) = false /\
  whiteQueenside (castlingRights afterKingStep) = false /\
  blackKingside (castlingRights afterKingStep) = true.
Proof.
  assert (H : applyMove afterE2E4_E7E5 kingStep = Ok afterKingStep)
    by reflexivity.
  pose proof (castling_rights_monotone_and_revoked _ _ _ H) as (_ & (K & _) & _ & R).
  split; [exact H |].
  split; [reflexivity |].
  destruct (K eq_refl eq_refl) as [K1 K2].
  split; [exact K1 |]. split; [exact K2 |].
  destruct R as (_ & _ & R & _). apply R; reflexivity.
Defined.

(** *** The en-passant target *)

Lemma PieceType_eqb_eq (a b : PieceType) : PieceType_eqb a b = true <-> a = b.
Proof. destruct a, b; simpl; split; intros H; congruence. Qed.

Lemma moveEnPassantTarget_spec (fp tp : Position) (m : Move) :
  (twoRowPawnMove m fp tp /\
   moveEnPassantTarget fp tp m
   = Some (positionToSquare {| row := (row fp + row tp) / 2; col := col fp |}))
  \/ (~ twoRowPawnMove m fp tp /\ moveEnPassantTarget fp tp m = None).
Proof.
  unfold moveEnPassantTarget, twoRowPawnMove.
  destruct (PieceType_eqb (type (piece m)) pawn) eqn:Ep; simpl.
  - apply PieceType_eqb_eq in Ep.
    destruct (Z.eqb_spec (Z.abs (row fp - row tp)) 2) as [E | E].
    + left; auto.
    + right; split; [intros [_ H]; contradiction | reflexivity].
  - right; split; [| reflexivity].
    intros [H _]. apply PieceType_eqb_eq in H. congruence.
Qed.

(** The row halfway between two rows that are two apart lies strictly
    between them. *)
Lemma mid_row_between (a b : Z) :
  Z.abs (a - b) = 2 ->
  (a < (a + b) / 2 < b \/ b < (a + b) / 2 < a) /\ 2 * ((a + b) / 2) = a + b.
Proof.
  intros H.
  assert (E : b = a + 2 \/ b = a - 2) by lia.
  destruct E as [-> | ->].
  - replace (a + (a + 2)) with ((a + 1) * 2) by lia.
    rewrite Z.div_mul by lia. lia.
  - replace (a + (a - 2)) with ((a - 1) * 2) by lia.
    rewrite Z.div_mul by lia. lia.
Qed.

(** C3. The en-passant target of the state returned by [applyMove] is set
    if and only if the move is a pawn move whose from- and to-rows are
    exactly two apart; it is then the square in the from-column on the row
    strictly between them (the skipped-over square); for any other move it
    is null, whatever the previous state's target was. *)
Theorem applyMove_enPassantTarget (s : GameState) (m : Move) (s' : GameState) :
  applyMove s m = Ok s' ->
  exists fromPos toPos,
    squareToPosition (from m) = Some fromPos /\
    squareToPosition (to m) = Some toPos /\
    (enPassantTarget s' <> None <-> twoRowPawnMove m fromPos toPos) /\
    (twoRowPawnMove m fromPos toPos ->
     exists mid,
       (row fromPos < mid < row toPos \/ row toPos < mid < row fromPos) /\
       enPassantTarget s'
       = Some (positionToSquare {| row := mid; col := col fromPos |})) /\
    (~ twoRowPawnMove m fromPos toPos -> enPassantTarget s' = None).
Proof.
  intros H; apply applyMove_Ok in H.
  destruct H as (nb & fp & tp & _ & Hf & Ht & _ & _ & _ & _ & Hep & _).
  exists fp, tp. split; [exact Hf |]. split; [exact Ht |].
  rewrite Hep.
  destruct (moveEnPassantTarget_spec fp tp m) as [[T E] | [T E]]; rewrite E.
  - split; [split; [intros _; exact T | intros _; discriminate] |].
    split; [| intros N; contradiction].
    intros _. exists ((row fp + row tp) / 2). split; [| reflexivity].
    destruct T as [_ T]. apply (mid_row_between _ _ T).
  - split; [split; [intros N; congruence | intros N; contradiction] |].
    split; [intros N; contradiction | reflexivity].
Qed.

Lemma applyMove_enPassantTarget_witness :
  applyMove createInitialGameState e2e4 = Ok afterE2E4 /\
  enPassantTarget afterE2E4 = Some "e3" /\
  enPassantTarget afterE2E4_E7E5 = Some "e6" /\
  enPassantTarget afterKingStep = None /\
  exists fromPos toPos,
    squareToPosition (from e2e4) = Some fromPos /\
    squareToPosition (to e2e4) = Some toPos /\
    (enPassantTarget afterE2E4 <> None <-> twoRowPawnMove e2e4 fromPos toPos) /\
    (twoRowPawnMove e2e4 fromPos toPos ->
     exists mid,
       (row fromPos < mid < row toPos \/ row toPos < mid < row fromPos) /\
       enPassantTarget afterE2E4
       = Some (positionToSquare {| row := mid; col := col fromPos |})) /\
    (~ twoRowPawnMove e2e4 fromPos toPos -> enPassantTarget afterE2E4 = None).
Proof.
  split; [reflexivity |]. split; [reflexivity |]. split; [reflexivity |].
  split; [reflexivity |].
  exact (applyMove_enPassantTarget createInitialGameState e2e4 afterE2E4
           applyMove_e2e4).
Defined.

(** ** The initial position *)

Lemma createInitialBoardM_Ok : createInitialBoardM = Ok createInitialBoard.
Proof. reflexivity. Qed.

(** C4. From the initial state [getAllValidMoves] for white returns exactly
    20 moves: 8 single pawn advances, 8 double pawn advances and 4 knight
    moves. *)
Theorem initial_position_has_20_white_moves :
  exists moves,
    getAllValidMoves createInitialGameState white = Ok moves /\
    List.length moves = 20%nat /\
    count (isPawnAdvance 1) moves = 8%nat /\
    count (isPawnAdvance 2) moves = 8%nat /\
    count isKnightMove moves = 4%nat.
Proof.
  eexists. split; [vm_compute; reflexivity |].
  repeat split; reflexivity.
Qed.

(** ** The check every legal move went through *)

(** An invariant of the accumulator survives a loop that does not throw. *)
Lemma foldM_inv {A B : Type} (P : B -> Prop) (f : B -> A -> outcome B)
    (l : list A) :
  (forall acc x acc', P acc -> f acc x = Ok acc' -> P acc') ->
  forall b r, P b -> foldM f l b = Ok r -> P r.
Proof.
  intros Hstep. induction l as [| x t IH]; simpl; intros b r Hb H.
  - injection H as <-. exact Hb.
  - apply bind_Ok in H as (b' & Hx & Ht).
    eapply IH; [eapply Hstep; eassumption | exact Ht].
Qed.

(** Loops with pointwise equal bodies are equal. *)
Lemma foldM_ext {A B : Type} (f f' : B -> A -> outcome B) (l : list A) :
  (forall acc x, f acc x = f' acc x) ->
  forall b, foldM f l b = foldM f' l b.
Proof.
  intros H. induction l as [| x t IH]; intros b; simpl; [reflexivity |].
  rewrite H. destruct (f' b x); simpl; auto.
Qed.

(** The loop invariant of [getAllValidMoves]: every move kept so far went
    through the check (applied, king found, king not attacked). *)
Lemma getAllValidMoves_checked
    (state : GameState) (clr : PieceColor) (moves : list Move) :
  getAllValidMoves state clr = Ok moves ->
  Forall (kingSafeAfter state clr) moves.
Proof.
  unfold getAllValidMoves.
  apply foldM_inv; [| constructor].
  intros acc r acc' Hacc. apply foldM_inv; [| exact Hacc].
  clear acc acc' Hacc. intros acc c acc' Hacc Hc.
  apply bind_Ok in Hc as (x & _ & Hc).
  destruct x as [pc |]; [| injection Hc as <-; exact Hacc].
  destruct (PieceColor_eqb (color pc) clr); [| injection Hc as <-; exact Hacc].
  apply bind_Ok in Hc as (pieceMoves & _ & Hc).
  revert Hc. apply foldM_inv; [| exact Hacc].
  clear acc acc' Hacc. intros acc mv acc' Hacc Hmv.
  apply bind_Ok in Hmv as (tempState & Happ & Hmv).
  apply bind_Ok in Hmv as (kingSquare & Hking & Hmv).
  destruct kingSquare as [k |]; [| injection Hmv as <-; exact Hacc].
  apply bind_Ok in Hmv as (att & Hatt & Hmv).
  destruct att; simpl in Hmv; injection Hmv as <-; [exact Hacc |].
  apply Forall_app; split; [exact Hacc |].
  constructor; [| constructor].
  exists tempState, k. auto.
Qed.

(** *** Legal is pseudo-legal and safe *)

Lemma foldM_appending {A B : Type} (f : list B -> A -> outcome (list B))
    (g : A -> outcome (list B)) (l : list A) :
  appending f g ->
  forall acc, foldM f l acc = (ys <- foldM f l [] ;; Ok (acc ++ ys)).
Proof.
  intros Hf. induction l as [| x t IH]; intros acc; simpl.
  - rewrite app_nil_r. reflexivity.
  - rewrite !Hf. destruct (g x) as [ys | |]; simpl; try reflexivity.
    rewrite (IH (acc ++ ys)), (IH ys).
    destruct (foldM f t []) as [zs | |]; simpl; try reflexivity.
    rewrite app_assoc. reflexivity.
Qed.

Lemma foldM_appending_In {A B : Type} (f : list B -> A -> outcome (list B))
    (g : A -> outcome (list B)) (l : list A) (r : list B) (m : B) :
  appending f g ->
  foldM f l [] = Ok r ->
  (In m r <-> exists x ys, In x l /\ g x = Ok ys /\ In m ys).
Proof.
  intros Hf. revert r. induction l as [| x t IH]; simpl; intros r H.
  - injection H as <-. split; [intros [] | intros (x & ys & [] & _)].
  - rewrite Hf in H. destruct (g x) as [ys | |] eqn:Eg; simpl in H; try discriminate.
    rewrite (foldM_appending f g t Hf ys) in H.
    destruct (foldM f t []) as [zs | |] eqn:Et; simpl in H; try discriminate.
    injection H as <-. rewrite in_app_iff, (IH zs eq_refl). split.
    + intros [Hm | (y & ws & Hy & Hg & Hm)].
      * exists x, ys. auto.
      * exists y, ws. auto.
    + intros (y & ws & [<- | Hy] & Hg & Hm).
      * left. congruence.
      * right. exists y, ws. auto.
Qed.

Lemma PieceColor_eqb_eq (a b : PieceColor) : PieceColor_eqb a b = true <-> a = b.
Proof. destruct a, b; simpl; split; intros H; congruence. Qed.

Lemma keepIfSafe_In (state : GameState) (clr : PieceColor) (move m : Move)
    (ys : list Move) :
  keepIfSafe state clr move = Ok ys ->
  (In m ys <-> m = move /\ kingSafeAfter state clr move).
Proof.
  unfold keepIfSafe, kingSafeAfter. intros H.
  apply bind_Ok in H as (t & Ht & H). rewrite Ht.
  apply bind_Ok in H as (ks & Hk & H).
  destruct ks as [k |].
  - apply bind_Ok in H as (att & Ha & H). injection H as <-.
    destruct att; simpl.
    + split; [intros [] |]. intros (_ & s' & k' & E & Hk' & Ha').
      injection E as <-. congruence.
    + split.
      * intros [<- | []]. split; [reflexivity |]. exists t, k. auto.
      * intros [-> _]. left; reflexivity.
  - injection H as <-. simpl. split; [intros [] |].
    intros (_ & s' & k' & E & Hk' & _). injection E as <-. congruence.
Qed.

Lemma getAllValidMoves_as_legalFrom (state : GameState) (clr : PieceColor) :
  getAllValidMoves state clr
  = foldM (fun allMoves r =>
             foldM (fun allMoves c =>
                      ys <- legalFrom state clr r c ;; Ok (allMoves ++ ys))
                   idx8 allMoves)
          idx8 [].
Proof.
  unfold getAllValidMoves.
  apply foldM_ext; intros acc r. apply foldM_ext; intros acc' c.
  unfold legalFrom.
  destruct (cell (board state) r c) as [[pc |] | |]; simpl;
    rewrite ?app_nil_r; try reflexivity.
  destruct (PieceColor_eqb (color pc) clr); simpl;
    rewrite ?app_nil_r; try reflexivity.
  destruct (getPieceMoves (board state) _ pc _ _ false) as [pms | |]; simpl;
    try reflexivity.
  assert (Hstep : appending
            (fun allMoves move =>
               tempState <- applyMove state move ;;
               kingSquare <- findKing (board tempState) clr ;;
               match kingSquare with
               | Some k =>
                   att <- isSquareAttacked (board tempState) k (opponent clr) ;;
                   if negb att then Ok (allMoves ++ [move]) else Ok allMoves
               | None => Ok allMoves
               end)
            (keepIfSafe state clr)).
  { intros a mv. unfold keepIfSafe.
    destruct (applyMove state mv) as [t | |]; simpl; try reflexivity.
    destruct (findKing (board t) clr) as [[k |] | |]; simpl;
      rewrite ?app_nil_r; try reflexivity.
    destruct (isSquareAttacked (board t) k (opponent clr)) as [[|] | |]; simpl;
      rewrite ?app_nil_r; reflexivity. }
  rewrite (foldM_appending _ _ pms Hstep acc').
  f_equal.
  apply foldM_ext. intros a mv. apply Hstep.
Qed.

Lemma appending_self {A B : Type} (g : A -> outcome (list B)) :
  appending (fun acc x => ys <- g x ;; Ok (acc ++ ys)) g.
Proof. intros acc x. reflexivity. Qed.

Lemma foldM_appending_each {A B : Type} (f : list B -> A -> outcome (list B))
    (g : A -> outcome (list B)) (l : list A) :
  appending f g ->
  forall acc r, foldM f l acc = Ok r ->
  forall x, In x l -> exists ys, g x = Ok ys.
Proof.
  intros Hf. induction l as [| y t IH]; intros acc r H x Hin; [destruct Hin |].
  simpl in H. apply bind_Ok in H as (b' & Hy & Ht).
  destruct Hin as [<- | Hin].
  - rewrite Hf in Hy. apply bind_Ok in Hy as (ys & Hys & _). eauto.
  - eapply IH; eassumption.
Qed.

(** A move is returned by [getAllValidMoves] exactly when it is a
    pseudo-legal move of one of the colour's pieces and passes the check. *)
Lemma getAllValidMoves_iff (state : GameState) (clr : PieceColor)
    (moves : list Move) (m : Move) :
  getAllValidMoves state clr = Ok moves ->
  (In m moves <->
   exists r c pc pieceMoves,
     In r idx8 /\ In c idx8 /\
     cell (board state) r c = Ok (Some pc) /\ color pc = clr /\
     getPieceMoves (board state) (positionToSquare {| row := r; col := c |}) pc
       (castlingRights state) (enPassantTarget state) false = Ok pieceMoves /\
     In m pieceMoves /\
     kingSafeAfter state clr m).
Proof.
  rewrite getAllValidMoves_as_legalFrom. intros H.
  set (rowStep := fun (allMoves : list Move) (r : Z) =>
         foldM (fun allMoves c =>
                  ys <- legalFrom state clr r c ;; Ok (allMoves ++ ys))
               idx8 allMoves) in H.
  set (rowMoves := fun r : Z =>
         foldM (fun allMoves c =>
                  ys <- legalFrom state clr r c ;; Ok (allMoves ++ ys))
               idx8 []).
  assert (Hrow : appending rowStep rowMoves).
  { intros acc r. unfold rowStep, rowMoves.
    apply (foldM_appending _ (legalFrom state clr r)). apply appending_self. }
  rewrite (foldM_appending_In rowStep rowMoves idx8 moves m Hrow H).
  split.
  - intros (r & ys & Hr & Hys & Hm).
    unfold rowMoves in Hys.
    rewrite (foldM_appending_In _ (legalFrom state clr r) idx8 ys m
               (appending_self _) Hys) in Hm.
    destruct Hm as (c & zs & Hc & Hzs & Hm).
    unfold legalFrom in Hzs.
    apply bind_Ok in Hzs as (x & Hx & Hzs).
    destruct x as [pc |]; [| injection Hzs as <-; destruct Hm].
    destruct (PieceColor_eqb (color pc) clr) eqn:Ecol;
      [| injection Hzs as <-; destruct Hm].
    apply bind_Ok in Hzs as (pms & Hpms & Hzs).
    rewrite (foldM_appending_In _ (keepIfSafe state clr) pms zs m
               (appending_self _) Hzs) in Hm.
    destruct Hm as (mv & ws & Hmv & Hws & Hm).
    apply (keepIfSafe_In state clr mv m ws Hws) in Hm as [-> Hsafe].
    exists r, c, pc, pms. apply PieceColor_eqb_eq in Ecol. auto 10.
  - intros (r & c & pc & pms & Hr & Hc & Hx & Ecol & Hpms & Hm & Hsafe).
    destruct (foldM_appending_each rowStep rowMoves idx8 Hrow [] moves H r Hr)
      as [ys Hys].
    exists r, ys. split; [exact Hr |]. split; [exact Hys |].
    unfold rowMoves in Hys.
    rewrite (foldM_appending_In _ (legalFrom state clr r) idx8 ys m
               (appending_self _) Hys).
    destruct (foldM_appending_each _ (legalFrom state clr r) idx8
                (appending_self _) [] ys Hys c Hc) as [zs Hzs].
    exists c, zs. split; [exact Hc |]. split; [exact Hzs |].
    unfold legalFrom in Hzs. rewrite Hx in Hzs; cbn [bind] in Hzs.
    apply PieceColor_eqb_eq in Ecol. rewrite Ecol in Hzs.
    rewrite Hpms in Hzs; cbn [bind] in Hzs.
    rewrite (foldM_appending_In _ (keepIfSafe state clr) pms zs m
               (appending_self _) Hzs).
    destruct (foldM_appending_each _ (keepIfSafe state clr) pms
                (appending_self _) [] zs Hzs m Hm) as [ws Hws].
    exists m, ws. split; [exact Hm |]. split; [exact Hws |].
    apply (keepIfSafe_In state clr m m ws Hws). auto.
Qed.

(** The filter really rejects: the pinned knight has six pseudo-legal moves
    and none of them is returned; the four legal moves are the king's. *)
Lemma pinned_knight_has_no_legal_move :
  (exists pseudo,
     getPieceMoves pinnedKnightBoard "e2" (mkPiece knight white)
                   noRights None false = Ok pseudo /\
     List.length pseudo = 6%nat) /\
  exists moves,
    getAllValidMoves pinnedKnightState white = Ok moves /\
    forallb (fun m => negb (isKnightMove m)) moves = true /\
    List.length moves = 4%nat.
Proof.
  split; eexists; (split; [vm_compute; reflexivity |]); repeat split; reflexivity.
Qed.

(** ** Pawn coverage in [isSquareAttacked] *)

(** C10. [isSquareAttacked] takes the destinations of generated moves for
    attacked squares, and for pawns the two differ both ways: there is a
    board on which the empty square straight ahead of a pawn (where it can
    only push) is reported as attacked by the pawn's colour, and a board on
    which an empty square diagonally ahead of a pawn is reported as not
    attacked. *)
Theorem pawn_coverage_is_push_not_capture :
  (exists b r c,
     cell b r c = Ok (Some (mkPiece pawn black)) /\
     cell b (r + 1) c = Ok None /\
     isSquareAttacked b (positionToSquare {| row := r + 1; col := c |}) black
     = Ok true) /\
  (exists b r c,
     cell b r c = Ok (Some (mkPiece pawn black)) /\
     cell b (r + 1) (c - 1) = Ok None /\
     isSquareAttacked b (positionToSquare {| row := r + 1; col := c - 1 |}) black
     = Ok false).
Proof.
  split; exists lonePawnBoard, 1, 4; repeat split; reflexivity.
Qed.

(** On that board, e6 and d6 by name; and d6 is attacked as soon as a white
    piece stands on it. *)
Lemma lone_pawn_squares :
  isSquareAttacked lonePawnBoard "e6" black = Ok true /\
  isSquareAttacked lonePawnBoard "d6" black = Ok false /\
  (b <- placePiece lonePawnBoard "d6" (mkPiece knight white) ;;
   isSquareAttacked b "d6" black) = Ok true.
Proof. repeat split; reflexivity. Qed.

(** ** [checkGameStatus] *)

(** The two ways [checkGameStatus] returns. *)
Lemma checkGameStatus_Ok (s s' : GameState) :
  checkGameStatus s = Ok s' ->
  (findKing (board s) (currentPlayer s) = Ok None /\
   isCheckmate s' = true /\ isGameOver s' = true /\
   isStalemate s' = isStalemate s /\ isCheck s' = isCheck s)
  \/
  (exists k inCheck moves,
     findKing (board s) (currentPlayer s) = Ok (Some k) /\
     isSquareAttacked (board s) k (opponent (currentPlayer s)) = Ok inCheck /\
     getAllValidMoves s (currentPlayer s) = Ok moves /\
     isCheck s' = inCheck /\
     isCheckmate s' = inCheck && Nat.eqb (List.length moves) 0 /\
     isStalemate s' = negb inCheck && Nat.eqb (List.length moves) 0 /\
     isGameOver s' = isCheckmate s' || isStalemate s').
Proof.
  unfold checkGameStatus; intros H.
  apply bind_Ok in H as (ks & Hk & H).
  destruct ks as [k |].
  - right. apply bind_Ok in H as (inCheck & Hc & H).
    apply bind_Ok in H as (moves & Hm & H).
    injection H as <-. exists k, inCheck, moves; simpl.
    rewrite !negb_involutive. auto 10.
  - left. injection H as <-; simpl. auto.
Qed.

(** The second half of the invariant holds on every path. *)
Lemma checkGameStatus_gameOver (s s' : GameState) :
  checkGameStatus s = Ok s' ->
  isGameOver s' = isCheckmate s' || isStalemate s'.
Proof.
  intros H. apply checkGameStatus_Ok in H as [(_ & Hc & Hg & _) | H].
  - rewrite Hc, Hg. reflexivity.
  - destruct H as (k & c & ms & _ & _ & _ & _ & _ & _ & H). exact H.
Qed.

(** The first half holds where the king is found, and also on the kingless
    path when the state handed in was not flagged as stalemate. *)
Lemma checkGameStatus_exclusive (s s' : GameState) :
  checkGameStatus s = Ok s' ->
  (exists k, findKing (board s) (currentPlayer s) = Ok (Some k))
  \/ isStalemate s = false ->
  isCheckmate s' && isStalemate s' = false.
Proof.
  intros H Hpre.
  apply checkGameStatus_Ok in H as [(Hk & _ & _ & Hs & _) | H].
  - destruct Hpre as [[k Hk'] | Hst]; [congruence |].
    rewrite Hs, Hst. apply andb_false_r.
  - destruct H as (k & c & ms & _ & _ & _ & _ & -> & -> & _).
    destruct c; simpl; [apply andb_false_r | reflexivity].
Qed.

(** Outside what its callers pass.  On a state whose side to move has no
    king, [checkGameStatus] returns through its fallback, which sets
    isCheckmate and isGameOver and leaves isStalemate as it found it: were
    it handed a state flagged as stalemate, it would return one with
    isCheckmate and isStalemate both true.  It is not: see
    [received_not_stalemate] below. *)
Lemma checkGameStatus_kingless_keeps_stalemate :
  exists s',
    checkGameStatus kinglessStaleState = Ok s' /\
    isCheckmate s' = true /\ isStalemate s' = true /\ isGameOver s' = true.
Proof. eexists; split; [vm_compute; reflexivity |]; repeat split. Qed.

(** Through [makeMove] the fallback never meets such a state: it only
    classifies what [applyMove] made of a state that was not over, whose
    stalemate flag is therefore false; so the flags of a played game are
    consistent. *)
Lemma makeMove_flagsConsistent (s : GameState) (m : Move) (s' : GameState) :
  flagsConsistent s -> makeMove s m = Ok s' -> flagsConsistent s'.
Proof.
  intros [Hor Hex]. unfold makeMove.
  destruct (isGameOver s) eqn:Hg.
  - intros H; injection H as <-. split; [rewrite Hg; exact Hor | exact Hex].
  - intros H. apply bind_Ok in H as (t & Happ & H).
    apply applyMove_Ok in Happ.
    destruct Happ as (nb & fp & tp & _ & _ & _ & _ & _ & _ & _ & _ & _ & _ & Hst & _).
    assert (Hs : isStalemate t = false).
    { rewrite Hst. symmetry in Hor. apply orb_false_iff in Hor. apply Hor. }
    split.
    + exact (checkGameStatus_gameOver t s' H).
    + apply (checkGameStatus_exclusive t s' H). right; exact Hs.
Qed.

Lemma played_game_flagsConsistent (ms : list Move) (s' : GameState) :
  foldM makeMove ms createInitialGameState = Ok s' -> flagsConsistent s'.
Proof.
  apply (foldM_inv flagsConsistent).
  - intros s m t Hs Ht. eapply makeMove_flagsConsistent; eassumption.
  - split; reflexivity.
Qed.

Lemma replay_keeps_flags (history : list Move) (t : GameState) :
  foldM applyMove history createInitialGameState = Ok t ->
  isStalemate t = false.
Proof.
  apply (foldM_inv (fun s => isStalemate s = false)); [| reflexivity].
  intros s m s' Hs H. apply applyMove_Ok in H.
  destruct H as (nb & fp & tp & _ & _ & _ & _ & _ & _ & _ & _ & _ & _ & Hst & _).
  rewrite Hst. exact Hs.
Qed.

Lemma received_not_stalemate (t : GameState) :
  received t -> isStalemate t = false.
Proof.
  intros [(gs & m & [ms Hplayed] & Hover & Happ) | [history Hreplay]].
  - destruct (played_game_flagsConsistent ms gs Hplayed) as [Hor _].
    rewrite Hover in Hor. symmetry in Hor. apply orb_false_iff in Hor as [_ Hst].
    apply applyMove_Ok in Happ.
    destruct Happ
      as (nb & fp & tp & _ & _ & _ & _ & _ & _ & _ & _ & _ & _ & Hst' & _).
    rewrite Hst'. exact Hst.
  - exact (replay_keeps_flags history t Hreplay).
Qed.



(** ** Search *)

Section SearchProperties.

Variable rng : Type.
Variable Math_random : rng -> Q * rng.

(** C5, for states that carry neither the checkmate nor the stalemate flag.
    On such a state [minimax] at depth 0 returns what [evaluatePosition]
    returns on it from the same randomness source (the same score, random
    term included, and the same next source), for every window and either
    maximizing flag. *)
Theorem minimax_depth0_is_evaluation
    (fuel : nat) (g : rng) (s : GameState) (isMaximizing : bool)
    (alpha beta : num) :
  isCheckmate s = false ->
  isStalemate s = false ->
  minimax rng Math_random (S fuel) g s 0 isMaximizing alpha beta
  = evaluatePosition rng Math_random g s.
Proof. intros Hc Hs; simpl; rewrite Hc, Hs; reflexivity. Qed.

(** With either flag set the evaluation is not consulted. *)
Lemma minimax_depth0_flagged
    (fuel : nat) (g : rng) (s : GameState) (isMaximizing : bool)
    (alpha beta : num) :
  (isCheckmate s = true ->
   minimax rng Math_random (S fuel) g s 0 isMaximizing alpha beta
   = Ok (if isMaximizing then NegInf else PosInf, g)) /\
  (isCheckmate s = false -> isStalemate s = true ->
   minimax rng Math_random (S fuel) g s 0 isMaximizing alpha beta
   = Ok (Fin 0, g)).
Proof.
  split; [intros Hc | intros Hc Hs]; simpl; rewrite Hc; [| rewrite Hs];
    reflexivity.
Qed.

End SearchProperties.

Lemma minimax_depth0_is_evaluation_witness :
  minimax unit constHalf 1 tt createInitialGameState 0 true NegInf PosInf
  = evaluatePosition unit constHalf tt createInitialGameState
  /\ exists q, evaluatePosition unit constHalf tt createInitialGameState
               = Ok (Fin q, tt) /\ (q == 0)%Q.
Proof.
  split.
  - exact (minimax_depth0_is_evaluation unit constHalf 0 tt
             createInitialGameState true NegInf PosInf eq_refl eq_refl).
  - eexists. split; [vm_compute; reflexivity | reflexivity].
Defined.

(** Fool's mate ends in a state flagged as checkmate, with white to move
    and without a legal move. *)
Lemma foolsMate_status :
  currentPlayer foolsMate = white /\
  isCheck foolsMate = true /\ isCheckmate foolsMate = true /\
  isStalemate foolsMate = false /\ isGameOver foolsMate = true /\
  getAllValidMoves foolsMate white = Ok [].
Proof. repeat split; vm_compute; reflexivity. Qed.

(** C5 does not hold of every state: after fool's mate the state carries the
    checkmate flag, and at depth 0 [minimax] returns minus infinity for the
    maximizing side while [evaluatePosition] returns a finite score. *)
Lemma minimax_depth0_flagged_mate_differs :
  isCheckmate foolsMate = true /\
  minimax unit constHalf 1 tt foolsMate 0 true NegInf PosInf
  = Ok (NegInf, tt) /\
  (exists q, evaluatePosition unit constHalf tt foolsMate = Ok (Fin q, tt)) /\
  minimax unit constHalf 1 tt foolsMate 0 true NegInf PosInf
  <> evaluatePosition unit constHalf tt foolsMate.
Proof.
  split; [vm_compute; reflexivity |].
  split; [vm_compute; reflexivity |]. split.
  - eexists. vm_compute. reflexivity.
  - vm_compute. discriminate.
Qed.

(** ** The engine does not throw on eight-row boards *)

Lemma idx8_range (x : Z) : In x idx8 -> 0 <= x < 8.
Proof. unfold idx8; simpl; intros H; lia. Qed.

Lemma inRange8_spec (x : Z) : inRange8 x = true <-> 0 <= x < 8.
Proof. unfold inRange8; lia. Qed.

Lemma index_Some {A : Type} (l : list A) (i : Z) :
  0 <= i < Z.of_nat (List.length l) -> exists x, index l i = Some x.
Proof.
  intros H. unfold index.
  destruct (Z.ltb_spec i 0); [lia |].
  destruct (nth_error l (Z.to_nat i)) eqn:E; [eauto |].
  apply nth_error_None in E. lia.
Qed.

Lemma index_range {A : Type} (l : list A) (i : Z) (x : A) :
  index l i = Some x -> 0 <= i < Z.of_nat (List.length l).
Proof.
  unfold index. destruct (Z.ltb_spec i 0); [discriminate |].
  intros E.
  assert (Hn : nth_error l (Z.to_nat i) <> None) by congruence.
  apply nth_error_Some in Hn. lia.
Qed.

Lemma cell_total (b : Board) (r c : Z) :
  rows8 b -> 0 <= r < 8 -> exists x, cell b r c = Ok x.
Proof.
  intros Hb Hr. unfold cell.
  destruct (index_Some b r) as [rw ->]; [rewrite Hb; lia | eauto].
Qed.

Lemma cell_row (b : Board) (r c : Z) (x : option ChessPiece) :
  cell b r c = Ok x -> 0 <= r < Z.of_nat (List.length b).
Proof.
  unfold cell. destruct (index b r) eqn:E; [| discriminate].
  intros _. eapply index_range; eassumption.
Qed.

Lemma cellOpt_row (b : Board) (r c : Z) (pc : ChessPiece) :
  cellOpt b r c = Some pc -> 0 <= r < Z.of_nat (List.length b).
Proof.
  unfold cellOpt. destruct (index b r) eqn:E; [| discriminate].
  intros _. eapply index_range; eassumption.
Qed.

Lemma setCell_length (b : Board) (r c : Z) (v : option ChessPiece) (nb : Board) :
  setCell b r c v = Ok nb ->
  List.length nb = List.length b /\ 0 <= r < Z.of_nat (List.length b).
Proof.
  unfold setCell. destruct (index b r) eqn:E; [| discriminate].
  intros H; injection H as <-.
  pose proof (index_range _ _ _ E) as Hr. split; [| exact Hr].
  rewrite length_app, length_firstn. cbn [List.length].
  change (match b with [] => [] | _ :: t => skipn (Z.to_nat r) t end)
    with (skipn (S (Z.to_nat r)) b).
  rewrite length_skipn. lia.
Qed.

Lemma setCell_total (b : Board) (r c : Z) (v : option ChessPiece) :
  rows8 b -> 0 <= r < 8 -> exists nb, setCell b r c v = Ok nb /\ rows8 nb.
Proof.
  intros Hb Hr.
  destruct (index_Some b r) as [rw E]; [rewrite Hb; lia |].
  assert (H : setCell b r c v
              = Ok (firstn (Z.to_nat r) b ++ assign rw c v
                      :: skipn (S (Z.to_nat r)) b))
    by (unfold setCell; rewrite E; reflexivity).
  eexists; split; [exact H |].
  apply setCell_length in H as [H _]. unfold rows8 in *. congruence.
Qed.

Lemma foldM_total {A B : Type} (P : B -> Prop) (f : B -> A -> outcome B)
    (l : list A) :
  (forall acc x, In x l -> P acc -> exists acc', f acc x = Ok acc' /\ P acc') ->
  forall b, P b -> exists r, foldM f l b = Ok r /\ P r.
Proof.
  induction l as [| x t IH]; simpl; intros Hstep b Hb.
  - eauto.
  - destruct (Hstep b x (or_introl eq_refl) Hb) as (b' & -> & Hb'); simpl.
    apply IH; [intros acc y Hy; apply Hstep; right; exact Hy | exact Hb'].
Qed.

Lemma anyM_total {A : Type} (f : A -> outcome bool) (l : list A) :
  (forall x, In x l -> exists v, f x = Ok v) -> exists v, anyM f l = Ok v.
Proof.
  induction l as [| x t IH]; simpl; intros H; [eauto |].
  destruct (H x (or_introl eq_refl)) as [v ->]; simpl.
  destruct v; [eauto |]. apply IH; intros y Hy; apply H; right; exact Hy.
Qed.

Lemma firstM_total {A B : Type} (f : A -> outcome (option B)) (l : list A) :
  (forall x, In x l -> exists v, f x = Ok v) -> exists v, firstM f l = Ok v.
Proof.
  induction l as [| x t IH]; simpl; intros H; [eauto |].
  destruct (H x (or_introl eq_refl)) as [v ->]; simpl.
  destruct v; [eauto |]. apply IH; intros y Hy; apply H; right; exact Hy.
Qed.

Lemma squareToPosition_positionToSquare (r c : Z) :
  0 <= r < 8 -> 0 <= c < 8 ->
  squareToPosition (positionToSquare {| row := r; col := c |})
  = Some {| row := r; col := c |}.
Proof.
  intros Hr Hc.
  apply (position_roundtrip {| row := r; col := c |}). split; assumption.
Qed.

Lemma positionToSquare_valid (r c : Z) :
  0 <= r < 8 -> 0 <= c < 8 ->
  In (positionToSquare {| row := r; col := c |}) validSquares.
Proof.
  intros Hr Hc.
  apply (position_roundtrip {| row := r; col := c |}). split; assumption.
Qed.

(** Whatever the column, a row of the board survives printing and parsing. *)
Lemma positionToSquare_row (r c : Z) (p : Position) :
  0 <= r < 8 ->
  squareToPosition (positionToSquare {| row := r; col := c |}) = Some p ->
  row p = r.
Proof.
  intros Hr.
  assert (Er : r = 0 \/ r = 1 \/ r = 2 \/ r = 3 \/ r = 4 \/ r = 5 \/ r = 6 \/ r = 7)
    by lia.
  unfold positionToSquare, squareToPosition; cbn [row col charCodeAt0].
  repeat (destruct Er as [-> | Er]); [| | | | | | | subst r];
    cbn; intros H; injection H as <-; reflexivity.
Qed.

Lemma pieceAt_positionToSquare (b : Board) (r c : Z) (pc : ChessPiece) :
  0 <= r < 8 -> 0 <= c < 8 ->
  cell b r c = Ok (Some pc) ->
  pieceAt b (positionToSquare {| row := r; col := c |})
  = Ok ({| row := r; col := c |}, pc).
Proof.
  intros Hr Hc H. unfold pieceAt.
  rewrite squareToPosition_positionToSquare by assumption; cbn [row col].
  rewrite H. reflexivity.
Qed.

Lemma Forall_snoc {A : Type} (P : A -> Prop) (l : list A) (x : A) :
  Forall P l -> P x -> Forall P (l ++ [x]).
Proof. intros Hl Hx. apply Forall_app; split; [exact Hl | constructor; auto]. Qed.

Lemma genOk_Ok (ms : list Move) : Forall goodMove ms -> genOk (Ok ms).
Proof. intros H; exists ms; auto. Qed.

Lemma genOk_foldM {A : Type} (f : list Move -> A -> outcome (list Move))
    (l : list A) (moves : list Move) :
  (forall acc x, Forall goodMove acc -> genOk (f acc x)) ->
  Forall goodMove moves -> genOk (foldM f l moves).
Proof.
  intros Hstep Hm. apply (foldM_total (Forall goodMove)); [| exact Hm].
  intros acc x _ Hacc. apply Hstep; exact Hacc.
Qed.

Section GeneratorsTotal.

Variable b : Board.
Hypothesis Hb : rows8 b.

Lemma stepTo_good (src : Square) (pc : ChessPiece) (clr : PieceColor)
    (r c : Z) (moves : list Move) (d : Z * Z) :
  In src validSquares -> Forall goodMove moves ->
  genOk (stepTo b src pc clr r c moves d).
Proof.
  intros Hf Hm. unfold stepTo.
  destruct (inRange8 (r + fst d) && inRange8 (c + snd d)) eqn:E;
    [| apply genOk_Ok; exact Hm].
  apply andb_true_iff in E as [Er Ec].
  apply inRange8_spec in Er, Ec.
  destruct (cell_total b (r + fst d) (c + snd d) Hb Er) as [x ->]; simpl.
  destruct (negb (isSome x) || negb (hasColor clr x));
    apply genOk_Ok; [| exact Hm].
  apply Forall_snoc; [exact Hm |].
  split; simpl; [exact Hf | apply positionToSquare_valid; assumption].
Qed.

Lemma slideRay_good (src : Square) (pc : ChessPiece) (clr : PieceColor)
    (r c dr dc : Z) (steps : list Z) :
  In src validSquares ->
  forall moves, Forall goodMove moves ->
  genOk (slideRay b src pc clr r c dr dc steps moves).
Proof.
  intros Hf. induction steps as [| i rest IH]; intros moves Hm; simpl.
  - apply genOk_Ok; exact Hm.
  - destruct ((r + i * dr <? 0) || (r + i * dr >=? 8)
              || (c + i * dc <? 0) || (c + i * dc >=? 8)) eqn:E;
      [apply genOk_Ok; exact Hm |].
    assert (Hr : 0 <= r + i * dr < 8) by lia.
    assert (Hc : 0 <= c + i * dc < 8) by lia.
    destruct (cell_total b (r + i * dr) (c + i * dc) Hb Hr) as [x ->]; simpl.
    assert (Hto : goodMove (mkMove src
                    (positionToSquare {| row := r + i * dr; col := c + i * dc |})
                    pc))
      by (split; simpl; [exact Hf | apply positionToSquare_valid; assumption]).
    destruct x as [tp |].
    + destruct (negb (PieceColor_eqb (color tp) clr));
        apply genOk_Ok; [| exact Hm].
      apply Forall_snoc; [exact Hm |]. exact Hto.
    + apply IH. apply Forall_snoc; [exact Hm | exact Hto].
Qed.

Lemma pawnCapture_good (src : Square) (pc : ChessPiece) (clr : PieceColor)
    (ep : option Square) (r c : Z) (moves : list Move) (dCol : Z) :
  In src validSquares -> epOk ep -> 0 <= r < 8 ->
  Forall goodMove moves ->
  genOk (pawnCapture b src pc clr ep r c moves dCol).
Proof.
  intros Hf Hep Hr Hm. unfold pawnCapture.
  destruct (inRange8 (c + dCol)) eqn:Ec; [| apply genOk_Ok; exact Hm].
  apply inRange8_spec in Ec.
  set (direction := match clr with white => -1 | black => 1 end).
  set (to := positionToSquare {| row := r + direction; col := c + dCol |}).
  set (capture := {| from := src; to := to; piece := pc;
                     captured := cellOpt b (r + direction) (c + dCol);
                     promotion := lastRank (r + direction);
                     castling := None; enPassant := None |}).
  assert (Hm' : Forall goodMove
                  (if hasColor (opponent clr) (cellOpt b (r + direction) (c + dCol))
                   then moves ++ [capture] else moves)).
  { destruct (cellOpt b (r + direction) (c + dCol)) as [tp |] eqn:Et;
      simpl; [| exact Hm].
    destruct (PieceColor_eqb (color tp) (opponent clr)); [| exact Hm].
    apply Forall_snoc; [exact Hm |].
    apply cellOpt_row in Et. rewrite Hb in Et.
    split; simpl; [exact Hf | apply positionToSquare_valid; lia]. }
  destruct ep as [sq |]; [| apply genOk_Ok; exact Hm'].
  destruct (String.eqb sq EmptyString); [apply genOk_Ok; exact Hm' |].
  destruct (squareToPosition sq) as [p |] eqn:Ep; [| apply genOk_Ok; exact Hm'].
  destruct ((row p =? r + direction) && (col p =? c + dCol)) eqn:E;
    [| apply genOk_Ok; exact Hm'].
  destruct (cell_total b r (c + dCol) Hb Hr) as [x ->]; simpl.
  apply genOk_Ok. apply Forall_snoc; [exact Hm' |].
  pose proof (Hep p Ep) as Hrow.
  split; simpl; [exact Hf | apply positionToSquare_valid; lia].
Qed.

Variables (r c : Z) (pc : ChessPiece).
Hypothesis Hr : 0 <= r < 8.
Hypothesis Hc : 0 <= c < 8.
Hypothesis Hpc : cell b r c = Ok (Some pc).

Lemma src_valid : In (positionToSquare {| row := r; col := c |}) validSquares.
Proof. apply positionToSquare_valid; assumption. Qed.

Lemma pawnForward_good (clr : PieceColor) :
  genOk (pawnForward b (positionToSquare {| row := r; col := c |}) pc clr r c).
Proof.
  unfold pawnForward.
  set (direction := match clr with white => -1 | black => 1 end).
  set (startRow := match clr with white => 6 | black => 1 end).
  destruct (inRange8 (r + direction)) eqn:E; [| apply genOk_Ok; constructor].
  apply inRange8_spec in E.
  destruct (cell_total b (r + direction) c Hb E) as [x ->]; cbn [bind].
  destruct (isSome x); [apply genOk_Ok; constructor |].
  assert (H1 : goodMove {| from := (positionToSquare {| row := r; col := c |});
                    to := positionToSquare {| row := r + direction; col := c |};
                    piece := pc; captured := None;
                    promotion := lastRank (r + direction);
                    castling := None; enPassant := None |})
    by (split; simpl; [apply src_valid | apply positionToSquare_valid; assumption]).
  cbv zeta.
  destruct (Z.eqb_spec r startRow) as [Es | Es];
    [| apply genOk_Ok; exact (Forall_cons _ H1 (Forall_nil _))].
  assert (H2r : 0 <= r + 2 * direction < 8)
    by (subst direction startRow; destruct clr; lia).
  destruct (cell_total b (r + 2 * direction) c Hb H2r) as [y ->]; cbn [bind].
  assert (H2 : goodMove (mkMove (positionToSquare {| row := r; col := c |})
                  (positionToSquare {| row := r + 2 * direction; col := c |})
                  pc))
    by (split; simpl; [apply src_valid | apply positionToSquare_valid; assumption]).
  destruct (isSome y); apply genOk_Ok.
  - exact (Forall_cons _ H1 (Forall_nil _)).
  - exact (Forall_cons _ H1 (Forall_cons _ H2 (Forall_nil _))).
Qed.

Lemma getPawnMoves_good (clr : PieceColor) (ep : option Square) :
  epOk ep -> genOk (getPawnMoves b (positionToSquare {| row := r; col := c |}) clr ep).
Proof.
  intros Hep. unfold getPawnMoves.
  rewrite (pieceAt_positionToSquare b r c pc Hr Hc Hpc); cbn [bind row col].
  destruct (pawnForward_good clr) as (moves & -> & Hm); cbn [bind].
  apply genOk_foldM; [| exact Hm].
  intros acc x Hacc. apply pawnCapture_good; auto using src_valid.
Qed.

Lemma getSlidingMoves_good (clr : PieceColor) (directions : list (Z * Z)) :
  genOk (getSlidingMoves b (positionToSquare {| row := r; col := c |}) clr directions).
Proof.
  unfold getSlidingMoves.
  rewrite (pieceAt_positionToSquare b r c pc Hr Hc Hpc); cbn [bind row col].
  apply genOk_foldM; [| constructor].
  intros acc d Hacc. apply slideRay_good; [apply src_valid | exact Hacc].
Qed.

Lemma getKnightMoves_good (clr : PieceColor) :
  genOk (getKnightMoves b (positionToSquare {| row := r; col := c |}) clr).
Proof.
  unfold getKnightMoves.
  rewrite (pieceAt_positionToSquare b r c pc Hr Hc Hpc); cbn [bind row col].
  apply genOk_foldM; [| constructor].
  intros acc d Hacc. apply stepTo_good; [apply src_valid | exact Hacc].
Qed.

End GeneratorsTotal.

Lemma andThen_total (x : outcome bool) (k : unit -> outcome bool) :
  (exists v, x = Ok v) -> (exists v, k tt = Ok v) ->
  exists v, andThen x k = Ok v.
Proof.
  intros [v ->] Hk. unfold andThen; simpl. destruct v; [exact Hk | eauto].
Qed.

Lemma notM_total (x : outcome bool) :
  (exists v, x = Ok v) -> exists v, notM x = Ok v.
Proof. intros [v ->]. unfold notM; simpl. eauto. Qed.

Lemma isEmpty_total (b : Board) (r c : Z) :
  rows8 b -> 0 <= r < 8 -> exists v, isEmpty b r c = Ok v.
Proof.
  intros Hb Hr. unfold isEmpty.
  destruct (cell_total b r c Hb Hr) as [x ->]; simpl. eauto.
Qed.

Lemma castle_squares_valid :
  In "g1" validSquares /\ In "c1" validSquares /\
  In "g8" validSquares /\ In "c8" validSquares.
Proof. vm_compute. tauto. Qed.

Ltac castle_conditions Hb Hatt :=
  repeat first
    [ apply andThen_total
    | apply notM_total
    | apply Hatt
    | apply (isEmpty_total _ _ _ Hb); lia
    | eexists; reflexivity ].

Section KingTotal.

Variable attacked : Board -> Square -> PieceColor -> outcome bool.
Variable b : Board.
Hypothesis Hb : rows8 b.
Hypothesis Hatt : forall sq clr, exists v, attacked b sq clr = Ok v.

Variables (r c : Z) (pc : ChessPiece).
Hypothesis Hr : 0 <= r < 8.
Hypothesis Hc : 0 <= c < 8.
Hypothesis Hpc : cell b r c = Ok (Some pc).

Lemma getKingMoves_good (clr : PieceColor) (rights : CastlingRights)
    (ignoreKingCheck : bool) :
  genOk (getKingMoves attacked b (positionToSquare {| row := r; col := c |}) clr rights ignoreKingCheck).
Proof.
  pose proof (src_valid r c Hr Hc) as Hsrc. 
  destruct castle_squares_valid as (Hg1 & Hc1 & Hg8 & Hc8).
  unfold getKingMoves.
  rewrite (pieceAt_positionToSquare b r c pc Hr Hc Hpc); cbn [bind row col].
  assert (Hsteps : genOk (foldM (stepTo b (positionToSquare {| row := r; col := c |}) pc clr r c) kingDeltas [])).
  { apply genOk_foldM; [| constructor].
    intros acc d Hacc. apply stepTo_good; assumption. }
  destruct Hsteps as (moves & -> & Hm); cbn [bind].
  match goal with
  | |- genOk (bind ?x _) =>
      assert (Hgo : exists v, x = Ok v) by castle_conditions Hb Hatt
  end.
  destruct Hgo as [go ->]; cbn [bind].
  destruct go; [| apply genOk_Ok; exact Hm].
  destruct clr.
  - match goal with
    | |- genOk (bind ?x _) =>
        assert (Hk : exists v, x = Ok v) by castle_conditions Hb Hatt
    end.
    destruct Hk as [k ->]; cbn [bind]. cbv zeta.
    match goal with
    | |- genOk (bind ?x _) =>
        assert (Hq : exists v, x = Ok v) by castle_conditions Hb Hatt
    end.
    destruct Hq as [q ->]; cbn [bind].
    apply genOk_Ok.
    destruct k, q; repeat apply Forall_snoc; try exact Hm;
      split; simpl; assumption.
  - match goal with
    | |- genOk (bind ?x _) =>
        assert (Hk : exists v, x = Ok v) by castle_conditions Hb Hatt
    end.
    destruct Hk as [k ->]; cbn [bind]. cbv zeta.
    match goal with
    | |- genOk (bind ?x _) =>
        assert (Hq : exists v, x = Ok v) by castle_conditions Hb Hatt
    end.
    destruct Hq as [q ->]; cbn [bind].
    apply genOk_Ok.
    destruct k, q; repeat apply Forall_snoc; try exact Hm;
      split; simpl; assumption.
Qed.

Lemma getPieceMovesWith_good (rights : CastlingRights) (ep : option Square)
    (ignoreKingCheck : bool) :
  epOk ep ->
  genOk (getPieceMovesWith attacked b (positionToSquare {| row := r; col := c |}) pc rights ep ignoreKingCheck).
Proof.
  intros Hep. unfold getPieceMovesWith.
  destruct (type pc).
  - apply (getPawnMoves_good b Hb r c pc Hr Hc Hpc); exact Hep.
  - apply (getSlidingMoves_good b Hb r c pc Hr Hc Hpc).
  - apply (getKnightMoves_good b Hb r c pc Hr Hc Hpc).
  - apply (getSlidingMoves_good b Hb r c pc Hr Hc Hpc).
  - apply (getSlidingMoves_good b Hb r c pc Hr Hc Hpc).
  - apply getKingMoves_good.
Qed.

End KingTotal.

Lemma isSquareAttacked_total (b : Board) (square : Square) (byColor : PieceColor) :
  rows8 b -> exists v, isSquareAttacked b square byColor = Ok v.
Proof.
  intros Hb. unfold isSquareAttacked.
  apply anyM_total; intros r Hr. apply idx8_range in Hr.
  apply anyM_total; intros c Hc. apply idx8_range in Hc.
  destruct (cell_total b r c Hb Hr) as [x Hx]; rewrite Hx; cbn [bind].
  destruct x as [pc |]; [| eauto].
  destruct (PieceColor_eqb (color pc) byColor); [| eauto].
  destruct (getPieceMovesWith_good (fun _ _ _ => Ok false) b Hb
              (fun _ _ => ex_intro _ false eq_refl) r c pc Hr Hc Hx
              noRights None true I) as (ms & -> & _).
  cbn [bind]. eauto.
Qed.

Lemma getPieceMoves_good (b : Board) (r c : Z) (pc : ChessPiece)
    (rights : CastlingRights) (ep : option Square) (ignoreKingCheck : bool) :
  rows8 b -> 0 <= r < 8 -> 0 <= c < 8 -> cell b r c = Ok (Some pc) -> epOk ep ->
  genOk (getPieceMoves b (positionToSquare {| row := r; col := c |}) pc
           rights ep ignoreKingCheck).
Proof.
  intros Hb Hr Hc Hpc Hep. unfold getPieceMoves.
  apply getPieceMovesWith_good; try assumption.
  intros sq clr. apply isSquareAttacked_total; exact Hb.
Qed.

Lemma findKing_total (b : Board) (clr : PieceColor) :
  rows8 b -> exists v, findKing b clr = Ok v.
Proof.
  intros Hb. unfold findKing.
  apply firstM_total; intros r Hr. apply idx8_range in Hr.
  apply firstM_total; intros c Hc.
  destruct (cell_total b r c Hb Hr) as [x ->]; cbn [bind].
  destruct x as [pc |]; [| eauto].
  destruct (PieceType_eqb (type pc) king && PieceColor_eqb (color pc) clr); eauto.
Qed.

(** *** What the square-attacked test reports *)

(** With [ignoreKingCheck = true] the square-attacked test handed to the
    generators is not consulted. *)
Lemma getPieceMovesWith_ignore
    (att1 att2 : Board -> Square -> PieceColor -> outcome bool)
    (b : Board) (square : Square) (pc : ChessPiece) (rights : CastlingRights)
    (ep : option Square) :
  getPieceMovesWith att1 b square pc rights ep true
  = getPieceMovesWith att2 b square pc rights ep true.
Proof.
  unfold getPieceMovesWith. destruct (type pc); reflexivity.
Qed.

Lemma anyM_true_iff {A : Type} (f : A -> outcome bool) (l : list A) :
  (forall x, In x l -> exists v, f x = Ok v) ->
  (anyM f l = Ok true <-> exists x, In x l /\ f x = Ok true).
Proof.
  induction l as [| y t IH]; simpl; intros Htot.
  - split; [discriminate | intros (x & [] & _)].
  - destruct (Htot y (or_introl eq_refl)) as [v Hv]. rewrite Hv; simpl.
    destruct v.
    + split; [intros _; exists y; auto | reflexivity].
    + rewrite IH by (intros x Hx; apply Htot; right; exact Hx).
      split.
      * intros (x & Hx & Hfx). exists x. auto.
      * intros (x & [<- | Hx] & Hfx); [congruence | exists x; auto].
Qed.

(** On an eight-row board a square is reported as attacked by a colour
    exactly when it is the destination of a move generated, with
    [ignoreKingCheck = true], for one of that colour's pieces. *)
Lemma isSquareAttacked_iff (b : Board) (square : Square) (byColor : PieceColor) :
  rows8 b ->
  (isSquareAttacked b square byColor = Ok true <->
   exists r c pc moves m,
     In r idx8 /\ In c idx8 /\
     cell b r c = Ok (Some pc) /\ color pc = byColor /\
     getPieceMoves b (positionToSquare {| row := r; col := c |}) pc
       noRights None true = Ok moves /\
     In m moves /\ to m = square).
Proof.
  intros Hb.
  set (cellTest := fun r c =>
         x <- cell b r c ;;
         match x with
         | Some pc =>
             if PieceColor_eqb (color pc) byColor then
               moves <- getPieceMovesWith (fun _ _ _ => Ok false) b
                          (positionToSquare {| row := r; col := c |}) pc
                          noRights None true ;;
               Ok (existsb (fun move => String.eqb (to move) square) moves)
             else Ok false
         | None => Ok false
         end).
  assert (Hcell : forall r c, In r idx8 -> In c idx8 ->
            exists v, cellTest r c = Ok v).
  { intros r c Hr Hc. apply idx8_range in Hr, Hc. unfold cellTest.
    destruct (cell_total b r c Hb Hr) as [x Hx]; rewrite Hx; cbn [bind].
    destruct x as [pc |]; [| eauto].
    destruct (PieceColor_eqb (color pc) byColor); [| eauto].
    destruct (getPieceMovesWith_good (fun _ _ _ => Ok false) b Hb
                (fun _ _ => ex_intro _ false eq_refl) r c pc Hr Hc Hx
                noRights None true I) as (ms & -> & _).
    cbn [bind]. eauto. }
  assert (Hrow : forall r, In r idx8 -> exists v, anyM (cellTest r) idx8 = Ok v).
  { intros r Hr. apply anyM_total. intros c Hc. apply Hcell; assumption. }
  change (isSquareAttacked b square byColor)
    with (anyM (fun r => anyM (cellTest r) idx8) idx8).
  rewrite (anyM_true_iff _ idx8 Hrow).
  split.
  - intros (r & Hr & Hany).
    rewrite (anyM_true_iff _ idx8 (fun c Hc => Hcell r c Hr Hc)) in Hany.
    destruct Hany as (c & Hc & Ht). unfold cellTest in Ht.
    apply bind_Ok in Ht as (x & Hx & Ht).
    destruct x as [pc |]; [| discriminate].
    destruct (PieceColor_eqb (color pc) byColor) eqn:Ecol; [| discriminate].
    apply bind_Ok in Ht as (ms & Hms & Ht). injection Ht as Ht.
    apply existsb_exists in Ht as (m & Hm & Hto).
    apply String.eqb_eq in Hto. apply PieceColor_eqb_eq in Ecol.
    exists r, c, pc, ms, m.
    unfold getPieceMoves.
    rewrite (getPieceMovesWith_ignore isSquareAttacked (fun _ _ _ => Ok false)).
    auto 10.
  - intros (r & c & pc & ms & m & Hr & Hc & Hx & Ecol & Hms & Hm & Hto).
    exists r. split; [exact Hr |].
    rewrite (anyM_true_iff _ idx8 (fun c Hc => Hcell r c Hr Hc)).
    exists c. split; [exact Hc |]. unfold cellTest.
    rewrite Hx; cbn [bind]. apply PieceColor_eqb_eq in Ecol. rewrite Ecol.
    unfold getPieceMoves in Hms.
    rewrite (getPieceMovesWith_ignore isSquareAttacked (fun _ _ _ => Ok false))
      in Hms.
    rewrite Hms; cbn [bind]. f_equal.
    apply existsb_exists. exists m. split; [exact Hm |].
    apply String.eqb_eq. exact Hto.
Qed.

(** *** Applying moves *)

(** [moveBoard] keeps the number of rows, and when it returns both squares
    of the move name rows of the board. *)
Lemma moveBoard_Ok (b : Board) (m : Move) (nb : Board) :
  moveBoard b m = Ok nb ->
  List.length nb = List.length b /\
  exists fp tp,
    squareToPosition (from m) = Some fp /\
    squareToPosition (to m) = Some tp /\
    0 <= row fp < Z.of_nat (List.length b) /\
    0 <= row tp < Z.of_nat (List.length b).
Proof.
  unfold moveBoard.
  destruct (squareToPosition (from m)) as [fp |]; [| discriminate].
  destruct (squareToPosition (to m)) as [tp |]; [| discriminate].
  intros H.
  apply bind_Ok in H as (b1 & H1 & H).
  apply bind_Ok in H as (b2 & H2 & H).
  apply bind_Ok in H as (b3 & H3 & H).
  apply setCell_length in H1 as [L1 R1].
  apply setCell_length in H2 as [L2 R2].
  assert (L3 : List.length b3 = List.length b2).
  { destruct (truthy (enPassant m)).
    - apply setCell_length in H3 as [L3 _]. exact L3.
    - injection H3 as <-. reflexivity. }
  assert (L4 : List.length nb = List.length b3).
  { destruct (castling m) as [[|] |].
    - apply bind_Ok in H as (rk & _ & H).
      apply bind_Ok in H as (b4 & H4 & H).
      apply setCell_length in H4 as [L4 _].
      apply setCell_length in H as [L5 _]. congruence.
    - apply bind_Ok in H as (rk & _ & H).
      apply bind_Ok in H as (b4 & H4 & H).
      apply setCell_length in H4 as [L4 _].
      apply setCell_length in H as [L5 _]. congruence.
    - injection H as <-. reflexivity. }
  split; [congruence |].
  exists fp, tp. repeat split; try reflexivity; try lia.
Qed.

Lemma moveBoard_total (b : Board) (m : Move) :
  rows8 b -> goodMove m -> exists nb, moveBoard b m = Ok nb.
Proof.
  intros Hb [Hf Ht].
  apply validSquares_on_board in Hf as (fp & Hf & [Hfr _]).
  apply validSquares_on_board in Ht as (tp & Ht & [Htr _]).
  unfold moveBoard. rewrite Hf, Ht.
  destruct (setCell_total b (row fp) (col fp) None Hb Hfr) as (b1 & -> & Hb1).
  cbn [bind].
  destruct (setCell_total b1 (row tp) (col tp)
              (Some match promotion m with
                    | Some t => {| type := t; color := color (piece m) |}
                    | None => piece m
                    end) Hb1 Htr) as (b2 & -> & Hb2).
  cbn [bind].
  assert (H3 : exists b3,
             (if truthy (enPassant m)
              then setCell b2 (row fp) (col tp) None else Ok b2) = Ok b3
             /\ rows8 b3).
  { destruct (truthy (enPassant m)); [| eauto].
    apply setCell_total; assumption. }
  destruct H3 as (b3 & -> & Hb3); cbn [bind].
  destruct (castling m) as [[|] |]; [| | eauto].
  - destruct (cell_total b3 (row tp) 7 Hb3 Htr) as [rk ->]; cbn [bind].
    destruct (setCell_total b3 (row tp) 7 None Hb3 Htr) as (b4 & -> & Hb4).
    cbn [bind].
    destruct (setCell_total b4 (row tp) 5 rk Hb4 Htr) as (b5 & -> & _). eauto.
  - destruct (cell_total b3 (row tp) 0 Hb3 Htr) as [rk ->]; cbn [bind].
    destruct (setCell_total b3 (row tp) 0 None Hb3 Htr) as (b4 & -> & Hb4).
    cbn [bind].
    destruct (setCell_total b4 (row tp) 3 rk Hb4 Htr) as (b5 & -> & _). eauto.
Qed.

(** Well-formedness survives any move that [applyMove] accepts. *)
Lemma applyMove_wellFormed (s : GameState) (m : Move) (s' : GameState) :
  rows8 (board s) -> applyMove s m = Ok s' -> wellFormed s'.
Proof.
  intros Hb H. apply applyMove_Ok in H.
  destruct H as (nb & fp & tp & Hnb & Hf & Ht & Hbs & _ & _ & _ & Hep & _).
  apply moveBoard_Ok in Hnb as (L & fp' & tp' & Hf' & Ht' & Rf & Rt).
  rewrite Hf in Hf'; injection Hf' as <-.
  rewrite Ht in Ht'; injection Ht' as <-.
  rewrite Hb in Rf, Rt.
  unfold wellFormed. rewrite Hbs, Hep.
  split; [unfold rows8 in *; congruence |].
  destruct (moveEnPassantTarget_spec fp tp m) as [[[_ T] E] | [_ E]];
    rewrite E; [| exact I].
  intros p Hp. apply positionToSquare_row in Hp.
  - rewrite Hp. pose proof (mid_row_between _ _ T). lia.
  - pose proof (mid_row_between _ _ T). lia.
Qed.

Lemma applyMove_total (s : GameState) (m : Move) :
  rows8 (board s) -> goodMove m -> exists s', applyMove s m = Ok s'.
Proof.
  intros Hb Hm. unfold applyMove.
  destruct (moveBoard_total _ _ Hb Hm) as [nb ->]; cbn [bind].
  destruct Hm as [Hf Ht].
  apply validSquares_on_board in Hf as (fp & -> & _).
  apply validSquares_on_board in Ht as (tp & -> & _).
  eauto.
Qed.

(** On a well-formed state [getAllValidMoves] returns. *)
Lemma getAllValidMoves_total (s : GameState) (clr : PieceColor) :
  wellFormed s -> exists moves, getAllValidMoves s clr = Ok moves.
Proof.
  intros [Hb Hep]. unfold getAllValidMoves.
  assert (T : forall (f : list Move -> Z -> outcome (list Move)) l,
             (forall acc x, In x l -> exists acc', f acc x = Ok acc') ->
             forall acc, exists r, foldM f l acc = Ok r).
  { intros f l Hf acc.
    destruct (foldM_total (fun _ => True) f l) with (b := acc) as (r & Hr & _);
      [| exact I | eauto].
    intros a x Hx _. destruct (Hf a x Hx) as [a' Ha]. eauto. }
  apply T; intros acc r Hr. apply idx8_range in Hr.
  apply T; clear acc; intros acc c Hc. apply idx8_range in Hc.
  destruct (cell_total (board s) r c Hb Hr) as [x Hx]; rewrite Hx; cbn [bind].
  destruct x as [pc |]; [| eauto].
  destruct (PieceColor_eqb (color pc) clr); [| eauto].
  destruct (getPieceMoves_good (board s) r c pc (castlingRights s)
              (enPassantTarget s) false Hb Hr Hc Hx Hep) as (ms & -> & Hms).
  cbn [bind].
  destruct (foldM_total (fun _ : list Move => True)
              (fun allMoves move =>
                 tempState <- applyMove s move ;;
                 kingSquare <- findKing (board tempState) clr ;;
                 match kingSquare with
                 | Some k =>
                     att <- isSquareAttacked (board tempState) k (opponent clr) ;;
                     if negb att then Ok (allMoves ++ [move]) else Ok allMoves
                 | None => Ok allMoves
                 end) ms) with (b := acc) as (res & Hres & _);
    [| exact I | eauto].
  intros a mv Hmv _.
  rewrite Forall_forall in Hms. pose proof (Hms mv Hmv) as Hgood.
  destruct (applyMove_total s mv Hb Hgood) as [t Ht]; rewrite Ht; cbn [bind].
  destruct (applyMove_wellFormed s mv t Hb Ht) as [Hbt _].
  destruct (findKing_total (board t) clr Hbt) as [ks ->]; cbn [bind].
  destruct ks as [k |]; [| eauto].
  destruct (isSquareAttacked_total (board t) k (opponent clr) Hbt) as [att ->].
  cbn [bind]. destruct (negb att); eauto.
Qed.

(** [checkGameStatus] changes the four flags and nothing else. *)
Lemma checkGameStatus_frame (s s' : GameState) :
  checkGameStatus s = Ok s' ->
  board s' = board s /\ currentPlayer s' = currentPlayer s /\
  castlingRights s' = castlingRights s /\
  enPassantTarget s' = enPassantTarget s /\
  moveHistory s' = moveHistory s.
Proof.
  unfold checkGameStatus; intros H.
  apply bind_Ok in H as (ks & _ & H).
  destruct ks as [k |].
  - apply bind_Ok in H as (inCheck & _ & H).
    apply bind_Ok in H as (moves & _ & H).
    injection H as <-. simpl. auto.
  - injection H as <-. simpl. auto.
Qed.

Lemma checkGameStatus_total (s : GameState) :
  wellFormed s -> exists s', checkGameStatus s = Ok s'.
Proof.
  intros Hwf. unfold checkGameStatus.
  destruct (findKing_total (board s) (currentPlayer s) (proj1 Hwf)) as [ks ->].
  cbn [bind]. destruct ks as [k |]; [| eauto].
  destruct (isSquareAttacked_total (board s) k (opponent (currentPlayer s))
              (proj1 Hwf)) as [c ->].
  cbn [bind].
  destruct (getAllValidMoves_total s (currentPlayer s) Hwf) as [ms ->].
  cbn [bind]. eauto.
Qed.

(** Well-formedness is an invariant of the game as the hook plays it: the
    initial state has it and [makeMove] keeps it. *)
Lemma makeMove_wellFormed (s : GameState) (m : Move) (s' : GameState) :
  wellFormed s -> makeMove s m = Ok s' -> wellFormed s'.
Proof.
  intros Hwf. unfold makeMove.
  destruct (isGameOver s); [intros H; injection H as <-; exact Hwf |].
  intros H. apply bind_Ok in H as (t & Happ & H).
  apply (applyMove_wellFormed s m t (proj1 Hwf)) in Happ.
  apply checkGameStatus_frame in H as (Hb & _ & _ & He & _).
  unfold wellFormed. rewrite Hb, He. exact Happ.
Qed.

Lemma makeMove_total (s : GameState) (m : Move) :
  wellFormed s -> goodMove m -> exists s', makeMove s m = Ok s'.
Proof.
  intros Hwf Hm. unfold makeMove.
  destruct (isGameOver s); [eauto |].
  destruct (applyMove_total s m (proj1 Hwf) Hm) as [t Ht].
  rewrite Ht; cbn [bind].
  apply checkGameStatus_total.
  eapply applyMove_wellFormed; [exact (proj1 Hwf) | exact Ht].
Qed.

Lemma played_game_wellFormed (ms : list Move) (s' : GameState) :
  foldM makeMove ms createInitialGameState = Ok s' -> wellFormed s'.
Proof.
  apply (foldM_inv wellFormed).
  - intros s m t Hs Ht. eapply makeMove_wellFormed; eassumption.
  - split; [reflexivity | exact I].
Qed.

(** Each legal move of a well-formed state leads to a well-formed state. *)
Lemma legal_move_child (s : GameState) (clr : PieceColor) (moves : list Move) :
  wellFormed s ->
  getAllValidMoves s clr = Ok moves ->
  Forall (fun m => exists s', applyMove s m = Ok s' /\ wellFormed s') moves.
Proof.
  intros [Hb _] H. apply getAllValidMoves_checked in H.
  eapply Forall_impl; [| exact H].
  intros m (s' & k & Happ & _). exists s'. split; [exact Happ |].
  eapply applyMove_wellFormed; eassumption.
Qed.

Lemma materialAndPosition_total (b : Board) :
  rows8 b -> exists q, materialAndPosition b = Ok q.
Proof.
  intros Hb. unfold materialAndPosition.
  assert (T : forall (f : Q -> Z -> outcome Q) l,
             (forall acc x, In x l -> exists acc', f acc x = Ok acc') ->
             forall acc, exists r, foldM f l acc = Ok r).
  { intros f l Hf acc.
    destruct (foldM_total (fun _ => True) f l) with (b := acc) as (r & Hr & _);
      [| exact I | eauto].
    intros a x Hx _. destruct (Hf a x Hx) as [a' Ha]. eauto. }
  apply T; intros acc r Hr. apply idx8_range in Hr.
  apply T; clear acc; intros acc c _.
  destruct (cell_total b r c Hb Hr) as [x ->]; cbn [bind].
  destruct x; eauto.
Qed.

Section SearchTotal.

Variable rng : Type.
Variable Math_random : rng -> Q * rng.
Variable sortRandom : rng -> list Move -> list Move * rng.

(** All that is assumed of the shuffle: it returns the moves it was
    given, in some order. *)
Hypothesis sortRandom_perm :
  forall g l, Permutation (fst (sortRandom g l)) l.

Lemma evaluatePosition_total (g : rng) (s : GameState) :
  rows8 (board s) -> exists v g', evaluatePosition rng Math_random g s = Ok (v, g').
Proof.
  intros Hb. unfold evaluatePosition.
  destruct (materialAndPosition_total _ Hb) as [q ->]; cbn [bind].
  destruct (Math_random g) as [x g']. eauto.
Qed.

Lemma maxLoop_total child (s : GameState) (moves : list Move) :
  childTotal child -> childrenOk s moves ->
  forall maxEval alpha beta g,
  exists v g', maxLoop rng child s moves maxEval alpha beta g = Ok (v, g').
Proof.
  intros Hchild. induction moves as [| m rest IH]; intros Hms; simpl; [eauto |].
  intros maxEval alpha beta g.
  inversion Hms as [| ? ? (s' & Happ & Hwf) Hrest]; subst.
  rewrite Happ; cbn [bind].
  destruct (Hchild g s' alpha beta Hwf) as (v & g' & ->); cbn [bind].
  destruct (num_leb beta (num_max alpha v)); [eauto |].
  apply IH; exact Hrest.
Qed.

Lemma minLoop_total child (s : GameState) (moves : list Move) :
  childTotal child -> childrenOk s moves ->
  forall minEval alpha beta g,
  exists v g', minLoop rng child s moves minEval alpha beta g = Ok (v, g').
Proof.
  intros Hchild. induction moves as [| m rest IH]; intros Hms; simpl; [eauto |].
  intros minEval alpha beta g.
  inversion Hms as [| ? ? (s' & Happ & Hwf) Hrest]; subst.
  rewrite Happ; cbn [bind].
  destruct (Hchild g s' alpha beta Hwf) as (v & g' & ->); cbn [bind].
  destruct (num_leb (num_min beta v) alpha); [eauto |].
  apply IH; exact Hrest.
Qed.

(** With a non-negative depth and a recursion budget above it, [minimax]
    returns on every well-formed state. *)
Lemma minimax_total (fuel : nat) :
  forall depth, 0 <= depth -> (Z.to_nat depth < fuel)%nat ->
  forall g s isMaximizing alpha beta,
    wellFormed s ->
    exists v g', minimax rng Math_random fuel g s depth isMaximizing alpha beta = Ok (v, g').
Proof.
  induction fuel as [| fuel IH]; intros depth Hd Hf g s isMax alpha beta Hwf;
    [lia |].
  cbn [minimax].
  destruct ((depth =? 0) || isGameOver s) eqn:E.
  - destruct (isCheckmate s); [eauto |].
    destruct (isStalemate s); [eauto |].
    apply evaluatePosition_total. apply Hwf.
  - apply orb_false_iff in E as [E _]. apply Z.eqb_neq in E.
    destruct (getAllValidMoves_total s (currentPlayer s) Hwf) as [moves Hm].
    rewrite Hm; cbn [bind].
    pose proof (legal_move_child s _ moves Hwf Hm) as Hch.
    assert (Hrec : forall flag,
               childTotal (fun g s a b => minimax rng Math_random fuel g s (depth - 1) flag a b)).
    { intros flag g0 s0 a b Hwf0. apply IH; [lia | lia | exact Hwf0]. }
    destruct isMax.
    + apply maxLoop_total; [apply Hrec | exact Hch].
    + apply minLoop_total; [apply Hrec | exact Hch].
Qed.

Lemma bestLoop_total (fuel : nat) (s : GameState) (depth : Z)
    (moves : list Move) :
  1 <= depth -> (Z.to_nat depth <= fuel)%nat ->
  childrenOk s moves ->
  forall bestMove bestValue g,
  exists r g', bestLoop rng Math_random fuel s depth moves bestMove bestValue g = Ok (r, g').
Proof.
  intros Hd Hf. induction moves as [| m rest IH]; intros Hms; simpl; [eauto |].
  intros bestMove bestValue g.
  inversion Hms as [| ? ? (s' & Happ & Hwf) Hrest]; subst.
  rewrite Happ; cbn [bind].
  destruct (minimax_total fuel (depth - 1)) with
    (g := g) (s := s') (isMaximizing := PieceColor_eqb (currentPlayer s) black)
    (alpha := NegInf) (beta := PosInf) as (v & g' & ->); [lia | lia | exact Hwf |].
  cbn [bind].
  destruct (match currentPlayer s with
            | white => num_ltb bestValue v
            | black => num_ltb v bestValue
            end); apply IH; exact Hrest.
Qed.

(** What the loop of [getBestMove] returns is the candidate it started
    with or one of the moves it went through. *)
Lemma bestLoop_member (fuel : nat) (s : GameState) (depth : Z)
    (moves : list Move) :
  forall bestMove bestValue g r g',
    bestLoop rng Math_random fuel s depth moves bestMove bestValue g = Ok (r, g') ->
    r = bestMove \/ exists m, r = Some m /\ In m moves.
Proof.
  induction moves as [| m rest IH]; simpl; intros bestMove bestValue g r g' H.
  - injection H as <- _. left; reflexivity.
  - apply bind_Ok in H as (s' & _ & H).
    apply bind_Ok in H as ([v g1] & _ & H).
    destruct (match currentPlayer s with
              | white => num_ltb bestValue v
              | black => num_ltb v bestValue
              end);
      apply IH in H as [-> | (m' & -> & Hin)]; eauto.
Qed.

(** Whenever [getBestMove] returns, it returns null exactly when there is
    no legal move, and otherwise one of the legal moves. *)
Lemma getBestMove_result (fuel : nat) (g : rng) (s : GameState) (depth : Z)
    (r : option Move) (g' : rng) :
  getBestMove rng Math_random sortRandom fuel g s depth = Ok (r, g') ->
  exists moves,
    getAllValidMoves s (currentPlayer s) = Ok moves /\
    (r = None <-> moves = []) /\
    (forall m, r = Some m -> In m moves).
Proof.
  unfold getBestMove. intros H.
  apply bind_Ok in H as (moves & Hm & H). exists moves. split; [exact Hm |].
  destruct moves as [| m0 rest]; simpl in H.
  - injection H as <- _. split; [tauto | intros m Hm'; discriminate].
  - pose proof (sortRandom_perm g (m0 :: rest)) as Hperm.
    destruct (sortRandom g (m0 :: rest)) as [shuffled g1]; simpl in Hperm.
    apply bind_Ok in H as ([bm g2] & Hloop & H). injection H as <- _.
    assert (Hin : forall m, In m shuffled -> In m (m0 :: rest))
      by (intros m; apply Permutation_in; exact Hperm).
    destruct shuffled as [| h t].
    { apply Permutation_nil in Hperm. discriminate. }
    apply bestLoop_member in Hloop as [-> | (m & -> & Hm')]; simpl.
    + split; [split; discriminate |].
      intros m E; injection E as <-. apply Hin; left; reflexivity.
    + split; [split; discriminate |].
      intros m1 E; injection E as <-. apply Hin; exact Hm'.
Qed.

(** Without legal moves [getBestMove] returns null, whatever the depth
    and the recursion budget. *)
Lemma getBestMove_no_moves (fuel : nat) (g : rng) (s : GameState) (depth : Z) :
  getAllValidMoves s (currentPlayer s) = Ok [] ->
  getBestMove rng Math_random sortRandom fuel g s depth = Ok (None, g).
Proof. unfold getBestMove. intros ->. reflexivity. Qed.

(** At a depth of one or more, with a recursion budget of at least the
    depth, [getBestMove] returns on every well-formed state. *)
Lemma getBestMove_total (fuel : nat) (g : rng) (s : GameState) (depth : Z) :
  wellFormed s -> 1 <= depth -> (Z.to_nat depth <= fuel)%nat ->
  exists r g', getBestMove rng Math_random sortRandom fuel g s depth = Ok (r, g').
Proof.
  intros Hwf Hd Hf. unfold getBestMove.
  destruct (getAllValidMoves_total s (currentPlayer s) Hwf) as [moves Hm].
  rewrite Hm; cbn [bind].
  destruct (Nat.eqb (List.length moves) 0); [eauto |].
  pose proof (sortRandom_perm g moves) as Hperm.
  destruct (sortRandom g moves) as [shuffled g1]; simpl in Hperm.
  assert (Hch : childrenOk s shuffled).
  { pose proof (legal_move_child s _ moves Hwf Hm) as Hall.
    unfold childrenOk. rewrite Forall_forall in *.
    intros m Hin. apply Hall. eapply Permutation_in; eassumption. }
  destruct (bestLoop_total fuel s depth shuffled Hd Hf Hch None
              (match currentPlayer s with white => NegInf | black => PosInf end)
              g1) as (r & g' & ->); cbn [bind].
  eauto.
Qed.

End SearchTotal.

(** ** [getBestMove] on examples *)

Lemma keepOrder_perm (g : unit) (l : list Move) :
  Permutation (fst (keepOrder g l)) l.
Proof. apply Permutation_refl. Qed.

Lemma initial_wellFormed : wellFormed createInitialGameState.
Proof. split; [reflexivity | exact I]. Qed.

(** From the initial position, at depth 2 and with the constant source, the
    move chosen for white is the first knight move, Nc3. *)
Lemma getBestMove_initial_depth2 :
  getBestMove unit constHalf keepOrder 2 tt createInitialGameState 2
  = Ok (Some (mkMove "b1" "c3" (mkPiece knight white)), tt).
Proof. vm_compute. reflexivity. Qed.

(** For a side without a legal move the answer is null. *)
Lemma getBestMove_foolsMate :
  getBestMove unit constHalf keepOrder 3 tt foolsMate 3 = Ok (None, tt).
Proof. vm_compute. reflexivity. Qed.

(** *** Below depth one the search does not come back *)

(** Only the board of the state [applyMove] returns depends on nothing
    but the board it was given. *)
Lemma applyMove_bind_board {A : Type} (s : GameState) (m : Move)
    (k : Board -> outcome A) :
  (t <- applyMove s m ;; k (board t)) = (nb <- moveBoard (board s) m ;; k nb).
Proof.
  unfold applyMove.
  destruct (moveBoard (board s) m) as [nb | |] eqn:E; [| reflexivity ..].
  apply moveBoard_Ok in E as (_ & fp & tp & -> & -> & _). reflexivity.
Qed.

(** [getAllValidMoves] looks at the board, the castling rights and the
    en-passant target, and at nothing else of the state. *)
Lemma getAllValidMoves_ext (s1 s2 : GameState) (clr : PieceColor) :
  board s1 = board s2 ->
  castlingRights s1 = castlingRights s2 ->
  enPassantTarget s1 = enPassantTarget s2 ->
  getAllValidMoves s1 clr = getAllValidMoves s2 clr.
Proof.
  intros Hb Hr He. unfold getAllValidMoves. rewrite Hb, Hr, He.
  apply foldM_ext; intros acc r. apply foldM_ext; intros acc' c.
  destruct (cell (board s2) r c) as [[pc |] | |]; simpl; try reflexivity.
  destruct (PieceColor_eqb (color pc) clr); [| reflexivity].
  destruct (getPieceMoves (board s2) _ pc _ _ false); simpl; try reflexivity.
  apply foldM_ext; intros acc'' mv.
  rewrite (applyMove_bind_board s1 mv
             (fun nb => kingSquare <- findKing nb clr ;;
                match kingSquare with
                | Some k =>
                    att <- isSquareAttacked nb k (opponent clr) ;;
                    if negb att then Ok (acc'' ++ [mv]) else Ok acc''
                | None => Ok acc''
                end)).
  rewrite (applyMove_bind_board s2 mv
             (fun nb => kingSquare <- findKing nb clr ;;
                match kingSquare with
                | Some k =>
                    att <- isSquareAttacked nb k (opponent clr) ;;
                    if negb att then Ok (acc'' ++ [mv]) else Ok acc''
                | None => Ok acc''
                end)).
  rewrite Hb. reflexivity.
Qed.

Lemma applyMove_intro (s : GameState) (m : Move) (nb : Board)
    (fp tp : Position) :
  moveBoard (board s) m = Ok nb ->
  squareToPosition (from m) = Some fp ->
  squareToPosition (to m) = Some tp ->
  applyMove s m
  = Ok {| board := nb;
          currentPlayer := opponent (currentPlayer s);
          moveHistory := moveHistory s ++ [m];
          castlingRights := moveRights (castlingRights s) m;
          enPassantTarget := moveEnPassantTarget fp tp m;
          halfMoveClock :=
            (if PieceType_eqb (type (piece m)) pawn || isSome (captured m)
             then 0 else halfMoveClock s + 1);
          fullMoveNumber :=
            (match currentPlayer s with
             | black => fullMoveNumber s + 1
             | white => fullMoveNumber s
             end);
          isCheck := isCheck s;
          isCheckmate := isCheckmate s;
          isStalemate := isStalemate s;
          isGameOver := isGameOver s |}.
Proof. unfold applyMove. intros -> -> ->. reflexivity. Qed.

Ltac cycle_member :=
  first [ left; reflexivity
        | right; left; reflexivity
        | right; right; left; reflexivity
        | right; right; right; left; reflexivity ].

(** In the cycle the side to move always has a legal move, and its first
    one leads to the next position of the cycle. *)
Lemma inCycle_step (s : GameState) :
  inCycle s ->
  exists m rest s',
    getAllValidMoves s (currentPlayer s) = Ok (m :: rest) /\
    applyMove s m = Ok s' /\
    inCycle s'.
Proof.
  intros (Hg & Hr & He & m & nb & Hin).
  simpl in Hin.
  destruct Hin as [E | [E | [E | [E | []]]]];
    injection E as Eb Ep Em Enb; subst m nb;
    match type of Eb with
    | ?B = _ =>
        match type of Ep with
        | ?P = _ =>
            rewrite (getAllValidMoves_ext s (bareState B P) (currentPlayer s)
                       (eq_sym Eb) Hr He);
            rewrite <- Ep
        end
    end;
    (eexists; eexists; eexists;
     split; [vm_compute; reflexivity |];
     split; [eapply applyMove_intro;
               [rewrite <- Eb; vm_compute; reflexivity
               | reflexivity | reflexivity] |];
     split; [exact Hg |];
     split; [cbn [castlingRights]; rewrite Hr; reflexivity |];
     split; [reflexivity |];
     cbn [board currentPlayer]; rewrite <- Ep;
     eexists; eexists; vm_compute; cycle_member).
Qed.

Section Divergence.

Variable rng : Type.
Variable Math_random : rng -> Q * rng.

(** At a negative depth [minimax] never meets its base case in the cycle:
    whatever the recursion budget, it is used up. *)
Lemma minimax_diverges (fuel : nat) :
  forall g s depth isMaximizing alpha beta,
    inCycle s -> depth < 0 ->
    minimax rng Math_random fuel g s depth isMaximizing alpha beta = OutOfFuel.
Proof.
  induction fuel as [| fuel IH]; intros g s depth isMax alpha beta Hs Hd;
    [reflexivity |].
  cbn [minimax].
  destruct (Z.eqb_spec depth 0) as [E | _]; [lia |].
  destruct Hs as (Hg & Hrest). rewrite Hg. cbn [orb].
  destruct (inCycle_step s (conj Hg Hrest)) as (m & rest & s' & -> & Happ & Hs').
  cbn [bind].
  destruct isMax; cbn [maxLoop minLoop]; rewrite Happ; cbn [bind];
    rewrite IH by (assumption || lia); reflexivity.
Qed.

End Divergence.

Lemma twoKings_inCycle : inCycle twoKings.
Proof.
  repeat split. eexists; eexists. left. reflexivity.
Qed.

Lemma twoKings_wellFormed : wellFormed twoKings.
Proof. split; [reflexivity | exact I]. Qed.

(** C6 does not hold at depth 0: with white's king on d8 and black's on b8
    the state is well formed and white has legal moves, yet [getBestMove]
    returns nothing, however large the recursion budget: the search below
    the first move is entered at depth -1 and never reaches depth 0. *)
Lemma getBestMove_depth0_does_not_return :
  wellFormed twoKings /\
  (exists m rest, getAllValidMoves twoKings white = Ok (m :: rest)) /\
  forall fuel,
    getBestMove unit constHalf keepOrder fuel tt twoKings 0 = OutOfFuel.
Proof.
  split; [exact twoKings_wellFormed |].
  split; [eexists; eexists; vm_compute; reflexivity |].
  intros fuel.
  destruct (inCycle_step twoKings twoKings_inCycle)
    as (m & rest & s' & Hm & Happ & Hs').
  unfold getBestMove. change (currentPlayer twoKings) with white in *.
  rewrite Hm; cbn [bind List.length Nat.eqb keepOrder bestLoop].
  rewrite Happ; cbn [bind].
  rewrite (minimax_diverges unit constHalf fuel) by (assumption || lia).
  reflexivity.
Qed.

(** * Further properties of the code *)

(** ** Reading and writing the board *)

(** The content of a row at a column; [None] for an empty or missing cell. *)
Lemma index_assignNat {A : Type} (l : list (option A)) (i j : nat) (v : option A) :
  match nth_error (assignNat l i v) j with Some x => x | None => None end
  = if Nat.eqb j i then v
    else match nth_error l j with Some x => x | None => None end.
Proof.
  revert l j. induction i as [| i IH]; intros l j.
  - destruct l as [| x t], j as [| j]; simpl; try reflexivity.
    destruct j; reflexivity.
  - destruct l as [| x t], j as [| j]; simpl; try reflexivity.
    + rewrite IH. destruct j; reflexivity.
    + apply IH.
Qed.

Lemma cell_of_assign (rw : list (option ChessPiece)) (c c' : Z)
    (v : option ChessPiece) :
  0 <= c ->
  match index (assign rw c v) c' with Some x => x | None => None end
  = if c' =? c then v
    else match index rw c' with Some x => x | None => None end.
Proof.
  intros Hc. unfold assign, index.
  destruct (Z.ltb_spec c 0); [lia |].
  destruct (Z.ltb_spec c' 0).
  - destruct (Z.eqb_spec c' c); [lia | reflexivity].
  - rewrite index_assignNat.
    destruct (Z.eqb_spec c' c) as [-> | Hne].
    + rewrite Nat.eqb_refl. reflexivity.
    + destruct (Nat.eqb_spec (Z.to_nat c') (Z.to_nat c)); [lia | reflexivity].
Qed.

Lemma index_replace_row {A : Type} (b : list A) (r r' : Z) (x new : A) :
  index b r = Some x ->
  index (firstn (Z.to_nat r) b ++ new :: skipn (S (Z.to_nat r)) b) r'
  = if r' =? r then Some new else index b r'.
Proof.
  intros Hx. pose proof (index_range _ _ _ Hx) as Hr.
  unfold index.
  destruct (Z.ltb_spec r' 0).
  - destruct (Z.eqb_spec r' r); [lia | reflexivity].
  - assert (Hlen : List.length (firstn (Z.to_nat r) b) = Z.to_nat r)
      by (rewrite length_firstn; lia).
    destruct (Z.eqb_spec r' r) as [-> | Hne].
    + rewrite nth_error_app2 by lia. rewrite Hlen, Nat.sub_diag. reflexivity.
    + destruct (Z.ltb_spec r' r).
      * rewrite nth_error_app1 by lia.
        rewrite nth_error_firstn.
        destruct (Nat.ltb_spec (Z.to_nat r') (Z.to_nat r)); [reflexivity | lia].
      * rewrite nth_error_app2 by lia. rewrite Hlen.
        replace (Z.to_nat r' - Z.to_nat r)%nat
          with (S (Z.to_nat r' - S (Z.to_nat r))) by lia.
        cbn [nth_error]. rewrite nth_error_skipn. f_equal. lia.
Qed.

(** Reading a cell after a write: the value written at the cell written,
    the old content everywhere else. *)
Lemma cell_setCell (b : Board) (r c : Z) (v : option ChessPiece) (nb : Board)
    (r' c' : Z) :
  0 <= c ->
  setCell b r c v = Ok nb ->
  cell nb r' c' = if (r' =? r) && (c' =? c) then Ok v else cell b r' c'.
Proof.
  intros Hc. unfold setCell.
  destruct (index b r) as [rw |] eqn:Er; [| discriminate].
  intros H; injection H as <-.
  unfold cell. rewrite (index_replace_row b r r' rw _ Er).
  destruct (Z.eqb_spec r' r) as [-> | Hne]; cbn [andb].
  - rewrite Er. rewrite cell_of_assign by exact Hc.
    destruct (c' =? c); reflexivity.
  - reflexivity.
Qed.

(** A write at a negative column leaves every cell as it was. *)
Lemma cell_setCell_negative (b : Board) (r c : Z) (v : option ChessPiece)
    (nb : Board) (r' c' : Z) :
  c < 0 -> setCell b r c v = Ok nb -> cell nb r' c' = cell b r' c'.
Proof.
  intros Hc. unfold setCell.
  destruct (index b r) as [rw |] eqn:Er; [| discriminate].
  intros H; injection H as <-.
  unfold cell. rewrite (index_replace_row b r r' rw _ Er).
  destruct (Z.eqb_spec r' r) as [-> | Hne]; [| reflexivity].
  rewrite Er. unfold assign.
  destruct (Z.ltb_spec c 0); [reflexivity | lia].
Qed.

(** ** What [applyMove] does to the board *)

Lemma goodMove_positions (m : Move) :
  goodMove m ->
  exists fp tp,
    squareToPosition (from m) = Some fp /\ squareToPosition (to m) = Some tp /\
    inBoard fp /\ inBoard tp.
Proof.
  intros [Hf Ht].
  apply validSquares_on_board in Hf as (fp & Hf & Hfp).
  apply validSquares_on_board in Ht as (tp & Ht & Htp).
  exists fp, tp. auto.
Qed.

(** The board after the first three writes of [applyMove]. *)
Lemma moveBoard_no_castling (b : Board) (m : Move) (nb : Board)
    (fp tp : Position) :
  squareToPosition (from m) = Some fp ->
  squareToPosition (to m) = Some tp ->
  0 <= col fp -> 0 <= col tp ->
  castling m = None ->
  moveBoard b m = Ok nb ->
  forall r c,
    cell nb r c
    = if truthy (enPassant m) && at_ {| row := row fp; col := col tp |} r c
      then Ok None
      else if at_ tp r c then Ok (Some (landingPiece m))
      else if at_ fp r c then Ok None
      else cell b r c.
Proof.
  intros Hf Ht Hcf Hct Hcas H r c. unfold moveBoard in H.
  rewrite Hf, Ht, Hcas in H.
  apply bind_Ok in H as (b1 & H1 & H).
  apply bind_Ok in H as (b2 & H2 & H).
  apply bind_Ok in H as (b3 & H3 & H). injection H as <-.
  pose proof (cell_setCell b _ _ _ b1 r c Hcf H1) as E1.
  pose proof (cell_setCell b1 _ _ _ b2 r c Hct H2) as E2.
  unfold at_; cbn [row col]. fold (landingPiece m) in E2.
  destruct (truthy (enPassant m)); cbn [andb].
  - rewrite (cell_setCell b2 _ _ _ b3 r c Hct H3), E2, E1. reflexivity.
  - injection H3 as <-. rewrite E2, E1. reflexivity.
Qed.

(** X1. A move without a castling flag, between two of the 64 squares:
    afterwards the destination holds the moved piece (of the promotion type
    when the move carries one), the origin is empty and every other cell is
    as before; when the move is flagged en passant the cell in the origin's
    row and the destination's column is emptied as well. *)
Theorem applyMove_board_effect (s : GameState) (m : Move) (s' : GameState) :
  goodMove m ->
  castling m = None ->
  applyMove s m = Ok s' ->
  exists fp tp,
    squareToPosition (from m) = Some fp /\
    squareToPosition (to m) = Some tp /\
    forall r c,
      cell (board s') r c
      = if truthy (enPassant m) && at_ {| row := row fp; col := col tp |} r c
        then Ok None
        else if at_ tp r c then Ok (Some (landingPiece m))
        else if at_ fp r c then Ok None
        else cell (board s) r c.
Proof.
  intros Hgood Hcas H.
  destruct (goodMove_positions m Hgood) as (fp & tp & Hf & Ht & [_ Hcf] & [_ Hct]).
  apply applyMove_Ok in H as (nb & fp' & tp' & Hnb & _ & _ & Hb & _).
  exists fp, tp. split; [exact Hf |]. split; [exact Ht |].
  rewrite Hb.
  apply (moveBoard_no_castling (board s) m nb fp tp Hf Ht); try assumption; lia.
Qed.

Lemma applyMove_board_effect_witness :
  cell (board afterE2E4) 4 4 = Ok (Some (mkPiece pawn white)) /\
  cell (board afterE2E4) 6 4 = Ok None /\
  cell (board afterE2E4) 7 4 = cell (board createInitialGameState) 7 4.
Proof.
  assert (Hgood : goodMove e2e4) by (split; vm_compute; tauto).
  destruct (applyMove_board_effect createInitialGameState e2e4 afterE2E4
              Hgood eq_refl applyMove_e2e4) as (fp & tp & Hf & Ht & H).
  injection Hf as <-. injection Ht as <-.
  rewrite !H. repeat split.
Defined.

(** X2. A castling move from the e-file to the g-file (kingside) or the
    c-file (queenside) of the same row: afterwards the king's origin and
    the rook's corner are empty, the king's destination holds the moved
    piece, the square the king passed holds whatever stood on the corner
    (a rook or nothing: the corner is not looked at), and every other cell
    is as before. *)
Theorem applyMove_castling_board
    (s : GameState) (m : Move) (s' : GameState) (side : CastlingSide)
    (fp tp : Position) :
  castling m = Some side ->
  truthy (enPassant m) = false ->
  squareToPosition (from m) = Some fp ->
  squareToPosition (to m) = Some tp ->
  row fp = row tp -> col fp = 4 -> col tp = kingTo side ->
  applyMove s m = Ok s' ->
  forall r c,
    cell (board s') r c
    = if r =? row tp then
        if c =? 4 then Ok None
        else if c =? rookFrom side then Ok None
        else if c =? rookTo side then cell (board s) r (rookFrom side)
        else if c =? kingTo side then Ok (Some (landingPiece m))
        else cell (board s) r c
      else cell (board s) r c.
Proof.
  intros Hcas Hep Hf Ht Hrow Hcf Hct H r c.
  apply applyMove_Ok in H as (nb & fp' & tp' & Hnb & _ & _ & Hb & _).
  rewrite Hb. clear Hb fp' tp'.
  unfold moveBoard in Hnb. rewrite Hf, Ht, Hep, Hcas in Hnb.
  apply bind_Ok in Hnb as (b1 & H1 & Hnb).
  apply bind_Ok in Hnb as (b2 & H2 & Hnb).
  cbn [bind] in Hnb. fold (landingPiece m) in H2.
  assert (Hcf0 : 0 <= col fp) by lia.
  assert (Hct0 : 0 <= col tp) by (destruct side; cbn in Hct; lia).
  assert (E2 : forall r c, cell b2 r c
             = if (r =? row tp) && (c =? col tp) then Ok (Some (landingPiece m))
               else if (r =? row fp) && (c =? col fp) then Ok None
               else cell (board s) r c).
  { intros r0 c0.
    rewrite (cell_setCell b1 _ _ _ b2 r0 c0 Hct0 H2).
    rewrite (cell_setCell (board s) _ _ _ b1 r0 c0 Hcf0 H1). reflexivity. }
  assert (Hfinal : exists rk b4,
             cell b2 (row tp) (rookFrom side) = Ok rk /\
             setCell b2 (row tp) (rookFrom side) None = Ok b4 /\
             setCell b4 (row tp) (rookTo side) rk = Ok nb).
  { destruct side; cbn [rookFrom rookTo];
      apply bind_Ok in Hnb as (rk & Hrk & Hnb);
      apply bind_Ok in Hnb as (b4 & H4 & Hnb); eauto. }
  destruct Hfinal as (rk & b4 & Hrk & H4 & H5).
  assert (Hrf : 0 <= rookFrom side) by (destruct side; cbn; lia).
  assert (Hrt : 0 <= rookTo side) by (destruct side; cbn; lia).
  rewrite (cell_setCell b4 _ _ _ nb r c Hrt H5).
  rewrite (cell_setCell b2 _ _ _ b4 r c Hrf H4).
  rewrite E2 in Hrk. rewrite E2.
  rewrite Hrow, Hcf, Hct in *. rewrite Z.eqb_refl in Hrk. cbn [andb] in Hrk.
  destruct (Z.eqb_spec r (row tp)) as [-> | Hr]; cbn [andb]; [| reflexivity].
  destruct side; cbn [rookFrom rookTo kingTo] in *; cbn in Hrk;
    destruct (Z.eqb_spec c 4), (Z.eqb_spec c 7), (Z.eqb_spec c 5),
             (Z.eqb_spec c 6), (Z.eqb_spec c 0), (Z.eqb_spec c 3),
             (Z.eqb_spec c 2); try lia; subst; cbn;
    try rewrite Z.eqb_refl; try reflexivity; try (symmetry; exact Hrk);
    try exact Hrk.
Qed.

Lemma applyMove_castling_board_witness :
  cell (board afterShortCastle) 7 4 = Ok None /\
  cell (board afterShortCastle) 7 5 = cell (board castleState) 7 7 /\
  cell (board afterShortCastle) 7 6 = Ok (Some (mkPiece king white)) /\
  cell (board afterShortCastle) 7 7 = Ok None /\
  cell (board afterShortCastle) 0 4 = cell (board castleState) 0 4.
Proof.
  pose proof (applyMove_castling_board castleState shortCastle afterShortCastle
                kingside {| row := 7; col := 4 |} {| row := 7; col := 6 |}
                eq_refl eq_refl eq_refl eq_refl eq_refl eq_refl eq_refl eq_refl)
    as H.
  rewrite !H. repeat split.
Defined.

(** ** The shape of generated moves *)

Lemma cellOpt_cell (b : Board) (r c : Z) (pc : ChessPiece) :
  cellOpt b r c = Some pc -> cell b r c = Ok (Some pc).
Proof.
  unfold cellOpt, cell. destruct (index b r); [| discriminate].
  intros ->. reflexivity.
Qed.

Lemma hasColor_opponent (clr : PieceColor) (x : option ChessPiece) :
  hasColor (opponent clr) x = true -> hasColor clr x = false.
Proof.
  destruct x as [p |]; [| discriminate]. simpl.
  destruct (color p), clr; simpl; congruence.
Qed.

Lemma destFit_at (b : Board) (clr : PieceColor) (m : Move) (r c : Z) :
  0 <= r < 8 -> 0 <= c < 8 ->
  to m = positionToSquare {| row := r; col := c |} ->
  cell b r c = Ok (captured m) ->
  hasColor clr (captured m) = false ->
  destFit b clr m {| row := r; col := c |}.
Proof.
  intros Hr Hc Hto Hcell Hcol. unfold destFit. rewrite Hto.
  rewrite squareToPosition_positionToSquare by assumption.
  repeat split; try assumption; cbn; lia.
Qed.

Section Shapes.

Variable b : Board.
Variables (r c : Z) (pc : ChessPiece) (clr : PieceColor).

(** A step or a slide: one more plain move. *)
Lemma plain_move_shape (newRow newCol : Z) (x : option ChessPiece) :
  0 <= newRow < 8 -> 0 <= newCol < 8 ->
  cell b newRow newCol = Ok x ->
  hasColor clr x = false ->
  plainFrom b r c pc clr
    {| from := positionToSquare {| row := r; col := c |};
       to := positionToSquare {| row := newRow; col := newCol |};
       piece := pc; captured := x; promotion := None;
       castling := None; enPassant := None |}.
Proof.
  intros Hnr Hnc Hx Hcol. split; [reflexivity |]. split; [reflexivity |].
  repeat split. exists {| row := newRow; col := newCol |}.
  apply destFit_at; try assumption; reflexivity.
Qed.

Lemma stepTo_shape (moves : list Move) (d : Z * Z) (res : list Move) :
  Forall (plainFrom b r c pc clr) moves ->
  stepTo b (positionToSquare {| row := r; col := c |}) pc clr r c moves d
  = Ok res ->
  Forall (plainFrom b r c pc clr) res.
Proof.
  intros Hm. unfold stepTo.
  destruct (inRange8 (r + fst d) && inRange8 (c + snd d)) eqn:E;
    [| intros H; injection H as <-; exact Hm].
  apply andb_true_iff in E as [Er Ec]. apply inRange8_spec in Er, Ec.
  intros H. apply bind_Ok in H as (x & Hx & H).
  destruct (negb (isSome x) || negb (hasColor clr x)) eqn:Econd;
    injection H as <-; [| exact Hm].
  apply Forall_snoc; [exact Hm |].
  apply plain_move_shape; try assumption.
  destruct x as [p |]; [| reflexivity]. cbn in Econd |- *.
  destruct (PieceColor_eqb (color p) clr); [discriminate | reflexivity].
Qed.

Lemma slideRay_shape (dr dc : Z) (steps : list Z) :
  forall moves res,
    Forall (plainFrom b r c pc clr) moves ->
    slideRay b (positionToSquare {| row := r; col := c |}) pc clr r c dr dc
             steps moves = Ok res ->
    Forall (plainFrom b r c pc clr) res.
Proof.
  induction steps as [| i rest IH]; intros moves res Hm; simpl.
  - intros H; injection H as <-; exact Hm.
  - destruct ((r + i * dr <? 0) || (r + i * dr >=? 8)
              || (c + i * dc <? 0) || (c + i * dc >=? 8)) eqn:E;
      [intros H; injection H as <-; exact Hm |].
    assert (Hnr : 0 <= r + i * dr < 8) by lia.
    assert (Hnc : 0 <= c + i * dc < 8) by lia.
    intros H. apply bind_Ok in H as (x & Hx & H).
    destruct x as [tp |].
    + destruct (negb (PieceColor_eqb (color tp) clr)) eqn:Ecol;
        injection H as <-; [| exact Hm].
      apply Forall_snoc; [exact Hm |].
      apply plain_move_shape; try assumption.
      cbn. destruct (PieceColor_eqb (color tp) clr); [discriminate | reflexivity].
    + apply (IH _ _ (Forall_snoc _ _ _ Hm
                       (plain_move_shape _ _ None Hnr Hnc Hx eq_refl)) H).
Qed.

End Shapes.

Section PawnShapes.

Variable b : Board.
Hypothesis Hb : rows8 b.
Variables (r c : Z) (pc : ChessPiece) (clr : PieceColor) (ep : option Square).
Hypothesis Hr : 0 <= r < 8.
Hypothesis Hc : 0 <= c < 8.
Hypothesis Hep : epOk ep.

Lemma pawnForward_shape (res : list Move) :
  pawnForward b (positionToSquare {| row := r; col := c |}) pc clr r c = Ok res ->
  Forall (pawnFrom b r c pc clr ep) res.
Proof.
  unfold pawnForward.
  set (direction := match clr with white => -1 | black => 1 end).
  set (startRow := match clr with white => 6 | black => 1 end).
  destruct (inRange8 (r + direction)) eqn:E1;
    [| intros H; injection H as <-; constructor].
  apply inRange8_spec in E1.
  intros H. apply bind_Ok in H as (ahead & Ha & H).
  destruct ahead as [p |]; cbn [isSome] in H;
    [injection H as <-; constructor |].
  assert (H1 : pawnFrom b r c pc clr ep
                 {| from := positionToSquare {| row := r; col := c |};
                    to := positionToSquare {| row := r + direction; col := c |};
                    piece := pc; captured := None;
                    promotion := lastRank (r + direction);
                    castling := None; enPassant := None |}).
  { split; [reflexivity |]. split; [reflexivity |]. left.
    split; [reflexivity |]. split; [reflexivity |].
    exists {| row := r + direction; col := c |}.
    split; [apply destFit_at; try assumption; reflexivity |].
    split; [reflexivity |]. left. cbn. split; [reflexivity |].
    split; [reflexivity |]. left. subst direction. destruct clr; lia. }
  destruct (r =? startRow) eqn:E2.
  - apply Z.eqb_eq in E2.
    apply bind_Ok in H as (ahead2 & Ha2 & H).
    destruct ahead2 as [p |]; cbn [isSome] in H; injection H as <-.
    + exact (Forall_cons _ H1 (Forall_nil _)).
    + refine (Forall_cons _ H1 (Forall_cons _ _ (Forall_nil _))).
      assert (Hr2 : 0 <= r + 2 * direction < 8)
        by (subst direction startRow; destruct clr; lia).
      split; [reflexivity |]. split; [reflexivity |]. left.
      split; [reflexivity |]. split; [reflexivity |].
      exists {| row := r + 2 * direction; col := c |}.
      split; [apply destFit_at; try assumption; reflexivity |].
      split.
      * cbn. unfold lastRank. subst direction startRow.
        destruct clr; subst r; reflexivity.
      * left. cbn. split; [reflexivity |]. split; [reflexivity |].
        right. subst direction startRow. destruct clr; lia.
  - injection H as <-. exact (Forall_cons _ H1 (Forall_nil _)).
Qed.

Lemma pawnCapture_shape (moves : list Move) (dCol : Z) (res : list Move) :
  Z.abs dCol = 1 ->
  Forall (pawnFrom b r c pc clr ep) moves ->
  pawnCapture b (positionToSquare {| row := r; col := c |}) pc clr ep r c
              moves dCol = Ok res ->
  Forall (pawnFrom b r c pc clr ep) res.
Proof.
  intros Hd Hm. unfold pawnCapture.
  set (direction := match clr with white => -1 | black => 1 end).
  destruct (inRange8 (c + dCol)) eqn:Ec;
    [| intros H; injection H as <-; exact Hm].
  apply inRange8_spec in Ec. cbv zeta.
  set (moves1 := if hasColor (opponent clr) (cellOpt b (r + direction) (c + dCol))
                 then _ else moves).
  assert (Hm1 : Forall (pawnFrom b r c pc clr ep) moves1).
  { subst moves1.
    destruct (hasColor (opponent clr) (cellOpt b (r + direction) (c + dCol)))
      eqn:Eh; [| exact Hm].
    apply Forall_snoc; [exact Hm |].
    destruct (cellOpt b (r + direction) (c + dCol)) as [p |] eqn:Ecell;
      [| discriminate].
    pose proof (cellOpt_row _ _ _ _ Ecell) as Hrow. rewrite Hb in Hrow.
    split; [reflexivity |]. split; [reflexivity |]. left.
    split; [reflexivity |]. split; [reflexivity |].
    exists {| row := r + direction; col := c + dCol |}.
    split.
    - apply destFit_at; try assumption; try reflexivity; try lia.
      + apply cellOpt_cell; exact Ecell.
      + apply hasColor_opponent; exact Eh.
    - split; [reflexivity |]. right. cbn.
      split; [rewrite <- Hd; f_equal; lia |].
      split; [subst direction; destruct clr; lia | discriminate]. }
  clearbody moves1.
  destruct ep as [sq |]; [| intros H; injection H as <-; exact Hm1].
  destruct (String.eqb sq EmptyString);
    [intros H; injection H as <-; exact Hm1 |].
  destruct (squareToPosition sq) as [e |] eqn:Esq;
    [| intros H; injection H as <-; exact Hm1].
  destruct ((row e =? r + direction) && (col e =? c + dCol)) eqn:Eeq;
    [| intros H; injection H as <-; exact Hm1].
  apply andb_true_iff in Eeq as [Er Ecl].
  apply Z.eqb_eq in Er, Ecl.
  intros H. apply bind_Ok in H as (cap & Hcap & H). injection H as <-.
  apply Forall_snoc; [exact Hm1 |].
  pose proof (Hep e Esq) as Hrow.
  split; [reflexivity |]. split; [reflexivity |]. right.
  split; [reflexivity |]. split; [reflexivity |]. split; [reflexivity |].
  exists {| row := r + direction; col := c + dCol |}, sq.
  split; [cbn; apply squareToPosition_positionToSquare; lia |].
  split; [reflexivity |].
  split; [rewrite Esq; destruct e; cbn in *; congruence |].
  split; [cbn; subst direction; destruct clr; lia |].
  split; [cbn; rewrite <- Hd; f_equal; lia |].
  exact Hcap.
Qed.

End PawnShapes.

Section PieceShapes.

Variable attacked : Board -> Square -> PieceColor -> outcome bool.
Variable b : Board.
Hypothesis Hb : rows8 b.
Variables (r c : Z) (pc : ChessPiece).
Hypothesis Hr : 0 <= r < 8.
Hypothesis Hc : 0 <= c < 8.
Hypothesis Hpc : cell b r c = Ok (Some pc).

Lemma getSlidingMoves_shape (clr : PieceColor) (dirs : list (Z * Z))
    (res : list Move) :
  getSlidingMoves b (positionToSquare {| row := r; col := c |}) clr dirs = Ok res ->
  Forall (plainFrom b r c pc clr) res.
Proof.
  unfold getSlidingMoves.
  rewrite (pieceAt_positionToSquare b r c pc Hr Hc Hpc). cbn [bind row col].
  apply (foldM_inv (Forall (plainFrom b r c pc clr))); [| constructor].
  intros acc d acc' Hacc H.
  exact (slideRay_shape b r c pc clr (fst d) (snd d) _ _ _ Hacc H).
Qed.

Lemma getKnightMoves_shape (clr : PieceColor) (res : list Move) :
  getKnightMoves b (positionToSquare {| row := r; col := c |}) clr = Ok res ->
  Forall (plainFrom b r c pc clr) res.
Proof.
  unfold getKnightMoves.
  rewrite (pieceAt_positionToSquare b r c pc Hr Hc Hpc). cbn [bind row col].
  apply (foldM_inv (Forall (plainFrom b r c pc clr))); [| constructor].
  intros acc d acc' Hacc H.
  exact (stepTo_shape b r c pc clr _ _ _ Hacc H).
Qed.

Lemma getPawnMoves_shape (clr : PieceColor) (ep : option Square)
    (res : list Move) :
  epOk ep ->
  getPawnMoves b (positionToSquare {| row := r; col := c |}) clr ep = Ok res ->
  Forall (pawnFrom b r c pc clr ep) res.
Proof.
  intros Hep. unfold getPawnMoves.
  rewrite (pieceAt_positionToSquare b r c pc Hr Hc Hpc). cbn [bind row col].
  intros H. apply bind_Ok in H as (moves & Hf & H).
  apply (pawnForward_shape b r c pc clr ep Hr Hc) in Hf.
  cbn [foldM] in H.
  apply bind_Ok in H as (m1 & H1 & H).
  apply bind_Ok in H as (m2 & H2 & H). injection H as <-.
  apply (pawnCapture_shape b Hb r c pc clr ep Hep) in H1;
    [| reflexivity | exact Hf].
  apply (pawnCapture_shape b Hb r c pc clr ep Hep) in H2;
    [exact H2 | reflexivity | exact H1].
Qed.

Lemma castleMove_shape (clr : PieceColor) (src dst : Square) (side : CastlingSide) :
  squareToPosition dst
  = Some {| row := match clr with white => 7 | black => 0 end;
            col := kingTo side |} ->
  castleShape clr (castleMove src dst pc side).
Proof.
  intros H. exists side. repeat split. exact H.
Qed.

Lemma getKingMoves_shape (clr : PieceColor) (rights : CastlingRights)
    (ignoreKingCheck : bool) (res : list Move) :
  getKingMoves attacked b (positionToSquare {| row := r; col := c |}) clr
               rights ignoreKingCheck = Ok res ->
  Forall (fun m => from m = positionToSquare {| row := r; col := c |} /\
                   piece m = pc /\
                   (plainShape b clr m \/ castleShape clr m)) res.
Proof.
  unfold getKingMoves.
  rewrite (pieceAt_positionToSquare b r c pc Hr Hc Hpc). cbn [bind row col].
  set (Q := fun m => from m = positionToSquare {| row := r; col := c |} /\
                     piece m = pc /\
                     (plainShape b clr m \/ castleShape clr m)).
  intros H. apply bind_Ok in H as (moves & Hs & H).
  assert (Hm : Forall Q moves).
  { apply (foldM_inv (Forall (plainFrom b r c pc clr))) in Hs.
    - eapply Forall_impl; [| exact Hs].
      intros m (H1 & H2 & H3). repeat split; auto.
    - intros acc d acc' Hacc H'.
      exact (stepTo_shape b r c pc clr _ _ _ Hacc H').
    - constructor. }
  apply bind_Ok in H as (go & _ & H).
  destruct go; [| injection H as <-; exact Hm].
  assert (Hadd : forall (k : bool) ms dst side,
            Forall Q ms ->
            squareToPosition dst
            = Some {| row := match clr with white => 7 | black => 0 end;
                      col := kingTo side |} ->
            Forall Q (if k then ms ++ [castleMove
                         (positionToSquare {| row := r; col := c |}) dst pc side]
                      else ms)).
  { intros k ms dst side Hms Hdst. destruct k; [| exact Hms].
    apply Forall_snoc; [exact Hms |].
    split; [reflexivity |]. split; [reflexivity |]. right.
    apply castleMove_shape; exact Hdst. }
  destruct clr.
  - apply bind_Ok in H as (k & _ & H). apply bind_Ok in H as (q & _ & H).
    injection H as <-.
    apply Hadd; [apply Hadd; [exact Hm | reflexivity] | reflexivity].
  - apply bind_Ok in H as (k & _ & H). apply bind_Ok in H as (q & _ & H).
    injection H as <-.
    apply Hadd; [apply Hadd; [exact Hm | reflexivity] | reflexivity].
Qed.

Lemma getPieceMovesWith_shape (rights : CastlingRights) (ep : option Square)
    (ignoreKingCheck : bool) (res : list Move) :
  epOk ep ->
  getPieceMovesWith attacked b (positionToSquare {| row := r; col := c |}) pc
                    rights ep ignoreKingCheck = Ok res ->
  Forall (generatedShape b r c pc ep) res.
Proof.
  intros Hep. unfold getPieceMovesWith, generatedShape.
  destruct (type pc); intros H.
  - exact (getPawnMoves_shape _ _ _ Hep H).
  - exact (getSlidingMoves_shape _ _ _ H).
  - exact (getKnightMoves_shape _ _ H).
  - exact (getSlidingMoves_shape _ _ _ H).
  - exact (getSlidingMoves_shape _ _ _ H).
  - exact (getKingMoves_shape _ _ _ _ H).
Qed.

End PieceShapes.

(** ** Castling *)

Lemma andThen_true (x : outcome bool) (k : unit -> outcome bool) :
  andThen x k = Ok true <-> x = Ok true /\ k tt = Ok true.
Proof.
  unfold andThen. destruct x as [[|] | |]; cbn; split;
    try (intros [H1 H2]); try intros H; try discriminate; auto.
Qed.

Lemma notM_true (x : outcome bool) : notM x = Ok true <-> x = Ok false.
Proof.
  unfold notM. destruct x as [[|] | |]; cbn; split; intros H;
    try discriminate; reflexivity.
Qed.

Lemma isEmpty_true (b : Board) (r c : Z) :
  isEmpty b r c = Ok true <-> cell b r c = Ok None.
Proof.
  unfold isEmpty. destruct (cell b r c) as [[p |] | |]; cbn; split; intros H;
    try discriminate; reflexivity.
Qed.

Lemma castle_append (moves : list Move) (k q : bool) (mk mq : Move)
    (side : CastlingSide) (m : Move) :
  Forall (fun m => castling m = None) moves ->
  castling mk = Some kingside -> castling mq = Some queenside ->
  (In m (if q then (if k then moves ++ [mk] else moves) ++ [mq]
         else (if k then moves ++ [mk] else moves))
   /\ castling m = Some side
   <-> match side with
       | kingside => k = true /\ m = mk
       | queenside => q = true /\ m = mq
       end).
Proof.
  intros Hm Hk Hq. rewrite Forall_forall in Hm.
  assert (Hno : In m moves -> castling m = Some side -> False)
    by (intros Hin Hc; rewrite (Hm _ Hin) in Hc; discriminate).
  split.
  - intros [Hin Hc].
    destruct q, k; repeat (apply in_app_or in Hin as [Hin | Hin]);
      try (exfalso; exact (Hno Hin Hc));
      try (destruct Hin as [<- | []]);
      destruct side; try congruence; auto.
  - destruct side; intros [-> ->]; (split; [| assumption]).
    + destruct q; [apply in_or_app; left |]; apply in_or_app; right; left;
        reflexivity.
    + apply in_or_app; right; left; reflexivity.
Qed.

Lemma Forall_two {A : Type} (P : A -> Prop) (x y : A) :
  Forall P [x; y] <-> P x /\ P y.
Proof.
  split.
  - intros H. inversion H as [| ? ? H1 H']; subst.
    inversion H' as [| ? ? H2 _]; subst. auto.
  - intros [H1 H2]. repeat constructor; assumption.
Qed.

Lemma Forall_three {A : Type} (P : A -> Prop) (x y z : A) :
  Forall P [x; y; z] <-> P x /\ P y /\ P z.
Proof.
  split.
  - intros H. inversion H as [| ? ? H1 H']; subst.
    apply Forall_two in H'. tauto.
  - intros (H1 & H2 & H3). repeat constructor; assumption.
Qed.

Lemma castleTest_true (attacked : Board -> Square -> PieceColor -> outcome bool)
    (b : Board) (clr : PieceColor) (rights : CastlingRights)
    (side : CastlingSide) :
  castleTest attacked b clr rights side = Ok true
  <-> holdsRight rights clr side = true /\
      Forall (fun c => cell b (homeRow clr) c = Ok None) (between side) /\
      Forall (fun c => attacked b (positionToSquare
                                     {| row := homeRow clr; col := c |})
                         (opponent clr) = Ok false)
             (kingPath side).
Proof.
  destruct clr, side; unfold castleTest, between, kingPath;
    rewrite !andThen_true, !notM_true, !isEmpty_true,
            ?Forall_two, ?Forall_three;
    cbn [holdsRight homeRow];
    (split; [intros H; decompose [and] H; clear H
            | intros H; decompose [and] H; clear H]);
    repeat split; try assumption; try congruence.
Qed.

Section Castling.

Variable attacked : Board -> Square -> PieceColor -> outcome bool.
Variable b : Board.
Variables (r c : Z) (pc : ChessPiece).
Hypothesis Hr : 0 <= r < 8.
Hypothesis Hc : 0 <= c < 8.
Hypothesis Hpc : cell b r c = Ok (Some pc).

Lemma getKingMoves_castling (clr : PieceColor) (rights : CastlingRights)
    (ignoreKingCheck : bool) (res : list Move) (side : CastlingSide) (m : Move) :
  getKingMoves attacked b (positionToSquare {| row := r; col := c |}) clr
               rights ignoreKingCheck = Ok res ->
  (In m res /\ castling m = Some side
   <-> m = castleOf (positionToSquare {| row := r; col := c |}) pc clr side /\
       ignoreKingCheck = false /\
       castleAllowed attacked b (positionToSquare {| row := r; col := c |})
                     clr rights side).
Proof.
  unfold getKingMoves.
  rewrite (pieceAt_positionToSquare b r c pc Hr Hc Hpc). cbn [bind row col].
  intros H. apply bind_Ok in H as (moves & Hs & H).
  assert (Hm : Forall (fun m => castling m = None) moves).
  { apply (foldM_inv (Forall (plainFrom b r c pc clr))) in Hs.
    - eapply Forall_impl; [| exact Hs].
      intros x (_ & _ & _ & Hx & _). exact Hx.
    - intros acc d acc' Hacc H'.
      exact (stepTo_shape b r c pc clr _ _ _ Hacc H').
    - constructor. }
  apply bind_Ok in H as (go & Hgo & H).
  assert (Hgo' : go = true <->
                 ignoreKingCheck = false /\
                 attacked b (positionToSquare {| row := r; col := c |})
                          (opponent clr) = Ok false).
  { destruct go.
    - apply andThen_true in Hgo as [H1 H2]. apply notM_true in H2.
      injection H1 as H1. apply negb_true_iff in H1. tauto.
    - split; [discriminate |]. intros [-> H2].
      unfold andThen in Hgo. cbn in Hgo. rewrite H2 in Hgo. discriminate. }
  destruct go.
  - destruct Hgo' as [Hgo' _]. destruct (Hgo' eq_refl) as [Hik Hsrc].
    assert (Hend : exists k q,
               castleTest attacked b clr rights kingside = Ok k /\
               castleTest attacked b clr rights queenside = Ok q /\
               res = if q
                     then (if k then moves ++ [castleOf (positionToSquare {| row := r; col := c |}) pc clr kingside]
                           else moves)
                          ++ [castleOf (positionToSquare {| row := r; col := c |}) pc clr queenside]
                     else (if k then moves ++ [castleOf (positionToSquare {| row := r; col := c |}) pc clr kingside]
                           else moves)).
    { destruct clr;
        apply bind_Ok in H as (k & Hk & H); apply bind_Ok in H as (q & Hq & H);
        injection H as <-; exists k, q; repeat split; assumption. }
    destruct Hend as (k & q & Hk & Hq & ->).
    etransitivity;
      [exact (castle_append moves k q
                (castleOf (positionToSquare {| row := r; col := c |}) pc clr kingside)
                (castleOf (positionToSquare {| row := r; col := c |}) pc clr queenside)
                side m Hm eq_refl eq_refl) |].
    assert (Hk' : k = true <-> castleTest attacked b clr rights kingside = Ok true)
      by (rewrite Hk; split; congruence).
    assert (Hq' : q = true <-> castleTest attacked b clr rights queenside = Ok true)
      by (rewrite Hq; split; congruence).
    rewrite castleTest_true in Hk', Hq'.
    unfold castleAllowed. destruct side; tauto.
  - injection H as <-. split.
    + intros [Hin Hcm]. rewrite Forall_forall in Hm.
      rewrite (Hm _ Hin) in Hcm. discriminate.
    + intros (_ & Hik & _ & _ & Hsrc & _).
      destruct Hgo' as [_ Hgo']. discriminate (Hgo' (conj Hik Hsrc)).
Qed.

End Castling.

(** X3. What [getPieceMoves] returns for the piece [pc] standing on
    [(r, c)] of an eight-row board: every move starts on that square and
    carries that piece; a move of a rook, knight, bishop or queen is plain
    (no promotion, castling or en-passant mark; its destination is on the
    board, its [captured] field is what stands there, and that is no piece
    of the mover's colour); a king's move is plain or a castling move to
    the g- or c-file of the home row; a pawn's move is one or two rows
    straight ahead onto an empty square (two only from the start row), or
    one row ahead diagonally onto an opposing piece, promoting to a queen
    exactly on rows 0 and 7, or an en-passant move onto the en-passant
    target whose [captured] field is whatever stands beside the pawn. *)
Theorem getPieceMoves_shape (b : Board) (r c : Z) (pc : ChessPiece)
    (rights : CastlingRights) (ep : option Square) (ignoreKingCheck : bool)
    (moves : list Move) :
  rows8 b -> 0 <= r < 8 -> 0 <= c < 8 -> epOk ep ->
  cell b r c = Ok (Some pc) ->
  getPieceMoves b (positionToSquare {| row := r; col := c |}) pc rights ep
                ignoreKingCheck = Ok moves ->
  Forall (generatedShape b r c pc ep) moves.
Proof.
  intros Hb Hr Hc Hep Hpc H.
  exact (getPieceMovesWith_shape isSquareAttacked b Hb r c pc Hr Hc Hpc
           rights ep ignoreKingCheck moves Hep H).
Qed.

Lemma getPieceMoves_shape_witness :
  Forall (generatedShape createInitialBoard 6 4 (mkPiece pawn white) None)
         [mkMove "e2" "e3" (mkPiece pawn white); e2e4].
Proof.
  apply (getPieceMoves_shape createInitialBoard 6 4 (mkPiece pawn white)
           initialRights None false).
  - reflexivity.
  - lia.
  - lia.
  - exact I.
  - reflexivity.
  - vm_compute. reflexivity.
Defined.

(** X4. Castling moves of [getPieceMoves] for a king found on [(r, c)]:
    the list holds a move marked as castling on [side] exactly when the
    call is not one with [ignoreKingCheck], the right of that colour and
    side is held, the squares between are empty, and neither the king's
    square nor the two squares it crosses and reaches are attacked; the
    move is then the one from the king's square to the g- or c-file of the
    home row.  Where the king stands and whether a rook is in the corner
    is not tested. *)
Theorem castling_offered_iff (b : Board) (r c : Z) (pc : ChessPiece)
    (rights : CastlingRights) (ep : option Square) (ignoreKingCheck : bool)
    (moves : list Move) (side : CastlingSide) (m : Move) :
  0 <= r < 8 -> 0 <= c < 8 ->
  cell b r c = Ok (Some pc) -> type pc = king ->
  getPieceMoves b (positionToSquare {| row := r; col := c |}) pc rights ep
                ignoreKingCheck = Ok moves ->
  (In m moves /\ castling m = Some side
   <-> m = castleOf (positionToSquare {| row := r; col := c |}) pc (color pc) side /\
       ignoreKingCheck = false /\
       castleAllowed isSquareAttacked b
                     (positionToSquare {| row := r; col := c |})
                     (color pc) rights side).
Proof.
  intros Hr Hc Hpc Hk H.
  unfold getPieceMoves, getPieceMovesWith in H. rewrite Hk in H.
  exact (getKingMoves_castling isSquareAttacked b r c pc Hr Hc Hpc
           (color pc) rights ignoreKingCheck moves side m H).
Qed.

Lemma castling_offered_iff_witness :
  castleAllowed isSquareAttacked castleBoard "e1" white initialRights kingside.
Proof.
  assert (H : exists moves,
             getPieceMoves castleBoard "e1" (mkPiece king white) initialRights
                           None false = Ok moves /\ In shortCastle moves).
  { eexists. split; [vm_compute; reflexivity |].
    do 5 right. left. reflexivity. }
  destruct H as (moves & Hm & Hin).
  apply (castling_offered_iff castleBoard 7 4 (mkPiece king white)
           initialRights None false moves kingside shortCastle).
  - lia.
  - lia.
  - reflexivity.
  - reflexivity.
  - exact Hm.
  - split; [exact Hin | reflexivity].
Defined.

(** ** Legal moves *)

Lemma legal_move_generated (s : GameState) (clr : PieceColor)
    (moves : list Move) (m : Move) :
  wellFormed s ->
  getAllValidMoves s clr = Ok moves -> In m moves ->
  exists r c pieceMoves,
    0 <= r < 8 /\ 0 <= c < 8 /\
    cell (board s) r c = Ok (Some (piece m)) /\ color (piece m) = clr /\
    getPieceMoves (board s) (positionToSquare {| row := r; col := c |})
      (piece m) (castlingRights s) (enPassantTarget s) false = Ok pieceMoves /\
    In m pieceMoves /\
    generatedShape (board s) r c (piece m) (enPassantTarget s) m /\
    kingSafeAfter s clr m.
Proof.
  intros [Hb Hep] Hall Hin.
  apply (getAllValidMoves_iff s clr moves m Hall) in Hin
    as (r & c & pc & pieceMoves & Hr & Hc & Hcell & Hcol & Hgen & Hin & Hsafe).
  apply idx8_range in Hr, Hc.
  pose proof (getPieceMovesWith_shape isSquareAttacked (board s) Hb r c pc
                Hr Hc Hcell (castlingRights s) (enPassantTarget s) false
                pieceMoves Hep Hgen) as Hshape.
  rewrite Forall_forall in Hshape. specialize (Hshape m Hin).
  assert (Hpiece : piece m = pc) by (destruct Hshape as (_ & Hp & _); exact Hp).
  subst pc.
  exists r, c, pieceMoves.
  exact (conj Hr (conj Hc (conj Hcell (conj Hcol (conj Hgen (conj Hin
           (conj Hshape Hsafe))))))).
Qed.

Lemma castle_destination (b : Board) (r c : Z) (pc : ChessPiece)
    (rights : CastlingRights) (ep : option Square) (ignoreKingCheck : bool)
    (moves : list Move) (m : Move) :
  0 <= r < 8 -> 0 <= c < 8 ->
  cell b r c = Ok (Some pc) -> type pc = king ->
  getPieceMoves b (positionToSquare {| row := r; col := c |}) pc rights ep
                ignoreKingCheck = Ok moves ->
  In m moves -> castleShape (color pc) m ->
  exists tp, destFit b (color pc) m tp.
Proof.
  intros Hr Hc Hpc Hk Hgen Hin (side & Hside & _ & _ & Hcap & Hto).
  unfold getPieceMoves, getPieceMovesWith in Hgen. rewrite Hk in Hgen.
  destruct (proj1 (getKingMoves_castling isSquareAttacked b r c pc Hr Hc Hpc
                     (color pc) rights ignoreKingCheck moves side m Hgen)
                  (conj Hin Hside)) as (_ & _ & _ & Hempty & _).
  exists {| row := homeRow (color pc); col := kingTo side |}.
  unfold destFit. rewrite Hcap. cbn [row col].
  split; [exact Hto |].
  split; [split; cbn; destruct (color pc), side; cbn; lia |].
  split; [| reflexivity].
  rewrite Forall_forall in Hempty. apply Hempty.
  destruct side; cbn; tauto.
Qed.

(** X5. Every move [getAllValidMoves] returns for [clr] on a well-formed
    state moves a piece of that colour that stands on the move's [from]
    square, a square of the board; and unless it is marked en passant its
    destination is a square of the board that holds no piece of that
    colour, with the move's [captured] field equal to what stands there. *)
Theorem legal_move_sound (s : GameState) (clr : PieceColor)
    (moves : list Move) (m : Move) :
  wellFormed s ->
  getAllValidMoves s clr = Ok moves -> In m moves ->
  color (piece m) = clr /\
  (exists fp, squareToPosition (from m) = Some fp /\ inBoard fp /\
              cell (board s) (row fp) (col fp) = Ok (Some (piece m))) /\
  (truthy (enPassant m) = false -> exists tp, destFit (board s) clr m tp).
Proof.
  intros Hwf Hall Hin.
  destruct (legal_move_generated s clr moves m Hwf Hall Hin)
    as (r & c & pm & Hr & Hc & Hcell & Hcol & Hgen & Hinp & Hshape & _).
  destruct Hshape as (Hfrom & _ & Hk).
  split; [exact Hcol |]. split.
  - exists {| row := r; col := c |}. rewrite Hfrom.
    split; [apply squareToPosition_positionToSquare; assumption |].
    split; [split; assumption | exact Hcell].
  - intros Hnoep. rewrite <- Hcol.
    destruct (type (piece m)) eqn:Et.
    + destruct Hk as [(_ & _ & tp & Hd & _) | (Hep & _)].
      * exists tp; exact Hd.
      * rewrite Hep in Hnoep. discriminate.
    + destruct Hk as (_ & _ & _ & Hd); exact Hd.
    + destruct Hk as (_ & _ & _ & Hd); exact Hd.
    + destruct Hk as (_ & _ & _ & Hd); exact Hd.
    + destruct Hk as (_ & _ & _ & Hd); exact Hd.
    + destruct Hk as [(_ & _ & _ & Hd) | Hcs]; [exact Hd |].
      exact (castle_destination (board s) r c (piece m) (castlingRights s)
               (enPassantTarget s) false pm m Hr Hc Hcell Et Hgen Hinp Hcs).
Qed.

Lemma legal_move_sound_witness :
  color (piece e2e4) = white /\
  (exists fp, squareToPosition (from e2e4) = Some fp /\ inBoard fp /\
              cell (board createInitialGameState) (row fp) (col fp)
              = Ok (Some (piece e2e4))) /\
  (truthy (enPassant e2e4) = false ->
   exists tp, destFit (board createInitialGameState) white e2e4 tp).
Proof.
  apply (legal_move_sound createInitialGameState white initialWhiteMoves e2e4).
  - split; [reflexivity | exact I].
  - vm_compute. reflexivity.
  - vm_compute. tauto.
Defined.

(** X6. A move that [getAllValidMoves] returns marked en passant is a
    pawn's: it goes one row ahead and one column aside onto the position
    the state's en-passant target names, it is no promotion, and its
    [captured] field is whatever stands beside the pawn in the column of
    the destination, be it an opposing pawn, another piece or nothing. *)
Theorem legal_en_passant (s : GameState) (clr : PieceColor)
    (moves : list Move) (m : Move) :
  wellFormed s ->
  getAllValidMoves s clr = Ok moves -> In m moves ->
  truthy (enPassant m) = true ->
  type (piece m) = pawn /\ promotion m = None /\ castling m = None /\
  exists fp tp sq,
    squareToPosition (from m) = Some fp /\
    squareToPosition (to m) = Some tp /\
    enPassantTarget s = Some sq /\ squareToPosition sq = Some tp /\
    row tp = match clr with white => row fp - 1 | black => row fp + 1 end /\
    Z.abs (col tp - col fp) = 1 /\
    cell (board s) (row fp) (col tp) = Ok (captured m).
Proof.
  intros Hwf Hall Hin Hep.
  destruct (legal_move_generated s clr moves m Hwf Hall Hin)
    as (r & c & pm & Hr & Hc & Hcell & Hcol & Hgen & Hinp & Hshape & _).
  destruct Hshape as (Hfrom & _ & Hk).
  assert (Hplain : plainShape (board s) (color (piece m)) m -> False).
  { intros (_ & _ & Hn & _). rewrite Hn in Hep. discriminate. }
  assert (Hcastle : castleShape (color (piece m)) m -> False).
  { intros (side & _ & _ & Hn & _). rewrite Hn in Hep. discriminate. }
  destruct (type (piece m)) eqn:Et;
    try (exfalso; exact (Hplain Hk));
    try (exfalso; destruct Hk as [Hk | Hk]; [exact (Hplain Hk) | exact (Hcastle Hk)]).
  destruct Hk as [(_ & Hn & _) | (_ & Hcs & Hpr & tp & sq & Hto & Hsq & Hsqp & Hrow & Habs & Hcap)].
  - rewrite Hn in Hep. discriminate.
  - split; [reflexivity |]. split; [exact Hpr |]. split; [exact Hcs |].
    exists {| row := r; col := c |}, tp, sq. rewrite Hfrom, <- Hcol. cbn [row col].
    split; [apply squareToPosition_positionToSquare; assumption |].
    repeat split; assumption.
Qed.

Ltac in_list := repeat first [left; reflexivity | right].

Lemma legal_en_passant_witness :
  type (piece epCapture) = pawn /\ promotion epCapture = None /\
  castling epCapture = None /\
  exists fp tp sq,
    squareToPosition (from epCapture) = Some fp /\
    squareToPosition (to epCapture) = Some tp /\
    enPassantTarget epState = Some sq /\ squareToPosition sq = Some tp /\
    row tp = row fp - 1 /\
    Z.abs (col tp - col fp) = 1 /\
    cell (board epState) (row fp) (col tp) = Ok (captured epCapture).
Proof.
  assert (H : exists moves,
             getAllValidMoves epState white = Ok moves /\ In epCapture moves).
  { eexists. split; [vm_compute; reflexivity | in_list]. }
  destruct H as (moves & Hm & Hin).
  apply (legal_en_passant epState white moves epCapture).
  - apply (played_game_wellFormed epGame). vm_compute. reflexivity.
  - exact Hm.
  - exact Hin.
  - reflexivity.
Defined.

(** X7. The only promotion [getAllValidMoves] offers is to a queen, and it
    offers it exactly on the pawn moves, not marked en passant, that end
    on row 0 or row 7: no such move comes without it, and no other move
    carries one. *)
Theorem legal_promotion (s : GameState) (clr : PieceColor)
    (moves : list Move) (m : Move) :
  wellFormed s ->
  getAllValidMoves s clr = Ok moves -> In m moves ->
  (promotion m = Some queen \/ promotion m = None) /\
  (promotion m = Some queen
   <-> type (piece m) = pawn /\ truthy (enPassant m) = false /\
       exists tp, squareToPosition (to m) = Some tp /\
                  (row tp = 0 \/ row tp = 7)).
Proof.
  intros Hwf Hall Hin.
  destruct (legal_move_generated s clr moves m Hwf Hall Hin)
    as (r & c & pm & Hr & Hc & Hcell & Hcol & Hgen & Hinp & Hshape & _).
  destruct Hshape as (Hfrom & _ & Hk).
  assert (Hplain : plainShape (board s) (color (piece m)) m ->
                   type (piece m) <> pawn ->
                   (promotion m = Some queen \/ promotion m = None) /\
                   (promotion m = Some queen
                    <-> type (piece m) = pawn /\ truthy (enPassant m) = false /\
                        exists tp, squareToPosition (to m) = Some tp /\
                                   (row tp = 0 \/ row tp = 7))).
  { intros (Hp & _) Hne. rewrite Hp. split; [right; reflexivity |].
    split; [discriminate | intros (Ht & _); contradiction]. }
  assert (Hcastle : castleShape (color (piece m)) m ->
                    type (piece m) <> pawn ->
                    (promotion m = Some queen \/ promotion m = None) /\
                    (promotion m = Some queen
                     <-> type (piece m) = pawn /\ truthy (enPassant m) = false /\
                         exists tp, squareToPosition (to m) = Some tp /\
                                    (row tp = 0 \/ row tp = 7))).
  { intros (side & _ & Hp & _) Hne. rewrite Hp. split; [right; reflexivity |].
    split; [discriminate | intros (Ht & _); contradiction]. }
  destruct (type (piece m)) eqn:Et;
    [| apply Hplain; [exact Hk | discriminate] ..
     | destruct Hk as [Hk | Hk];
       [apply Hplain; [exact Hk | discriminate]
       | apply Hcastle; [exact Hk | discriminate]]].
  destruct Hk as [(_ & Hne & tp & (Hto & _) & Hpr & _)
                 | (Hep & _ & Hpr & _)].
  - rewrite Hpr, Hne. unfold lastRank.
    destruct ((row tp =? 0) || (row tp =? 7)) eqn:E.
    + split; [left; reflexivity |]. split; [| reflexivity].
      intros _. split; [reflexivity |]. split; [reflexivity |].
      exists tp. split; [exact Hto | lia].
    + split; [right; reflexivity |]. split; [discriminate |].
      intros (_ & _ & tp' & Hto' & Hrow).
      rewrite Hto in Hto'. injection Hto' as <-. lia.
  - rewrite Hpr, Hep. split; [right; reflexivity |].
    split; [discriminate | intros (_ & Hf & _); discriminate].
Qed.

Lemma legal_promotion_witness :
  (promotion promoMove = Some queen \/ promotion promoMove = None) /\
  (promotion promoMove = Some queen
   <-> type (piece promoMove) = pawn /\ truthy (enPassant promoMove) = false /\
       exists tp, squareToPosition (to promoMove) = Some tp /\
                  (row tp = 0 \/ row tp = 7)).
Proof.
  assert (H : exists moves,
             getAllValidMoves promoState white = Ok moves /\ In promoMove moves).
  { eexists. split; [vm_compute; reflexivity | in_list]. }
  destruct H as (moves & Hm & Hin).
  apply (legal_promotion promoState white moves promoMove).
  - split; [reflexivity | exact I].
  - exact Hm.
  - exact Hin.
Defined.

(** ** Scans *)

Lemma firstM_Some {A B : Type} (f : A -> outcome (option B)) (l : list A)
    (v : B) :
  firstM f l = Ok (Some v) ->
  exists l1 x l2, l = l1 ++ x :: l2 /\ f x = Ok (Some v) /\
                  Forall (fun y => f y = Ok None) l1.
Proof.
  induction l as [| a l IH]; [discriminate |].
  cbn [firstM]. intros H. apply bind_Ok in H as (o & Ha & H).
  destruct o as [w |].
  - injection H as ->. exists [], a, l. repeat split; [exact Ha | constructor].
  - destruct (IH H) as (l1 & x & l2 & -> & Hx & Hl1).
    exists (a :: l1), x, l2. repeat split; [exact Hx |].
    constructor; assumption.
Qed.

Lemma firstM_None {A B : Type} (f : A -> outcome (option B)) (l : list A) :
  firstM f l = Ok None -> Forall (fun y => f y = Ok None) l.
Proof.
  induction l as [| a l IH]; [constructor |].
  cbn [firstM]. intros H. apply bind_Ok in H as (o & Ha & H).
  destruct o as [w |]; [discriminate |].
  constructor; [exact Ha | exact (IH H)].
Qed.

Lemma idx8_prefix (l1 l2 : list Z) (x : Z) :
  idx8 = l1 ++ x :: l2 ->
  0 <= x < 8 /\ forall y, 0 <= y < x -> In y l1.
Proof.
  unfold idx8. intros H.
  do 8 (destruct l1 as [| ? l1];
        [injection H as <- _; split; [lia | intros y Hy; cbn; lia]
        | injection H as <- H]).
  destruct l1; discriminate.
Qed.

Lemma findKing_cell_None (b : Board) (clr : PieceColor) (r c : Z) :
  (x <- cell b r c ;;
   match x with
   | Some pc =>
       if PieceType_eqb (type pc) king && PieceColor_eqb (color pc) clr
       then Ok (Some (positionToSquare {| row := r; col := c |}))
       else Ok None
   | None => Ok None
   end) = Ok None ->
  ~ kingAt b clr r c.
Proof.
  intros H (pc & Hcell & Ht & Hc). rewrite Hcell in H. cbn in H.
  rewrite Ht, Hc in H. destruct clr; discriminate.
Qed.

(** X8. [findKing] on an eight-row board returns; what it returns is the
    square of the first king of the colour in the order the loops visit
    the cells (row 0 first, each row from column 0), and it returns null
    exactly when no cell of the 8 x 8 grid holds such a king. *)
Theorem findKing_first_king (b : Board) (clr : PieceColor) :
  rows8 b ->
  exists v, findKing b clr = Ok v /\
    match v with
    | Some sq =>
        exists r c, 0 <= r < 8 /\ 0 <= c < 8 /\
          sq = positionToSquare {| row := r; col := c |} /\
          kingAt b clr r c /\
          forall r' c', 0 <= r' < 8 -> 0 <= c' < 8 ->
            visitedBefore r' c' r c -> ~ kingAt b clr r' c'
    | None =>
        forall r c, 0 <= r < 8 -> 0 <= c < 8 -> ~ kingAt b clr r c
    end.
Proof.
  intros Hb. destruct (findKing_total b clr Hb) as [v Hv].
  exists v. split; [exact Hv |].
  unfold findKing in Hv. destruct v as [sq |].
  - apply firstM_Some in Hv as (R1 & r & R2 & HR & Hrow & Hbefore).
    apply idx8_prefix in HR as [Hr HR].
    apply firstM_Some in Hrow as (C1 & c & C2 & HC & Hcell & Hleft).
    apply idx8_prefix in HC as [Hc HC].
    exists r, c. split; [exact Hr |]. split; [exact Hc |].
    apply bind_Ok in Hcell as (x & Hx & Hcell).
    destruct x as [pc |]; [| discriminate].
    destruct (PieceType_eqb (type pc) king && PieceColor_eqb (color pc) clr)
      eqn:E; [| discriminate].
    injection Hcell as <-. split; [reflexivity |].
    apply andb_true_iff in E as [Et Ec].
    apply PieceType_eqb_eq in Et. apply PieceColor_eqb_eq in Ec.
    split; [exists pc; repeat split; assumption |].
    intros r' c' Hr' Hc' [Hlt | [-> Hlt]].
    + rewrite Forall_forall in Hbefore.
      pose proof (Hbefore r' (HR r' ltac:(lia))) as Hnone.
      apply firstM_None in Hnone. rewrite Forall_forall in Hnone.
      apply findKing_cell_None. apply Hnone. unfold idx8. cbn. lia.
    + rewrite Forall_forall in Hleft.
      apply findKing_cell_None. apply Hleft. apply HC. lia.
  - apply firstM_None in Hv. rewrite Forall_forall in Hv.
    intros r c Hr Hc.
    pose proof (Hv r ltac:(unfold idx8; cbn; lia)) as Hnone.
    apply firstM_None in Hnone. rewrite Forall_forall in Hnone.
    apply findKing_cell_None. apply Hnone. unfold idx8. cbn. lia.
Qed.

Lemma findKing_first_king_witness :
  exists v, findKing createInitialBoard black = Ok v /\
    match v with
    | Some sq =>
        exists r c, 0 <= r < 8 /\ 0 <= c < 8 /\
          sq = positionToSquare {| row := r; col := c |} /\
          kingAt createInitialBoard black r c /\
          forall r' c', 0 <= r' < 8 -> 0 <= c' < 8 ->
            visitedBefore r' c' r c -> ~ kingAt createInitialBoard black r' c'
    | None =>
        forall r c, 0 <= r < 8 -> 0 <= c < 8 ->
                    ~ kingAt createInitialBoard black r c
    end.
Proof.
  apply (findKing_first_king createInitialBoard black). reflexivity.
Defined.

Lemma idx8_In (x : Z) : In x idx8 <-> 0 <= x < 8.
Proof. unfold idx8. cbn. lia. Qed.

(** X9. On a well-formed state [getAllValidMoves] returns, and its list
    holds exactly the moves that [getPieceMoves] generates (with castling
    enabled and the state's rights and en-passant target) for a piece of
    the colour on one of the 64 cells and after which that colour's king
    is on the board and not attacked. *)
Theorem legal_moves_characterised (s : GameState) (clr : PieceColor) :
  wellFormed s ->
  exists moves,
    getAllValidMoves s clr = Ok moves /\
    forall m,
      In m moves <->
      exists r c pc pieceMoves,
        0 <= r < 8 /\ 0 <= c < 8 /\
        cell (board s) r c = Ok (Some pc) /\ color pc = clr /\
        getPieceMoves (board s) (positionToSquare {| row := r; col := c |}) pc
          (castlingRights s) (enPassantTarget s) false = Ok pieceMoves /\
        In m pieceMoves /\
        kingSafeAfter s clr m.
Proof.
  intros Hwf. destruct (getAllValidMoves_total s clr Hwf) as [moves Hm].
  exists moves. split; [exact Hm |]. intros m.
  rewrite (getAllValidMoves_iff s clr moves m Hm).
  split; intros (r & c & pc & pm & Hr & Hc & H);
    exists r, c, pc, pm; [apply idx8_In in Hr, Hc | apply idx8_In in Hr, Hc];
    tauto.
Qed.

Lemma legal_moves_characterised_witness :
  exists moves,
    getAllValidMoves pinnedKnightState white = Ok moves /\
    forall m,
      In m moves <->
      exists r c pc pieceMoves,
        0 <= r < 8 /\ 0 <= c < 8 /\
        cell (board pinnedKnightState) r c = Ok (Some pc) /\ color pc = white /\
        getPieceMoves (board pinnedKnightState)
          (positionToSquare {| row := r; col := c |}) pc
          (castlingRights pinnedKnightState)
          (enPassantTarget pinnedKnightState) false = Ok pieceMoves /\
        In m pieceMoves /\
        kingSafeAfter pinnedKnightState white m.
Proof.
  apply (legal_moves_characterised pinnedKnightState white).
  split; [reflexivity | exact I].
Defined.

(** X10. On an eight-row board [isSquareAttacked] returns, and it answers
    true exactly when some piece of [byColor] on one of the 64 cells has,
    among the moves [getPieceMoves] generates for it with no castling
    rights, no en-passant target and [ignoreKingCheck] set, one that ends
    on the square. *)
Theorem attack_characterised (b : Board) (square : Square)
    (byColor : PieceColor) :
  rows8 b ->
  exists v,
    isSquareAttacked b square byColor = Ok v /\
    (v = true <->
     exists r c pc moves m,
       0 <= r < 8 /\ 0 <= c < 8 /\
       cell b r c = Ok (Some pc) /\ color pc = byColor /\
       getPieceMoves b (positionToSquare {| row := r; col := c |}) pc
         noRights None true = Ok moves /\
       In m moves /\ to m = square).
Proof.
  intros Hb. destruct (isSquareAttacked_total b square byColor Hb) as [v Hv].
  exists v. split; [exact Hv |].
  assert (Hiff : v = true <-> isSquareAttacked b square byColor = Ok true)
    by (rewrite Hv; split; congruence).
  rewrite Hiff, (isSquareAttacked_iff b square byColor Hb).
  split; intros (r & c & pc & ms & m & Hr & Hc & H);
    exists r, c, pc, ms, m; [apply idx8_In in Hr, Hc | apply idx8_In in Hr, Hc];
    tauto.
Qed.

Lemma attack_characterised_witness :
  exists v,
    isSquareAttacked pinnedKnightBoard "e2" black = Ok v /\
    (v = true <->
     exists r c pc moves m,
       0 <= r < 8 /\ 0 <= c < 8 /\
       cell pinnedKnightBoard r c = Ok (Some pc) /\ color pc = black /\
       getPieceMoves pinnedKnightBoard
         (positionToSquare {| row := r; col := c |}) pc
         noRights None true = Ok moves /\
       In m moves /\ to m = "e2").
Proof.
  apply (attack_characterised pinnedKnightBoard "e2" black). reflexivity.
Defined.

(** ** Games *)

Lemma foldM_app {A B : Type} (f : B -> A -> outcome B) (l1 l2 : list A) (b : B) :
  foldM f (l1 ++ l2) b = (x <- foldM f l1 b ;; foldM f l2 x).
Proof.
  revert b. induction l1 as [| a l1 IH]; intros b; [reflexivity |].
  cbn [foldM app]. destruct (f b a) as [b' | |]; cbn [bind];
    [apply IH | reflexivity | reflexivity].
Qed.

Lemma game_over_absorbs (ms : list Move) (s : GameState) :
  isGameOver s = true -> foldM makeMove ms s = Ok s.
Proof.
  intros Hover. induction ms as [| m ms IH]; [reflexivity |].
  cbn [foldM]. unfold makeMove at 1. rewrite Hover. exact IH.
Qed.

Lemma makeMove_history (s : GameState) (m : Move) (s' : GameState) :
  makeMove s m = Ok s' ->
  (isGameOver s = true /\ s' = s) \/
  (isGameOver s = false /\
   moveHistory s' = moveHistory s ++ [m] /\
   currentPlayer s' = opponent (currentPlayer s) /\
   fullMoveNumber s' = match currentPlayer s with
                       | black => fullMoveNumber s + 1
                       | white => fullMoveNumber s
                       end).
Proof.
  unfold makeMove. destruct (isGameOver s) eqn:Hover.
  - intros H. injection H as <-. left. split; reflexivity.
  - intros H. right. split; [reflexivity |].
    apply bind_Ok in H as (t & Ht & H).
    apply checkGameStatus_Ok in H as Hflags.
    assert (Hframe : moveHistory s' = moveHistory t /\
                     currentPlayer s' = currentPlayer t /\
                     fullMoveNumber s' = fullMoveNumber t).
    { unfold checkGameStatus in H.
      apply bind_Ok in H as (ks & _ & H). destruct ks as [k |].
      - apply bind_Ok in H as (ic & _ & H). apply bind_Ok in H as (mv & _ & H).
        injection H as <-. repeat split.
      - injection H as <-. repeat split. }
    destruct Hframe as (-> & -> & ->).
    unfold applyMove in Ht. apply bind_Ok in Ht as (nb & _ & Ht).
    destruct (squareToPosition (from m)); [| discriminate].
    destruct (squareToPosition (to m)); [| discriminate].
    injection Ht as <-. repeat split.
Qed.

Lemma played_from (ms : list Move) :
  forall s s',
    foldM makeMove ms s = Ok s' ->
    exists k,
      moveHistory s' = moveHistory s ++ firstn k ms /\
      (k <= List.length ms)%nat /\
      (isGameOver s' = false -> k = List.length ms) /\
      (currentPlayer s = sideAfter (List.length (moveHistory s)) ->
       currentPlayer s' = sideAfter (List.length (moveHistory s'))) /\
      (currentPlayer s = sideAfter (List.length (moveHistory s)) ->
       fullMoveNumber s
       = 1 + Z.of_nat (Nat.div2 (List.length (moveHistory s))) ->
       fullMoveNumber s'
       = 1 + Z.of_nat (Nat.div2 (List.length (moveHistory s')))).
Proof.
  induction ms as [| m ms IH]; intros s s' H.
  - injection H as <-. exists 0%nat. rewrite app_nil_r. auto.
  - cbn [foldM] in H. apply bind_Ok in H as (s1 & H1 & H).
    destruct (makeMove_history s m s1 H1)
      as [[Hover ->] | (Hgo & Hh & Hp & Hf)].
    + rewrite (game_over_absorbs ms s Hover) in H. injection H as <-.
      exists 0%nat. rewrite app_nil_r. cbn.
      repeat split; auto; try lia. congruence.
    + destruct (IH s1 s' H) as (k & Hk & Hle & Hall & Hside & Hfull).
      assert (Hside1 : currentPlayer s = sideAfter (List.length (moveHistory s)) ->
                       currentPlayer s1 = sideAfter (List.length (moveHistory s1))).
      { intros Hs. rewrite Hp, Hh, Hs, length_app. cbn [List.length].
        rewrite Nat.add_1_r. unfold sideAfter. rewrite Nat.even_succ.
        rewrite <- Nat.negb_even.
        destruct (Nat.even (List.length (moveHistory s))); reflexivity. }
      exists (S k).
      split; [rewrite Hk, Hh, <- app_assoc; reflexivity |].
      split; [cbn [List.length]; lia |].
      split; [intros Hn; cbn [List.length]; f_equal; exact (Hall Hn) |].
      split; [intros Hs; apply Hside; exact (Hside1 Hs) |].
      intros Hs Hn. apply Hfull; [exact (Hside1 Hs) |].
      rewrite Hf, Hh, Hs, Hn, length_app. cbn [List.length].
      rewrite Nat.add_1_r. unfold sideAfter.
      destruct (Nat.even (List.length (moveHistory s))) eqn:E.
      * apply Nat.even_spec in E.
        rewrite <- (Nat.Even_div2 _ E). reflexivity.
      * assert (Ho : Nat.odd (List.length (moveHistory s)) = true)
          by (rewrite <- Nat.negb_even, E; reflexivity).
        apply Nat.odd_spec in Ho.
        rewrite <- (Nat.Odd_div2 _ Ho). lia.
Qed.

(** X11. A game played from the initial state by a list of calls of
    [makeMove]: the move history of the state reached is a prefix of the
    list, the whole list unless the game is over (calls after the end of
    the game change nothing); white is to move exactly after an even
    number of recorded moves, and [fullMoveNumber] is one more than half
    that number, rounded down. *)
Theorem played_game_history (ms : list Move) (s : GameState) :
  foldM makeMove ms createInitialGameState = Ok s ->
  moveHistory s = firstn (List.length (moveHistory s)) ms /\
  (isGameOver s = false -> moveHistory s = ms) /\
  currentPlayer s = sideAfter (List.length (moveHistory s)) /\
  fullMoveNumber s = 1 + Z.of_nat (Nat.div2 (List.length (moveHistory s))).
Proof.
  intros H.
  destruct (played_from ms createInitialGameState s H)
    as (k & Hk & Hle & Hall & Hside & Hfull).
  cbn [moveHistory createInitialGameState app] in Hk.
  split; [| split; [| split]].
  - rewrite Hk at 2. rewrite Hk, length_firstn, Nat.min_l by exact Hle.
    reflexivity.
  - intros Hn. rewrite Hk, (Hall Hn). apply firstn_all.
  - apply Hside. reflexivity.
  - apply Hfull; reflexivity.
Qed.

Lemma played_game_history_witness :
  moveHistory epState = firstn (List.length (moveHistory epState)) epGame /\
  (isGameOver epState = false -> moveHistory epState = epGame) /\
  currentPlayer epState = sideAfter (List.length (moveHistory epState)) /\
  fullMoveNumber epState
  = 1 + Z.of_nat (Nat.div2 (List.length (moveHistory epState))).
Proof.
  apply (played_game_history epGame epState). vm_compute. reflexivity.
Defined.

(** ** Taking moves back *)

Lemma applyMove_sameCore (s t : GameState) (m : Move) (s' : GameState) :
  sameCore s t -> applyMove s m = Ok s' ->
  exists t', applyMove t m = Ok t' /\ sameCore s' t'.
Proof.
  intros (Hb & Hp & Hh & Hr & He & Hc & Hf). unfold applyMove.
  rewrite <- Hb, <- Hp, <- Hh, <- Hr, <- Hc, <- Hf.
  intros H. apply bind_Ok in H as (nb & -> & H). cbn [bind].
  destruct (squareToPosition (from m)); [| discriminate].
  destruct (squareToPosition (to m)); [| discriminate].
  injection H as <-. eexists. split; [reflexivity |].
  repeat split.
Qed.

Lemma checkGameStatus_core (s s' : GameState) :
  checkGameStatus s = Ok s' -> sameCore s s'.
Proof.
  unfold checkGameStatus. intros H.
  apply bind_Ok in H as (ks & _ & H). destruct ks as [k |].
  - apply bind_Ok in H as (ic & _ & H). apply bind_Ok in H as (mv & _ & H).
    injection H as <-. repeat split.
  - injection H as <-. repeat split.
Qed.

Lemma checkGameStatus_sameCore (s t s' : GameState) :
  sameCore s t -> checkGameStatus s = Ok s' -> isGameOver s' = false ->
  checkGameStatus t = Ok s'.
Proof.
  intros (Hb & Hp & Hh & Hr & He & Hc & Hf). unfold checkGameStatus.
  rewrite <- Hb, <- Hp, <- Hh, <- Hr, <- He, <- Hc, <- Hf.
  rewrite <- (getAllValidMoves_ext s t (currentPlayer s) Hb Hr He).
  intros H Hover. apply bind_Ok in H as (ks & -> & H). cbn [bind].
  destruct ks as [k |]; [exact H |].
  injection H as <-. discriminate.
Qed.

Lemma played_along_history (ms : list Move) :
  forall s s',
    foldM makeMove ms s = Ok s' ->
    exists k,
      moveHistory s' = moveHistory s ++ firstn k ms /\
      foldM makeMove (firstn k ms) s = Ok s'.
Proof.
  induction ms as [| m ms IH]; intros s s' H.
  - injection H as <-. exists 0%nat. rewrite app_nil_r. auto.
  - cbn [foldM] in H. apply bind_Ok in H as (s1 & H1 & H).
    destruct (makeMove_history s m s1 H1)
      as [[Hover ->] | (Hgo & Hh & _)].
    + rewrite (game_over_absorbs ms s Hover) in H. injection H as <-.
      exists 0%nat. rewrite app_nil_r. auto.
    + destruct (IH s1 s' H) as (k & Hk & Hf).
      exists (S k). split; [rewrite Hk, Hh, <- app_assoc; reflexivity |].
      cbn [firstn foldM]. rewrite H1. exact Hf.
Qed.

Lemma replay_matches (l : list Move) :
  forall s,
    foldM makeMove l createInitialGameState = Ok s ->
    moveHistory s = l -> isGameOver s = false ->
    exists t, foldM applyMove l createInitialGameState = Ok t /\
              checkGameStatus t = Ok s.
Proof.
  induction l as [| m l IH] using rev_ind; intros s H Hh Hover.
  - injection H as <-. exists createInitialGameState.
    split; [reflexivity | vm_compute; reflexivity].
  - rewrite foldM_app in H. apply bind_Ok in H as (s1 & H1 & H).
    cbn [foldM] in H. apply bind_Ok in H as (s2 & H2 & H). injection H as ->.
    destruct (makeMove_history s1 m s H2)
      as [[Hover1 ->] | (Hgo & Hh1 & _)]; [congruence |].
    rewrite Hh in Hh1. apply app_inj_tail in Hh1 as [Hh1 _].
    destruct (IH s1 H1 (eq_sym Hh1) Hgo) as (t1 & Ht1 & Hc1).
    unfold makeMove in H2. rewrite Hgo in H2.
    apply bind_Ok in H2 as (u & Hu & Hs).
    apply checkGameStatus_core in Hc1 as Hcore.
    assert (Hcore' : sameCore s1 t1).
    { destruct Hcore as (? & ? & ? & ? & ? & ? & ?). repeat split; congruence. }
    destruct (applyMove_sameCore s1 t1 m u Hcore' Hu) as (t & Ht & Hut).
    exists t. split.
    + rewrite foldM_app, Ht1. cbn [bind foldM]. rewrite Ht. reflexivity.
    + exact (checkGameStatus_sameCore u t s Hut Hs Hover).
Qed.

Lemma undoMove_played (st : Hook.State) (ms : list Move) :
  foldM makeMove ms createInitialGameState = Ok (Hook.gameState st) ->
  (2 <= List.length (moveHistory (Hook.gameState st)))%nat ->
  exists s0,
    foldM makeMove
      (firstn (List.length (moveHistory (Hook.gameState st)) - 2)
              (moveHistory (Hook.gameState st)))
      createInitialGameState = Ok s0 /\
    Hook.undoMove st
    = Ok {| Hook.gameState := s0; Hook.selectedPiece := None;
            Hook.aiIsThinking := Hook.aiIsThinking st;
            Hook.promotionMove := None |}.
Proof.
  intros Hplay Hlen.
  set (gs := Hook.gameState st) in *. set (h := moveHistory gs) in *.
  destruct (played_along_history ms _ _ Hplay) as (k & Hk & Hfold).
  cbn [moveHistory createInitialGameState app] in Hk. fold h in Hk.
  rewrite <- Hk in Hfold.
  rewrite <- (firstn_skipn (List.length h - 2) h) in Hfold.
  rewrite foldM_app in Hfold. apply bind_Ok in Hfold as (s0 & H0 & Hrest).
  destruct (played_from _ _ _ H0) as (k0 & Hk0 & Hle0 & Hall0 & _).
  cbn [moveHistory createInitialGameState app] in Hk0.
  assert (Hover0 : isGameOver s0 = false).
  { destruct (isGameOver s0) eqn:E; [| reflexivity]. exfalso.
    rewrite (game_over_absorbs _ s0 E) in Hrest. injection Hrest as Heq.
    assert (Hl : List.length (moveHistory s0) = List.length h)
      by (rewrite Heq; reflexivity).
    rewrite Hk0, length_firstn in Hl. rewrite length_firstn in Hle0. lia. }
  specialize (Hall0 Hover0). rewrite length_firstn in Hall0.
  assert (Hh0 : moveHistory s0 = firstn (List.length h - 2) h).
  { rewrite Hk0, Hall0. apply firstn_all2. rewrite length_firstn. lia. }
  destruct (replay_matches _ s0 H0 Hh0 Hover0) as (t & Ht & Hc).
  exists s0. split; [exact H0 |].
  unfold Hook.undoMove, Hook.replayWithoutLastTwo. fold gs. fold h.
  destruct (List.length h <? 2)%nat eqn:E;
    [apply Nat.ltb_lt in E; lia |].
  rewrite Ht. cbn [bind]. rewrite Hc. reflexivity.
Qed.

(** X12. [undoMove] on the state of a game played from the initial state
    by [makeMove], with at least two moves in its history, puts back the
    very state the game was in two moves earlier, status flags included,
    although it replays the history with [applyMove] alone and classifies
    the position only once at the end; it never throws there.  The
    selection and a pending promotion are dropped. *)
Theorem undoMove_restores (st : Hook.State) (ms : list Move) :
  foldM makeMove ms createInitialGameState = Ok (Hook.gameState st) ->
  (2 <= List.length (moveHistory (Hook.gameState st)))%nat ->
  exists s0,
    foldM makeMove
      (firstn (List.length (moveHistory (Hook.gameState st)) - 2)
              (moveHistory (Hook.gameState st)))
      createInitialGameState = Ok s0 /\
    Hook.undoMove st
    = Ok {| Hook.gameState := s0; Hook.selectedPiece := None;
            Hook.aiIsThinking := Hook.aiIsThinking st;
            Hook.promotionMove := None |}.
Proof.
  intros Hplay Hlen.
  destruct (undoMove_played st ms Hplay Hlen) as (s0 & H0 & Hu).
  exists s0. split; [exact H0 | exact Hu].
Qed.

Lemma undoMove_restores_witness :
  exists s0,
    foldM makeMove
      (firstn (List.length (moveHistory (Hook.gameState (hookOf epState None))) - 2)
              (moveHistory (Hook.gameState (hookOf epState None))))
      createInitialGameState = Ok s0 /\
    Hook.undoMove (hookOf epState None)
    = Ok {| Hook.gameState := s0; Hook.selectedPiece := None;
            Hook.aiIsThinking := Hook.aiIsThinking (hookOf epState None);
            Hook.promotionMove := None |}.
Proof.
  apply (undoMove_restores (hookOf epState None) epGame).
  - vm_compute. reflexivity.
  - vm_compute. repeat constructor.
Defined.

(** ** The moves offered for the selected piece *)

Lemma validSquares_back (s : Square) :
  In s validSquares ->
  exists p, squareToPosition s = Some p /\ inBoard p /\
            positionToSquare p = s /\ String.eqb s EmptyString = false.
Proof.
  unfold validSquares; simpl; intros H.
  repeat (destruct H as [<- | H];
          [eexists; split; [reflexivity |
             split; [unfold inBoard; simpl; lia | split; reflexivity]] |]).
  contradiction.
Qed.

Lemma filterM_In {A : Type} (f : A -> outcome bool) (l r : list A) :
  Hook.filterM f l = Ok r ->
  forall x, In x r <-> In x l /\ f x = Ok true.
Proof.
  revert r. induction l as [| a l IH]; intros r H x.
  - injection H as <-. cbn. tauto.
  - cbn [Hook.filterM] in H. apply bind_Ok in H as (keep & Hk & H).
    apply bind_Ok in H as (rest & Hr & H). injection H as <-.
    specialize (IH rest Hr x). destruct keep; cbn [In]; rewrite IH.
    + split; [intros [<- | [H1 H2]]; auto | intros [[<- | H1] H2]; auto].
    + split; [intros [H1 H2]; auto |].
      intros [[<- | H1] H2]; [congruence | auto].
Qed.

Lemma keepsKingSafe_true (gs : GameState) (m : Move) :
  Hook.keepsKingSafe gs m = Ok true
  <-> kingSafeAfter gs (currentPlayer gs) m \/
      exists s', applyMove gs m = Ok s' /\
                 findKing (board s') (currentPlayer gs) = Ok None.
Proof.
  unfold Hook.keepsKingSafe, kingSafeAfter. split.
  - intros H. apply bind_Ok in H as (s' & Hs & H).
    apply bind_Ok in H as (ks & Hk & H). destruct ks as [k |].
    + apply bind_Ok in H as (att & Ha & H). injection H as H.
      apply negb_true_iff in H. subst att. left. exists s', k. auto.
    + right. exists s'. auto.
  - intros [(s' & k & -> & Hk & Ha) | (s' & -> & Hk)]; cbn [bind];
      rewrite Hk; cbn [bind]; [rewrite Ha |]; reflexivity.
Qed.

(** X13. The moves the hook offers for the selected piece against the
    legal moves of [getAllValidMoves], on a well-formed state with one of
    the 64 squares selected and no promotion pending: every legal move of
    the side to move that starts on the selected square is offered; and
    an offered move starts on the selected square and is legal, unless it
    leaves the mover with no king on the board, in which case the hook
    keeps it and [getAllValidMoves] drops it. *)
Theorem validMoves_offers_legal (st : Hook.State) (sel : Square)
    (offered legal : list Move) (m : Move) :
  wellFormed (Hook.gameState st) ->
  In sel validSquares ->
  Hook.selectedPiece st = Some sel ->
  Hook.promotionMove st = None ->
  Hook.validMoves st = Ok offered ->
  getAllValidMoves (Hook.gameState st) (currentPlayer (Hook.gameState st))
  = Ok legal ->
  (In m legal /\ from m = sel -> In m offered) /\
  (In m offered ->
   from m = sel /\
   (In m legal \/
    exists s', applyMove (Hook.gameState st) m = Ok s' /\
               findKing (board s') (currentPlayer (Hook.gameState st))
               = Ok None)).
Proof.
  intros Hwf Hsel Hs Hp Hv Hl.
  set (gs := Hook.gameState st) in *.
  destruct (validSquares_back sel Hsel) as (pos & Hpos & [Hr Hc] & Hback & Hne).
  assert (Hlegal : In m legal -> from m = sel ->
            exists pm,
              cell (board gs) (row pos) (col pos) = Ok (Some (piece m)) /\
              color (piece m) = currentPlayer gs /\
              getPieceMoves (board gs) sel (piece m) (castlingRights gs)
                (enPassantTarget gs) false = Ok pm /\
              In m pm /\ kingSafeAfter gs (currentPlayer gs) m).
  { intros Hin Hfrom.
    destruct (legal_move_generated gs _ legal m Hwf Hl Hin)
      as (r & c & pm & Hr' & Hc' & Hcell & Hcol & Hgen & Hinp & Hshape & Hsafe).
    destruct Hshape as (Hf & _).
    assert (Heq : pos = {| row := r; col := c |}).
    { rewrite Hfrom in Hf. rewrite Hf in Hpos.
      rewrite squareToPosition_positionToSquare in Hpos by assumption.
      congruence. }
    subst pos. cbn [row col] in *. rewrite <- Hf, Hfrom in Hgen.
    exists pm. auto. }
  unfold Hook.validMoves in Hv. fold gs in Hv. rewrite Hs, Hp in Hv.
  cbn [Hook.isSet isSome] in Hv. rewrite Hne, Hpos in Hv. cbn in Hv.
  apply bind_Ok in Hv as (x & Hx & Hv).
  destruct x as [pc |].
  - destruct (PieceColor_eqb (color pc) (currentPlayer gs)) eqn:Ecol;
      cbn [negb] in Hv.
    + apply bind_Ok in Hv as (allMoves & Hall & Hv).
      pose proof (filterM_In _ _ _ Hv m) as Hiff.
      split.
      * intros [Hin Hfrom].
        destruct (Hlegal Hin Hfrom) as (pm & Hcell & _ & Hgen & Hinp & Hsafe).
        assert (piece m = pc) by congruence. subst pc.
        assert (pm = allMoves) by congruence. subst pm.
        apply Hiff. split; [exact Hinp |].
        apply keepsKingSafe_true. left. exact Hsafe.
      * intros Hin. apply Hiff in Hin as [Hin Hkeep].
        rewrite <- Hback in Hall.
        pose proof (getPieceMovesWith_shape isSquareAttacked (board gs)
                      (proj1 Hwf) (row pos) (col pos) pc Hr Hc Hx
                      (castlingRights gs) (enPassantTarget gs) false
                      allMoves (proj2 Hwf)) as Hshape.
        destruct pos as [r c]. cbn [row col] in *.
        specialize (Hshape Hall).
        rewrite Forall_forall in Hshape.
        destruct (Hshape m Hin) as (Hf & Hpm & _).
        split; [rewrite Hf; exact Hback |].
        apply keepsKingSafe_true in Hkeep as [Hsafe | Hgone];
          [left | right; exact Hgone].
        apply (getAllValidMoves_iff gs _ legal m Hl).
        exists r, c, pc, allMoves.
        apply PieceColor_eqb_eq in Ecol.
        repeat split; try assumption; apply idx8_In; assumption.
    + injection Hv as <-. split; [| intros []].
      intros [Hin Hfrom].
      destruct (Hlegal Hin Hfrom) as (pm & Hcell & Hcol & _).
      assert (piece m = pc) by congruence. subst pc.
      rewrite Hcol in Ecol. destruct (currentPlayer gs); discriminate.
  - injection Hv as <-. split; [| intros []].
    intros [Hin Hfrom].
    destruct (Hlegal Hin Hfrom) as (pm & Hcell & _). congruence.
Qed.

Lemma validMoves_offers_legal_witness :
  (In e2e4 initialWhiteMoves /\ from e2e4 = "e2" ->
   In e2e4 [mkMove "e2" "e3" (mkPiece pawn white); e2e4]) /\
  (In e2e4 [mkMove "e2" "e3" (mkPiece pawn white); e2e4] ->
   from e2e4 = "e2" /\
   (In e2e4 initialWhiteMoves \/
    exists s', applyMove createInitialGameState e2e4 = Ok s' /\
               findKing (board s') white = Ok None)).
Proof.
  apply (validMoves_offers_legal (hookOf createInitialGameState (Some "e2")) "e2"
           [mkMove "e2" "e3" (mkPiece pawn white); e2e4] initialWhiteMoves e2e4).
  - split; [reflexivity | exact I].
  - vm_compute. tauto.
  - reflexivity.
  - reflexivity.
  - vm_compute. reflexivity.
  - vm_compute. reflexivity.
Defined.

(** ** Clicks *)

Lemma hook_makeMove_Ok (st : Hook.State) (m : Move) (st' : Hook.State) :
  Hook.makeMove st m = Ok st' ->
  makeMove (Hook.gameState st) m = Ok (Hook.gameState st') /\
  Hook.aiIsThinking st' = Hook.aiIsThinking st /\
  Hook.promotionMove st' = Hook.promotionMove st /\
  (isGameOver (Hook.gameState st) = false -> Hook.selectedPiece st' = None).
Proof.
  unfold Hook.makeMove, makeMove.
  destruct (isGameOver (Hook.gameState st)).
  - intros H. injection H as <-. repeat split. discriminate.
  - intros H. apply bind_Ok in H as (s1 & H1 & H).
    apply bind_Ok in H as (s2 & H2 & H). injection H as <-.
    rewrite H1. cbn [bind]. rewrite H2. repeat split.
Qed.

(** X14. What a click on a square can do.  [aiIsThinking] is left alone.
    Either the game state and the pending promotion are as before (only
    the selection may have changed); or the game is not over, white is to
    move, no promotion is pending, a piece is selected, and the first
    offered move that ends on the clicked square is taken: when it
    carries a promotion it is parked as the pending promotion and the
    game state stays, otherwise the new game state is what [makeMove]
    makes of it; in both cases the selection is dropped. *)
Theorem click_outcomes (st : Hook.State) (square : Square) (st' : Hook.State) :
  Hook.handleSquareClick st square = Ok st' ->
  Hook.aiIsThinking st' = Hook.aiIsThinking st /\
  ((Hook.gameState st' = Hook.gameState st /\
    Hook.promotionMove st' = Hook.promotionMove st)
   \/
   exists offered m,
     isGameOver (Hook.gameState st) = false /\
     currentPlayer (Hook.gameState st) = white /\
     Hook.promotionMove st = None /\
     Hook.isSet (Hook.selectedPiece st) = true /\
     Hook.validMoves st = Ok offered /\
     find (fun m => String.eqb (to m) square) offered = Some m /\
     Hook.selectedPiece st' = None /\
     ((isSome (promotion m) = true /\
       Hook.gameState st' = Hook.gameState st /\
       Hook.promotionMove st' = Some m)
      \/
      (promotion m = None /\
       makeMove (Hook.gameState st) m = Ok (Hook.gameState st') /\
       Hook.promotionMove st' = None))).
Proof.
  unfold Hook.handleSquareClick. intros H.
  apply bind_Ok in H as (rendered & Hv & H).
  destruct (isGameOver (Hook.gameState st)) eqn:Hover;
    [injection H as <-; auto |].
  destruct (PieceColor_eqb (currentPlayer (Hook.gameState st)) black) eqn:Hblack;
    [injection H as <-; auto |].
  destruct (Hook.promotionMove st) as [pm |] eqn:Hpm;
    [injection H as <-; auto |].
  cbn [orb isSome] in H.
  destruct (Hook.isSquare (Hook.selectedPiece st) square);
    [injection H as <-; auto |].
  destruct (squareToPosition square) as [pos |]; [| discriminate].
  apply bind_Ok in H as (x & _ & H).
  destruct (Hook.isSet (Hook.selectedPiece st)) eqn:Hset.
  - destruct (find (fun m => String.eqb (to m) square) rendered)
      as [move |] eqn:Hfind.
    + assert (Hwhite : currentPlayer (Hook.gameState st) = white)
        by (destruct (currentPlayer (Hook.gameState st));
            [reflexivity | discriminate]).
      rewrite Hwhite in H. cbn [PieceColor_eqb] in H.
      rewrite andb_true_r in H.
      destruct (isSome (promotion move)) eqn:Hprom.
      * injection H as <-. split; [reflexivity |]. right.
        exists rendered, move. cbn.
        repeat split; try assumption; try reflexivity.
        left. split; [exact Hprom | split; reflexivity].
      * apply hook_makeMove_Ok in H as (Hmk & Hai & Hp' & Hsel).
        split; [exact Hai |]. right.
        exists rendered, move.
        repeat split; try assumption; try reflexivity.
        -- apply Hsel. exact Hover.
        -- right. destruct (promotion move); [discriminate |].
           repeat split; [exact Hmk | congruence].
    + injection H as <-. auto.
  - destruct (hasColor (currentPlayer (Hook.gameState st)) x);
      injection H as <-; auto.
Qed.

Lemma click_outcomes_witness :
  exists st',
    Hook.handleSquareClick (hookOf createInitialGameState (Some "e2")) "e4"
    = Ok st' /\
    Hook.aiIsThinking st' = false /\
    Hook.gameState st' = afterE2E4_checked.
Proof.
  assert (H : exists st',
             Hook.handleSquareClick (hookOf createInitialGameState (Some "e2"))
                                    "e4" = Ok st' /\
             Hook.gameState st' = afterE2E4_checked).
  { eexists. split; vm_compute; reflexivity. }
  destruct H as (st' & H & Hgs). exists st'.
  split; [exact H |]. split; [| exact Hgs].
  exact (proj1 (click_outcomes _ _ _ H)).
Defined.

(** X15. Choosing the piece of a pending promotion in a game that is not
    over, for a parked move between two of the 64 squares that is neither
    castling nor en passant: the new game state is what [makeMove] makes
    of the parked move with the chosen type as its promotion, the
    destination then holds a piece of the chosen type in the mover's
    colour, whatever type was chosen, and no promotion is pending any
    more. *)
Theorem promotion_choice_places_piece (st : Hook.State) (pm : Move)
    (t : PieceType) (st' : Hook.State) :
  Hook.promotionMove st = Some pm ->
  isGameOver (Hook.gameState st) = false ->
  goodMove pm -> castling pm = None -> truthy (enPassant pm) = false ->
  Hook.handlePromotionChoice st t = Ok st' ->
  Hook.promotionMove st' = None /\ Hook.selectedPiece st' = None /\
  makeMove (Hook.gameState st) (Hook.withPromotion pm t)
  = Ok (Hook.gameState st') /\
  exists tp,
    squareToPosition (to pm) = Some tp /\
    cell (board (Hook.gameState st')) (row tp) (col tp)
    = Ok (Some {| type := t; color := color (piece pm) |}).
Proof.
  intros Hpm Hover [Hgf Hgt] Hcas Hep H.
  unfold Hook.handlePromotionChoice in H. rewrite Hpm in H.
  apply bind_Ok in H as (st1 & H1 & H). injection H as <-.
  apply hook_makeMove_Ok in H1 as (Hmk & _ & _ & Hsel).
  cbn [Hook.promotionMove Hook.selectedPiece Hook.gameState].
  split; [reflexivity |]. split; [exact (Hsel Hover) |].
  split; [exact Hmk |].
  unfold makeMove in Hmk. rewrite Hover in Hmk.
  apply bind_Ok in Hmk as (s1 & Ha & Hc).
  apply checkGameStatus_frame in Hc as (Hb & _). rewrite Hb.
  apply applyMove_Ok in Ha as (nb & fp & tp & Hmb & Hf & Ht & -> & _).
  cbn [Hook.withPromotion from to] in Hf, Ht.
  destruct (validSquares_on_board _ Hgf) as (fp' & Hf' & [_ Hcf]).
  destruct (validSquares_on_board _ Hgt) as (tp' & Ht' & [_ Hct]).
  assert (fp' = fp) by congruence. assert (tp' = tp) by congruence.
  subst fp' tp'.
  exists tp. split; [exact Ht |].
  rewrite (moveBoard_no_castling (board (Hook.gameState st))
             (Hook.withPromotion pm t) nb fp tp Hf Ht
             ltac:(lia) ltac:(lia) Hcas Hmb).
  cbn [Hook.withPromotion enPassant]. rewrite Hep. cbn [andb].
  unfold at_. rewrite !Z.eqb_refl. reflexivity.
Qed.

Lemma promotion_choice_places_piece_witness :
  exists st',
    Hook.handlePromotionChoice promoPending knight = Ok st' /\
    Hook.promotionMove st' = None /\
    cell (board (Hook.gameState st')) 0 7 = Ok (Some (mkPiece knight white)).
Proof.
  assert (H : exists st',
             Hook.handlePromotionChoice promoPending knight = Ok st')
    by (eexists; vm_compute; reflexivity).
  destruct H as (st' & H). exists st'. split; [exact H |].
  assert (Hgood : goodMove promoMove) by (split; vm_compute; tauto).
  destruct (promotion_choice_places_piece promoPending promoMove knight st'
              eq_refl eq_refl Hgood eq_refl eq_refl H)
    as (Hp & _ & _ & tp & Htp & Hcell).
  split; [exact Hp |].
  injection Htp as <-. exact Hcell.
Defined.

(** ** The automated side *)

Section AiTurn.

Variable rng : Type.
Variable Math_random : rng -> Q * rng.
Variable sortRandom : rng -> list Move -> list Move * rng.
Hypothesis sortRandom_perm :
  forall g l, Permutation (fst (sortRandom g l)) l.

Lemma aiTimer_total (fuel : nat) (g : rng) (st : Hook.State) :
  wellFormed (Hook.gameState st) -> (3 <= fuel)%nat ->
  exists st' g' legal,
    Hook.aiTimer rng Math_random sortRandom fuel g st = Ok (st', g') /\
    Hook.aiIsThinking st' = false /\
    getAllValidMoves (Hook.gameState st) (currentPlayer (Hook.gameState st))
    = Ok legal /\
    ((legal = [] /\ Hook.gameState st' = Hook.gameState st) \/
     exists m, In m legal /\
               makeMove (Hook.gameState st) m = Ok (Hook.gameState st')) /\
    Hook.promotionMove st' = Hook.promotionMove st /\
    (Hook.selectedPiece st' = Hook.selectedPiece st \/
     Hook.selectedPiece st' = None).
Proof.
  intros Hwf Hfuel. unfold Hook.aiTimer.
  destruct (getBestMove_total rng Math_random sortRandom sortRandom_perm
              fuel g (Hook.gameState st) 3 Hwf ltac:(lia) ltac:(cbn; lia))
    as (r & g' & Hbest).
  destruct (getBestMove_result rng Math_random sortRandom sortRandom_perm
              fuel g (Hook.gameState st) 3 r g' Hbest)
    as (legal & Hlegal & Hnone & Hsome).
  rewrite Hbest. cbn [bind].
  destruct r as [m |].
  - specialize (Hsome m eq_refl).
    pose proof (legal_move_child _ _ _ Hwf Hlegal) as Hch.
    rewrite Forall_forall in Hch.
    destruct (Hch m Hsome) as (s1 & Hs1 & Hwf1).
    destruct (checkGameStatus_total s1 Hwf1) as (s2 & Hs2).
    unfold Hook.makeMove.
    destruct (isGameOver (Hook.gameState st)) eqn:Hover; cbn [bind].
    + eexists _, g', legal. split; [reflexivity |].
      split; [reflexivity |]. split; [exact Hlegal |].
      split; [| split; [reflexivity | left; reflexivity]].
      right. exists m. split; [exact Hsome |].
      unfold makeMove. rewrite Hover. reflexivity.
    + rewrite Hs1. cbn [bind]. rewrite Hs2. cbn [bind].
      eexists _, g', legal. split; [reflexivity |].
      split; [reflexivity |]. split; [exact Hlegal |].
      split; [| split; [reflexivity | right; reflexivity]].
      right. exists m. split; [exact Hsome |].
      unfold makeMove. rewrite Hover, Hs1. cbn [bind]. exact Hs2.
  - eexists _, g', legal. split; [reflexivity |].
    split; [reflexivity |]. split; [exact Hlegal |].
    split; [| split; [reflexivity | left; reflexivity]].
    left. split; [apply Hnone; reflexivity | reflexivity].
Qed.

(** X16. The timer callback of the automated side, on a well-formed game
    state, whatever the random numbers and however the sort shuffles:
    it returns without throwing and lowers [aiIsThinking]; when the side
    to move has no legal move the game state is left as it is, and
    otherwise the new game state is what [makeMove] makes of one of the
    legal moves of [getAllValidMoves]. *)
Theorem aiTimer_plays_legal (fuel : nat) (g : rng) (st : Hook.State) :
  wellFormed (Hook.gameState st) -> (3 <= fuel)%nat ->
  exists st' g' legal,
    Hook.aiTimer rng Math_random sortRandom fuel g st = Ok (st', g') /\
    Hook.aiIsThinking st' = false /\
    getAllValidMoves (Hook.gameState st) (currentPlayer (Hook.gameState st))
    = Ok legal /\
    ((legal = [] /\ Hook.gameState st' = Hook.gameState st) \/
     exists m, In m legal /\
               makeMove (Hook.gameState st) m = Ok (Hook.gameState st')).
Proof.
  intros Hwf Hfuel.
  destruct (aiTimer_total fuel g st Hwf Hfuel)
    as (st' & g' & legal & Hrun & Hai & Hlegal & Hstate & _).
  exists st', g', legal.
  split; [exact Hrun |]. split; [exact Hai |]. split; [exact Hlegal | exact Hstate].
Qed.

End AiTurn.

Lemma aiTimer_plays_legal_witness :
  exists st' g' legal,
    Hook.aiTimer unit constHalf keepOrder 3 tt (hookOf afterE2E4_checked None)
    = Ok (st', g') /\
    Hook.aiIsThinking st' = false /\
    getAllValidMoves afterE2E4_checked (currentPlayer afterE2E4_checked)
    = Ok legal /\
    ((legal = [] /\ Hook.gameState st' = afterE2E4_checked) \/
     exists m, In m legal /\
               makeMove afterE2E4_checked m = Ok (Hook.gameState st')).
Proof.
  apply (aiTimer_plays_legal unit constHalf keepOrder
           (fun g l => Permutation_refl l) 3 tt (hookOf afterE2E4_checked None)).
  - apply (played_game_wellFormed [e2e4]). vm_compute. reflexivity.
  - apply le_n.
Defined.

(** ** The board and the side panel *)

Lemma cellSquare_eq (rowIndex colIndex : Z) :
  0 <= rowIndex < 8 -> 0 <= colIndex < 8 ->
  cellSquare rowIndex colIndex
  = positionToSquare {| row := rowIndex; col := colIndex |}.
Proof.
  intros Hr Hc.
  assert (Hr' : rowIndex = 0 \/ rowIndex = 1 \/ rowIndex = 2 \/ rowIndex = 3 \/
                rowIndex = 4 \/ rowIndex = 5 \/ rowIndex = 6 \/ rowIndex = 7)
    by lia.
  assert (Hc' : colIndex = 0 \/ colIndex = 1 \/ colIndex = 2 \/ colIndex = 3 \/
                colIndex = 4 \/ colIndex = 5 \/ colIndex = 6 \/ colIndex = 7)
    by lia.
  repeat (destruct Hr' as [-> | Hr']);
    repeat (destruct Hc' as [-> | Hc']); subst; reflexivity.
Qed.

(** X17. The identifier the board component gives the cell in row
    [rowIndex] and column [colIndex] of the grid, for indices 0 to 7, is
    the square [positionToSquare] names for that position, one of the 64
    squares, and [squareToPosition] takes it back to that row and column:
    a click reaches the hook with the square of the cell that was
    clicked. *)
Theorem cellSquare_names_cell (rowIndex colIndex : Z) :
  0 <= rowIndex < 8 -> 0 <= colIndex < 8 ->
  cellSquare rowIndex colIndex
  = positionToSquare {| row := rowIndex; col := colIndex |} /\
  In (cellSquare rowIndex colIndex) validSquares /\
  squareToPosition (cellSquare rowIndex colIndex)
  = Some {| row := rowIndex; col := colIndex |}.
Proof.
  intros Hr Hc. rewrite (cellSquare_eq rowIndex colIndex Hr Hc).
  split; [reflexivity |].
  split; [apply positionToSquare_valid; assumption
         | apply squareToPosition_positionToSquare; assumption].
Qed.

Lemma cellSquare_names_cell_witness :
  cellSquare 6 4 = positionToSquare {| row := 6; col := 4 |} /\
  In (cellSquare 6 4) validSquares /\
  squareToPosition (cellSquare 6 4) = Some {| row := 6; col := 4 |}.
Proof.
  apply (cellSquare_names_cell 6 4); lia.
Defined.

Lemma count_repeat (t t' : PieceType) (clr : PieceColor) (n : nat) :
  List.length (filter (fun p => PieceType_eqb (type p) t)
                      (repeat {| type := t'; color := clr |} n))
  = if PieceType_eqb t' t then n else 0%nat.
Proof.
  induction n as [| n IH]; cbn [repeat filter type].
  - destruct (PieceType_eqb t' t); reflexivity.
  - destruct (PieceType_eqb t' t); cbn [List.length]; rewrite IH; reflexivity.
Qed.

(** X18. The list of captured pieces the side panel shows for a colour
    holds, for each piece type, as many pieces as the board is short of
    the initial count of that type, none when the board has that many or
    more, and every piece in it has that colour: it is computed from the
    board alone, as what is missing from it. *)
Theorem captured_pieces_count (b : Board) (clr : PieceColor) (t : PieceType) :
  List.length (filter (fun p => PieceType_eqb (type p) t)
                      (getCapturedPieces b clr))
  = Z.to_nat (initialCounts t - currentCount b clr t) /\
  Forall (fun p => color p = clr) (getCapturedPieces b clr).
Proof.
  unfold getCapturedPieces, countedTypes. cbn [fold_left app].
  split.
  - rewrite !filter_app, !length_app, !count_repeat.
    destruct t; cbn [PieceType_eqb]; lia.
  - repeat (apply Forall_app; split);
      apply Forall_forall; intros p Hp; apply repeat_spec in Hp;
      subst p; reflexivity.
Qed.

(** X19. The label of a move in the history is one letter followed by the
    destination square, and the letter is K exactly for the moves of a
    knight and the moves of a king. *)
Theorem moveLabel_letter (m : Move) :
  exists c, moveLabel m = String c (to m) /\
            (c = "K"%char <->
             type (piece m) = knight \/ type (piece m) = king).
Proof.
  unfold moveLabel. destruct (type (piece m)); cbn; eexists;
    (split; [reflexivity |]);
    (split; [intros H; try discriminate H; auto
            | intros [H | H]; try discriminate H; reflexivity]).
Qed.

(** X20. In a game played from the initial state by [makeMove] the status
    line is empty exactly when the side to move is not in check and the
    game is not over. *)
Theorem status_message_none (ms : list Move) (s : GameState) :
  foldM makeMove ms createInitialGameState = Ok s ->
  (gameStatusMessage s = None
   <-> isCheck s = false /\ isGameOver s = false).
Proof.
  intros H. destruct (played_game_flagsConsistent ms s H) as [Hover _].
  unfold gameStatusMessage. rewrite Hover.
  destruct (isCheckmate s), (isStalemate s), (isCheck s); cbn;
    split; try (intros [? ?]); try intros ?; try discriminate; auto.
Qed.

Lemma status_message_none_witness :
  gameStatusMessage epState = None
  <-> isCheck epState = false /\ isGameOver epState = false.
Proof.
  apply (status_message_none epGame epState). vm_compute. reflexivity.
Defined.

(** ** Pruning *)

Lemma num_leb_refl (a : num) : num_leb a a = true.
Proof.
  destruct a; cbn; try reflexivity. apply Qle_bool_iff. apply Qle_refl.
Qed.

Lemma num_leb_trans (a b c : num) :
  num_leb a b = true -> num_leb b c = true -> num_leb a c = true.
Proof.
  destruct a, b, c; cbn; try reflexivity; try discriminate.
  rewrite !Qle_bool_iff. apply Qle_trans.
Qed.

Lemma num_leb_total (a b : num) : num_leb a b = false -> num_leb b a = true.
Proof.
  destruct a, b; cbn; try reflexivity; try discriminate.
  intros H. apply Qle_bool_iff. destruct (Qlt_le_dec q0 q) as [Hlt | Hle].
  - apply Qlt_le_weak; exact Hlt.
  - apply Qle_bool_iff in Hle. congruence.
Qed.

Lemma num_leb_NegInf (a : num) : num_leb NegInf a = true.
Proof. reflexivity. Qed.

Lemma num_leb_PosInf (a : num) : num_leb a PosInf = true.
Proof. destruct a; reflexivity. Qed.

(** Closing the comparisons at hand under totality and transitivity. *)
Ltac ord_sat :=
  repeat match goal with
         | H : num_leb ?a ?b = false |- _ =>
             lazymatch goal with
             | _ : num_leb b a = true |- _ => fail
             | _ => pose proof (num_leb_total a b H)
             end
         end;
  repeat match goal with
         | H1 : num_leb ?a ?b = true, H2 : num_leb ?b ?c = true |- _ =>
             lazymatch goal with
             | _ : num_leb a c = true |- _ => fail
             | _ => pose proof (num_leb_trans a b c H1 H2)
             end
         end.

Ltac ord_contra :=
  match goal with
  | H : false = true |- _ => discriminate H
  | H : true = false |- _ => discriminate H
  | _ =>
      ord_sat;
      match goal with
      | H1 : ?x = true, H2 : ?x = false |- _ =>
          exfalso; rewrite H1 in H2; discriminate H2
      end
  end.

Ltac ord_close :=
  first
    [ assumption
    | apply num_leb_refl
    | apply num_leb_NegInf
    | apply num_leb_PosInf
    | ord_contra
    | match goal with
      | |- num_leb ?a ?b = true =>
          let G := fresh "G" in
          assert (G : num_leb a b = true \/ num_leb a b = false)
            by (destruct (num_leb a b); auto);
          destruct G as [G | G]; [exact G | ord_contra]
      | |- num_leb ?a ?b = false =>
          let G := fresh "G" in
          assert (G : num_leb a b = true \/ num_leb a b = false)
            by (destruct (num_leb a b); auto);
          destruct G as [G | G]; [ord_contra | exact G]
      end ].

Ltac ord_cases :=
  unfold num_max, num_min in *;
  repeat match goal with
         | H : context [if num_leb ?x ?y then _ else _] |- _ =>
             destruct (num_leb x y) eqn:?
         | |- context [if num_leb ?x ?y then _ else _] =>
             destruct (num_leb x y) eqn:?
         end.

Ltac ord_impl :=
  repeat match goal with
         | H : true = true -> _ |- _ => specialize (H eq_refl)
         | H : false = false -> _ |- _ => specialize (H eq_refl)
         | H : true = false -> _ |- _ => clear H
         | H : false = true -> _ |- _ => clear H
         | H : num_leb ?a ?b = _ -> _ |- _ => destruct (num_leb a b) eqn:?
         | H : _ /\ _ |- _ => destruct H
         end.

Ltac ord_infinities :=
  repeat match goal with
         | x : num |- _ =>
             lazymatch goal with
             | _ : num_leb NegInf x = true |- _ => fail
             | _ => pose proof (num_leb_NegInf x); pose proof (num_leb_PosInf x)
             end
         end.

Lemma within_refl (v alpha beta : num) : within v v alpha beta.
Proof.
  unfold within, num_eq. repeat split; auto using num_leb_refl.
Qed.

Lemma within_full (v e : num) : within v e NegInf PosInf -> num_eq v e.
Proof.
  unfold within, num_eq. intros H. ord_infinities. ord_impl;
    split; ord_close.
Qed.

Lemma maxInv_init (alpha beta : num) :
  num_leb beta alpha = false -> maxInv alpha beta NegInf NegInf alpha.
Proof.
  unfold maxInv, num_eq. intros H. split; [exact H |].
  left. repeat split; ord_close.
Qed.

Lemma maxInv_continue (alpha beta M Mp a v e : num) :
  maxInv alpha beta M Mp a -> within v e a beta ->
  num_leb beta (num_max a v) = false ->
  maxInv alpha beta (num_max M v) (num_max Mp e) (num_max a v).
Proof.
  unfold maxInv, within, num_eq.
  intros [Hab Hinv] (H1 & H2 & H3) Hnb.
  split; [exact Hnb |].
  destruct Hinv as [(I1 & I2 & I3 & I4) | (I1 & (I2 & I2') & I3 & I4)];
    ord_impl; ord_cases; try ord_contra;
    first [ left; repeat split; ord_close
          | right; repeat split; ord_close ].
Qed.

Lemma maxInv_break (alpha beta M Mp a v e E : num) :
  maxInv alpha beta M Mp a -> within v e a beta ->
  num_leb beta (num_max a v) = true ->
  num_leb (num_max Mp e) E = true ->
  within (num_max M v) E alpha beta.
Proof.
  unfold maxInv, within, num_eq.
  intros [Hab Hinv] (H1 & H2 & H3) Hb HE.
  destruct Hinv as [(I1 & I2 & I3 & I4) | (I1 & (I2 & I2') & I3 & I4)];
    ord_impl; ord_cases; try ord_contra;
    (split; [intros ? | split; [intros ? | intros ? ?; split]]);
    ord_close.
Qed.

Lemma maxInv_end (alpha beta M Mp a : num) :
  maxInv alpha beta M Mp a -> within M Mp alpha beta.
Proof.
  unfold maxInv, within, num_eq.
  intros [Hab Hinv].
  destruct Hinv as [(I1 & I2 & I3 & I4) | (I1 & (I2 & I2') & I3 & I4)];
    (split; [intros ? | split; [intros ? | intros ? ?; split]]);
    ord_close.
Qed.

Lemma minInv_init (alpha beta : num) :
  num_leb beta alpha = false -> minInv alpha beta PosInf PosInf beta.
Proof.
  unfold minInv, num_eq. intros H. split; [exact H |].
  left. repeat split; ord_close.
Qed.

Lemma minInv_continue (alpha beta M Mp b v e : num) :
  minInv alpha beta M Mp b -> within v e alpha b ->
  num_leb (num_min b v) alpha = false ->
  minInv alpha beta (num_min M v) (num_min Mp e) (num_min b v).
Proof.
  unfold minInv, within, num_eq.
  intros [Hab Hinv] (H1 & H2 & H3) Hnb.
  split; [exact Hnb |].
  destruct Hinv as [(I1 & I2 & I3 & I4) | (I1 & (I2 & I2') & I3 & I4)];
    ord_impl; ord_cases; try ord_contra;
    first [ left; repeat split; ord_close
          | right; repeat split; ord_close ].
Qed.

Lemma minInv_break (alpha beta M Mp b v e E : num) :
  minInv alpha beta M Mp b -> within v e alpha b ->
  num_leb (num_min b v) alpha = true ->
  num_leb E (num_min Mp e) = true ->
  within (num_min M v) E alpha beta.
Proof.
  unfold minInv, within, num_eq.
  intros [Hab Hinv] (H1 & H2 & H3) Hb HE.
  destruct Hinv as [(I1 & I2 & I3 & I4) | (I1 & (I2 & I2') & I3 & I4)];
    ord_impl; ord_cases; try ord_contra;
    (split; [intros ? | split; [intros ? | intros ? ?; split]]);
    ord_close.
Qed.

Lemma minInv_end (alpha beta M Mp b : num) :
  minInv alpha beta M Mp b -> within M Mp alpha beta.
Proof.
  unfold minInv, within, num_eq.
  intros [Hab Hinv].
  destruct Hinv as [(I1 & I2 & I3 & I4) | (I1 & (I2 & I2') & I3 & I4)];
    (split; [intros ? | split; [intros ? | intros ? ?; split]]);
    ord_close.
Qed.

Lemma foldM_max_ge (f : Move -> outcome num) (moves : list Move) :
  forall best E,
    foldM (fun best move => e <- f move ;; Ok (num_max best e)) moves best
    = Ok E ->
    num_leb best E = true.
Proof.
  induction moves as [| m moves IH]; intros best E H.
  - injection H as <-. apply num_leb_refl.
  - cbn [foldM] in H. apply bind_Ok in H as (b1 & H1 & H).
    apply bind_Ok in H1 as (e & _ & H1). injection H1 as <-.
    apply IH in H. ord_cases; ord_close.
Qed.

Lemma foldM_min_le (f : Move -> outcome num) (moves : list Move) :
  forall best E,
    foldM (fun best move => e <- f move ;; Ok (num_min best e)) moves best
    = Ok E ->
    num_leb E best = true.
Proof.
  induction moves as [| m moves IH]; intros best E H.
  - injection H as <-. apply num_leb_refl.
  - cbn [foldM] in H. apply bind_Ok in H as (b1 & H1 & H).
    apply bind_Ok in H1 as (e & _ & H1). injection H1 as <-.
    apply IH in H. ord_cases; ord_close.
Qed.

Section Pruning.

Variable rng : Type.
Variable Math_random : rng -> Q * rng.
Variable jitter : Q.
Hypothesis Math_random_constant : forall g, fst (Math_random g) = jitter.

Lemma evaluatePosition_static (g : rng) (s : GameState) (e : num) :
  staticValue jitter s = Ok e ->
  exists g', evaluatePosition rng Math_random g s = Ok (e, g').
Proof.
  unfold staticValue, evaluatePosition. intros H.
  apply bind_Ok in H as (score & -> & H). injection H as <-. cbn [bind].
  pose proof (Math_random_constant g) as Hj.
  destruct (Math_random g) as [x g']. cbn [fst] in Hj. subst x.
  exists g'. reflexivity.
Qed.

Variable s : GameState.
Variable val : GameState -> outcome num.
Variable child : rng -> GameState -> num -> num -> outcome (num * rng).
Variables alpha beta : num.

Lemma maxLoop_within :
  (forall cs e g a,
     val cs = Ok e -> num_leb beta a = false ->
     exists v g', child g cs a beta = Ok (v, g') /\ within v e a beta) ->
  forall moves M Mp a g E,
    maxInv alpha beta M Mp a ->
    foldM (fun best move =>
             e <- (childState <- applyMove s move ;; val childState) ;;
             Ok (num_max best e)) moves Mp = Ok E ->
    exists v g',
      maxLoop rng child s moves M a beta g = Ok (v, g') /\
      within v E alpha beta.
Proof.
  intros Hchild. induction moves as [| m moves IH]; intros M Mp a g E Hinv H.
  - injection H as <-. exists M, g. split; [reflexivity |].
    exact (maxInv_end _ _ _ _ _ Hinv).
  - cbn [foldM] in H. apply bind_Ok in H as (b1 & H1 & H).
    apply bind_Ok in H1 as (e & He & H1). injection H1 as <-.
    apply bind_Ok in He as (cs & Hcs & He).
    destruct (Hchild cs e g a He (proj1 Hinv)) as (v & g1 & Hv & Hw).
    cbn [maxLoop]. rewrite Hcs. cbn [bind]. rewrite Hv. cbn [bind].
    destruct (num_leb beta (num_max a v)) eqn:Hb.
    + exists (num_max M v), g1. split; [reflexivity |].
      apply (maxInv_break alpha beta M Mp a v e E Hinv Hw Hb).
      exact (foldM_max_ge _ _ _ _ H).
    + apply (IH _ (num_max Mp e) _ g1 E); [| exact H].
      exact (maxInv_continue _ _ _ _ _ _ _ Hinv Hw Hb).
Qed.

Lemma minLoop_within :
  (forall cs e g b,
     val cs = Ok e -> num_leb b alpha = false ->
     exists v g', child g cs alpha b = Ok (v, g') /\ within v e alpha b) ->
  forall moves M Mp b g E,
    minInv alpha beta M Mp b ->
    foldM (fun best move =>
             e <- (childState <- applyMove s move ;; val childState) ;;
             Ok (num_min best e)) moves Mp = Ok E ->
    exists v g',
      minLoop rng child s moves M alpha b g = Ok (v, g') /\
      within v E alpha beta.
Proof.
  intros Hchild. induction moves as [| m moves IH]; intros M Mp b g E Hinv H.
  - injection H as <-. exists M, g. split; [reflexivity |].
    exact (minInv_end _ _ _ _ _ Hinv).
  - cbn [foldM] in H. apply bind_Ok in H as (b1 & H1 & H).
    apply bind_Ok in H1 as (e & He & H1). injection H1 as <-.
    apply bind_Ok in He as (cs & Hcs & He).
    destruct (Hchild cs e g b He (proj1 Hinv)) as (v & g1 & Hv & Hw).
    cbn [minLoop]. rewrite Hcs. cbn [bind]. rewrite Hv. cbn [bind].
    destruct (num_leb (num_min b v) alpha) eqn:Hb.
    + exists (num_min M v), g1. split; [reflexivity |].
      apply (minInv_break alpha beta M Mp b v e E Hinv Hw Hb).
      exact (foldM_min_le _ _ _ _ H).
    + apply (IH _ (num_min Mp e) _ g1 E); [| exact H].
      exact (minInv_continue _ _ _ _ _ _ _ Hinv Hw Hb).
Qed.

End Pruning.

Lemma bind_assoc {A B C : Type} (x : outcome A) (f : A -> outcome B)
    (k : B -> outcome C) :
  bind (bind x f) k = bind x (fun a => bind (f a) k).
Proof. destruct x; reflexivity. Qed.

Section PruningSound.

Variable rng : Type.
Variable Math_random : rng -> Q * rng.
Variable jitter : Q.
Hypothesis Math_random_constant : forall g, fst (Math_random g) = jitter.

Lemma minimax_within (fuel : nat) :
  forall s depth isMaximizing e,
    fullValue jitter fuel s depth isMaximizing = Ok e ->
    forall g alpha beta,
      num_leb beta alpha = false ->
      exists v g',
        minimax rng Math_random fuel g s depth isMaximizing alpha beta
        = Ok (v, g') /\
        within v e alpha beta.
Proof.
  induction fuel as [| fuel IH]; intros s depth isMaximizing e H g alpha beta Hw;
    [discriminate |].
  cbn [fullValue] in H. cbn [minimax].
  destruct ((depth =? 0) || isGameOver s).
  - unfold leafValue in H.
    destruct (isCheckmate s).
    + injection H as <-. eexists _, g. split; [reflexivity | apply within_refl].
    + destruct (isStalemate s).
      * injection H as <-. eexists _, g.
        split; [reflexivity | apply within_refl].
      * destruct (evaluatePosition_static rng Math_random jitter
                    Math_random_constant g s e H) as (g' & ->).
        exists e, g'. split; [reflexivity | apply within_refl].
  - apply bind_Ok in H as (moves & -> & H). cbn [bind].
    destruct isMaximizing.
    + apply (maxLoop_within rng s
               (fun cs => fullValue jitter fuel cs (depth - 1) false)
               (fun g s a b =>
                  minimax rng Math_random fuel g s (depth - 1) false a b)
               alpha beta) with (Mp := NegInf).
      * intros cs e' g0 a He' Ha. exact (IH cs (depth - 1) false e' He' g0 a beta Ha).
      * apply maxInv_init. exact Hw.
      * rewrite <- H. apply foldM_ext. intros best m.
        rewrite bind_assoc. reflexivity.
    + apply (minLoop_within rng s
               (fun cs => fullValue jitter fuel cs (depth - 1) true)
               (fun g s a b =>
                  minimax rng Math_random fuel g s (depth - 1) true a b)
               alpha beta) with (Mp := PosInf).
      * intros cs e' g0 b He' Hb. exact (IH cs (depth - 1) true e' He' g0 alpha b Hb).
      * apply minInv_init. exact Hw.
      * rewrite <- H. apply foldM_ext. intros best m.
        rewrite bind_assoc. reflexivity.
Qed.

(** X21. Pruning does not change the value.  Let [Math.random()] return
    the same number at every call, and let the search without window and
    without [break] ([fullValue]) return [e] on a state.  Then [minimax]
    with any window [alpha < beta] returns as well, with a value that is
    at most [alpha] when [e] is, at least [beta] when [e] is, and equal
    to [e] when [e] lies strictly between; with the window from minus
    infinity to infinity, the one [getBestMove] passes, its value is [e]
    itself. *)
Theorem pruning_preserves_value (fuel : nat) (g : rng) (s : GameState)
    (depth : Z) (isMaximizing : bool) (e : num) :
  fullValue jitter fuel s depth isMaximizing = Ok e ->
  (forall alpha beta,
     num_ltb alpha beta = true ->
     exists v g',
       minimax rng Math_random fuel g s depth isMaximizing alpha beta
       = Ok (v, g') /\
       within v e alpha beta) /\
  (exists v g',
     minimax rng Math_random fuel g s depth isMaximizing NegInf PosInf
     = Ok (v, g') /\
     num_eq v e).
Proof.
  intros H. split.
  - intros alpha beta Hlt. unfold num_ltb in Hlt. apply negb_true_iff in Hlt.
    exact (minimax_within fuel s depth isMaximizing e H g alpha beta Hlt).
  - destruct (minimax_within fuel s depth isMaximizing e H g NegInf PosInf
                eq_refl) as (v & g' & Hv & Hw).
    exists v, g'. split; [exact Hv | exact (within_full v e Hw)].
Qed.

End PruningSound.

Lemma pruning_preserves_value_witness :
  exists e v g',
    fullValue (1 # 2) 3 promoState 2 true = Ok e /\
    minimax unit constHalf 3 tt promoState 2 true NegInf PosInf = Ok (v, g') /\
    num_eq v e.
Proof.
  assert (H : exists e, fullValue (1 # 2) 3 promoState 2 true = Ok e)
    by (eexists; vm_compute; reflexivity).
  destruct H as (e & H).
  destruct (proj2 (pruning_preserves_value unit constHalf (1 # 2)
                     (fun _ => eq_refl) 3 tt promoState 2 true e H))
    as (v & g' & Hv & He).
  exists e, v, g'. split; [exact H |]. split; [exact Hv | exact He].
Defined.

Section DeadEnds.

Variable rng : Type.
Variable Math_random : rng -> Q * rng.

(** X22. A state below the root of a search has the status flags of the
    root, so in a search from a game that is not over no state is ever
    seen as over.  A child position in which the side to move has no
    legal move is then, at any depth but 0, given minus infinity when
    that side maximises and infinity when it minimises, whether its king
    is in check or not: a stalemate is scored like a mate. *)
Theorem minimax_dead_end (fuel : nat) (g : rng) (s : GameState) (m : Move)
    (child : GameState) (depth : Z) (isMaximizing : bool) (alpha beta : num) :
  isGameOver s = false ->
  applyMove s m = Ok child ->
  getAllValidMoves child (currentPlayer child) = Ok [] ->
  depth <> 0 ->
  minimax rng Math_random (S fuel) g child depth isMaximizing alpha beta
  = Ok (if isMaximizing then NegInf else PosInf, g).
Proof.
  intros Hover Happ Hnone Hd.
  apply applyMove_Ok in Happ
    as (nb & fp & tp & _ & _ & _ & _ & _ & _ & _ & _ & _ & _ & _ & Hgo).
  cbn [minimax]. rewrite Hgo, Hover.
  destruct (depth =? 0) eqn:E; [apply Z.eqb_eq in E; contradiction |].
  cbn [orb]. rewrite Hnone. cbn [bind].
  destruct isMaximizing; reflexivity.
Qed.

End DeadEnds.

Lemma minimax_dead_end_witness :
  isSquareAttacked (board afterQueenToC7) "a8" white = Ok false /\
  minimax unit constHalf 3 tt afterQueenToC7 2 false NegInf PosInf
  = Ok (PosInf, tt).
Proof.
  split; [vm_compute; reflexivity |].
  apply (minimax_dead_end unit constHalf 2 tt cornerState queenToC7
           afterQueenToC7 2 false NegInf PosInf).
  - reflexivity.
  - vm_compute. reflexivity.
  - vm_compute. reflexivity.
  - discriminate.
Defined.

(** ** The hook never throws *)

Lemma filterM_total {A : Type} (f : A -> outcome bool) (l : list A) :
  (forall x, In x l -> exists v, f x = Ok v) ->
  exists r, Hook.filterM f l = Ok r /\ incl r l.
Proof.
  induction l as [| a l IH]; intros H.
  - exists []. split; [reflexivity | apply incl_refl].
  - destruct (H a (or_introl eq_refl)) as [keep Hk].
    destruct (IH (fun x Hx => H x (or_intror Hx))) as (rest & Hr & Hincl).
    cbn [Hook.filterM]. rewrite Hk. cbn [bind]. rewrite Hr. cbn [bind].
    destruct keep; eexists; (split; [reflexivity |]).
    + intros x [<- | Hx]; [left; reflexivity | right; exact (Hincl x Hx)].
    + intros x Hx. right. exact (Hincl x Hx).
Qed.

Lemma keepsKingSafe_total (gs : GameState) (m : Move) :
  rows8 (board gs) -> goodMove m ->
  exists v, Hook.keepsKingSafe gs m = Ok v.
Proof.
  intros Hb Hm. unfold Hook.keepsKingSafe.
  destruct (applyMove_total gs m Hb Hm) as [s' Hs'].
  destruct (applyMove_wellFormed gs m s' Hb Hs') as [Hb' _].
  rewrite Hs'. cbn [bind].
  destruct (findKing_total (board s') (currentPlayer gs) Hb') as [ks ->].
  cbn [bind]. destruct ks as [k |]; [| eauto].
  destruct (isSquareAttacked_total (board s') k (opponent (currentPlayer gs)) Hb')
    as [att ->].
  cbn [bind]. eauto.
Qed.

Lemma validMoves_total (st : Hook.State) :
  wellFormed (Hook.gameState st) ->
  (forall sel, Hook.selectedPiece st = Some sel -> In sel validSquares) ->
  exists ms, Hook.validMoves st = Ok ms /\ Forall goodMove ms.
Proof.
  intros [Hb Hep] Hsel. unfold Hook.validMoves.
  destruct (Hook.selectedPiece st) as [sel |] eqn:Es;
    [| exists []; split; [reflexivity | constructor]].
  destruct (validSquares_back sel (Hsel sel eq_refl))
    as (pos & Hpos & [Hr Hc] & Hback & Hne).
  cbn [Hook.isSet]. rewrite Hne. cbn [negb orb].
  destruct (isSome (Hook.promotionMove st));
    [exists []; split; [reflexivity | constructor] |].
  rewrite Hpos.
  destruct (cell_total (board (Hook.gameState st)) (row pos) (col pos) Hb Hr)
    as [x Hx].
  rewrite Hx. cbn [bind].
  destruct x as [pc |]; [| exists []; split; [reflexivity | constructor]].
  destruct (negb (PieceColor_eqb (color pc) (currentPlayer (Hook.gameState st))));
    [exists []; split; [reflexivity | constructor] |].
  destruct pos as [r c]. cbn [row col] in *.
  destruct (getPieceMoves_good (board (Hook.gameState st)) r c pc
              (castlingRights (Hook.gameState st))
              (enPassantTarget (Hook.gameState st)) false Hb Hr Hc Hx Hep)
    as (allMoves & Hall & Hgood).
  rewrite Hback in Hall. rewrite Hall. cbn [bind].
  rewrite Forall_forall in Hgood.
  destruct (filterM_total (Hook.keepsKingSafe (Hook.gameState st)) allMoves)
    as (ms & Hms & Hincl).
  { intros m Hm. exact (keepsKingSafe_total _ m Hb (Hgood m Hm)). }
  exists ms. split; [exact Hms |].
  apply Forall_forall. intros m Hm. exact (Hgood m (Hincl m Hm)).
Qed.

Lemma played_wellFormed (gs : GameState) : played gs -> wellFormed gs.
Proof. intros [ms H]. exact (played_game_wellFormed ms gs H). Qed.

Lemma played_step (gs : GameState) (m : Move) (gs' : GameState) :
  played gs -> makeMove gs m = Ok gs' -> played gs'.
Proof.
  intros [ms H] Hm. exists (ms ++ [m]).
  rewrite foldM_app, H. cbn [bind foldM]. rewrite Hm. reflexivity.
Qed.

Lemma hook_makeMove_total (st : Hook.State) (m : Move) :
  wellFormed (Hook.gameState st) -> goodMove m ->
  exists st',
    Hook.makeMove st m = Ok st' /\
    makeMove (Hook.gameState st) m = Ok (Hook.gameState st') /\
    Hook.promotionMove st' = Hook.promotionMove st /\
    (Hook.selectedPiece st' = Hook.selectedPiece st \/
     Hook.selectedPiece st' = None).
Proof.
  intros Hwf Hm.
  destruct (makeMove_total (Hook.gameState st) m Hwf Hm) as [gs' Hgs'].
  unfold Hook.makeMove. unfold makeMove in Hgs' |- *.
  destruct (isGameOver (Hook.gameState st)).
  - exists st. repeat split. left. reflexivity.
  - apply bind_Ok in Hgs' as (s1 & H1 & H2). rewrite H1. cbn [bind].
    rewrite H2. cbn [bind]. eexists. split; [reflexivity |].
    cbn. repeat split. right. reflexivity.
Qed.

Lemma click_safe (st : Hook.State) (rowIndex colIndex : Z) :
  hookInv st -> 0 <= rowIndex < 8 -> 0 <= colIndex < 8 ->
  exists st',
    Hook.handleSquareClick st (cellSquare rowIndex colIndex) = Ok st' /\
    hookInv st'.
Proof.
  intros (Hplayed & Hsel & Hpm) Hr Hc.
  pose proof (played_wellFormed _ Hplayed) as Hwf.
  assert (Hsq : In (cellSquare rowIndex colIndex) validSquares)
    by (rewrite cellSquare_eq by assumption;
        apply positionToSquare_valid; assumption).
  unfold Hook.handleSquareClick.
  destruct (validMoves_total st Hwf Hsel) as (rendered & Hv & Hgood).
  rewrite Hv. cbn [bind].
  assert (Hkeep : forall o,
            (forall sel, o = Some sel -> In sel validSquares) ->
            hookInv (Hook.select st o)).
  { intros o Ho. split; [exact Hplayed |]. split; [exact Ho | exact Hpm]. }
  destruct (isGameOver (Hook.gameState st)
            || PieceColor_eqb (currentPlayer (Hook.gameState st)) black
            || isSome (Hook.promotionMove st)) eqn:Eguard.
  { exists st. split; [reflexivity |]. exact (conj Hplayed (conj Hsel Hpm)). }
  destruct (Hook.isSquare (Hook.selectedPiece st) (cellSquare rowIndex colIndex)).
  { eexists. split; [reflexivity |]. apply Hkeep. discriminate. }
  rewrite cellSquare_eq by assumption.
  rewrite squareToPosition_positionToSquare by assumption.
  cbn [row col].
  destruct (cell_total (board (Hook.gameState st)) rowIndex colIndex
              (proj1 Hwf) Hr) as [x ->].
  cbn [bind]. rewrite <- cellSquare_eq by assumption.
  destruct (Hook.isSet (Hook.selectedPiece st)).
  - destruct (find (fun m => String.eqb (to m) (cellSquare rowIndex colIndex))
                   rendered) as [move |] eqn:Hfind.
    + apply find_some in Hfind as [Hin _].
      rewrite Forall_forall in Hgood. pose proof (Hgood move Hin) as Hmove.
      destruct (isSome (promotion move)
                && PieceColor_eqb (currentPlayer (Hook.gameState st)) white).
      * eexists. split; [reflexivity |].
        split; [exact Hplayed |]. split; [discriminate |].
        intros pm Hp. injection Hp as <-. exact Hmove.
      * destruct (hook_makeMove_total st move Hwf Hmove)
          as (st' & Hst' & Hmk & Hp' & Hs').
        exists st'. split; [exact Hst' |].
        split; [exact (played_step _ _ _ Hplayed Hmk) |].
        split.
        -- intros sel Hsel'. destruct Hs' as [Hs' | Hs'];
             rewrite Hs' in Hsel'; [exact (Hsel sel Hsel') | discriminate].
        -- intros pm Hp. rewrite Hp' in Hp. exact (Hpm pm Hp).
    + eexists. split; [reflexivity |]. apply Hkeep.
      intros sel Hs.
      destruct (hasColor (currentPlayer (Hook.gameState st)) x);
        [injection Hs as <-; exact Hsq | discriminate].
  - destruct (hasColor (currentPlayer (Hook.gameState st)) x).
    + eexists. split; [reflexivity |]. apply Hkeep.
      intros sel Hs. injection Hs as <-. exact Hsq.
    + exists st. split; [reflexivity |]. exact (conj Hplayed (conj Hsel Hpm)).
Qed.

Lemma choose_safe (st : Hook.State) (pieceType : PieceType) :
  hookInv st ->
  exists st', Hook.handlePromotionChoice st pieceType = Ok st' /\ hookInv st'.
Proof.
  intros (Hplayed & Hsel & Hpm).
  pose proof (played_wellFormed _ Hplayed) as Hwf.
  unfold Hook.handlePromotionChoice.
  destruct (Hook.promotionMove st) as [pm |] eqn:Ep.
  - assert (Hgood : goodMove (Hook.withPromotion pm pieceType))
      by exact (Hpm pm eq_refl).
    destruct (hook_makeMove_total st (Hook.withPromotion pm pieceType) Hwf Hgood)
      as (st' & Hst' & Hmk & _ & Hs').
    rewrite Hst'. cbn [bind]. eexists. split; [reflexivity |].
    split; [exact (played_step _ _ _ Hplayed Hmk) |].
    split; [| discriminate].
    cbn [Hook.selectedPiece]. intros sel Hsel'. destruct Hs' as [Hs' | Hs'];
      rewrite Hs' in Hsel'; [exact (Hsel sel Hsel') | discriminate].
  - exists st. split; [reflexivity |].
    split; [exact Hplayed |]. split; [exact Hsel |].
    intros pm Hp. rewrite Ep in Hp. discriminate.
Qed.

Lemma undo_safe (st : Hook.State) :
  hookInv st -> exists st', Hook.undoMove st = Ok st' /\ hookInv st'.
Proof.
  intros (Hplayed & Hsel & Hpm).
  destruct (Nat.ltb (List.length (moveHistory (Hook.gameState st))) 2) eqn:E.
  - exists st. unfold Hook.undoMove. rewrite E.
    split; [reflexivity |]. exact (conj Hplayed (conj Hsel Hpm)).
  - apply Nat.ltb_ge in E. destruct Hplayed as [ms Hms].
    destruct (undoMove_played st ms Hms E) as (s0 & H0 & Hu).
    eexists. split; [exact Hu |].
    split; [eexists; exact H0 |]. split; discriminate.
Qed.

Section HookSafety.

Variable rng : Type.
Variable Math_random : rng -> Q * rng.
Variable sortRandom : rng -> list Move -> list Move * rng.
Hypothesis sortRandom_perm :
  forall g l, Permutation (fst (sortRandom g l)) l.

Lemma step_safe (st : Hook.State) (ev : Event rng) :
  hookInv st -> onGrid rng ev ->
  exists st', step rng Math_random sortRandom st ev = Ok st' /\ hookInv st'.
Proof.
  intros Hinv Hev. destruct ev as [r c | t | | | | g]; cbn [step].
  - destruct Hev as [Hr Hc]. exact (click_safe st r c Hinv Hr Hc).
  - exact (choose_safe st t Hinv).
  - exact (undo_safe st Hinv).
  - eexists. split; [reflexivity |].
    split; [exists []; reflexivity |]. split; discriminate.
  - eexists. split; [reflexivity |]. unfold Hook.aiEffect.
    destruct (PieceColor_eqb (currentPlayer (Hook.gameState st)) black
              && negb (isGameOver (Hook.gameState st))); exact Hinv.
  - destruct Hinv as (Hplayed & Hsel & Hpm).
    destruct (aiTimer_total rng Math_random sortRandom sortRandom_perm 3 g st
                (played_wellFormed _ Hplayed) (le_n 3))
      as (st' & g' & legal & Hrun & _ & _ & Hstate & Hp' & Hs').
    rewrite Hrun. cbn [bind fst]. exists st'. split; [reflexivity |].
    split; [| split].
    + destruct Hstate as [[_ ->] | (m & _ & Hm)];
        [exact Hplayed | exact (played_step _ _ _ Hplayed Hm)].
    + intros sel Hsel'. destruct Hs' as [Hs' | Hs'];
        rewrite Hs' in Hsel'; [exact (Hsel sel Hsel') | discriminate].
    + intros pm Hp. rewrite Hp' in Hp. exact (Hpm pm Hp).
Qed.

(** X23. No handler of the hook throws.  From the state of the first
    render, under any sequence of clicks on the 64 cells, promotion
    choices, uses of the two buttons, runs of the effect and firings of
    its timer (with any random numbers and any shuffle), every handler
    returns; and the state reached holds a game that can be played from
    the initial state by calls of [makeMove], so its board has eight rows
    and its status flags are consistent, a selected square that is one of
    the 64, and a parked promotion between two of them. *)
Theorem hook_never_throws (events : list (Event rng)) :
  Forall (onGrid rng) events ->
  exists st,
    foldM (step rng Math_random sortRandom) events initialHook = Ok st /\
    hookInv st /\
    wellFormed (Hook.gameState st) /\ flagsConsistent (Hook.gameState st).
Proof.
  intros Hev.
  assert (Hinit : hookInv initialHook).
  { split; [exists []; reflexivity |]. split; discriminate. }
  assert (Hgen : forall st0, hookInv st0 ->
            exists st,
              foldM (step rng Math_random sortRandom) events st0 = Ok st /\
              hookInv st).
  { induction Hev as [| ev events Hev1 _ IH]; intros st0 H0.
    - exists st0. split; [reflexivity | exact H0].
    - destruct (step_safe st0 ev H0 Hev1) as (st1 & Hs1 & H1).
      destruct (IH st1 H1) as (st & Hs & H).
      exists st. cbn [foldM]. rewrite Hs1. cbn [bind].
      split; [exact Hs | exact H]. }
  destruct (Hgen initialHook Hinit) as (st & Hs & Hinv).
  exists st. split; [exact Hs |]. split; [exact Hinv |].
  destruct Hinv as ([ms Hms] & _).
  split; [exact (played_game_wellFormed ms _ Hms)
         | exact (played_game_flagsConsistent ms _ Hms)].
Qed.

End HookSafety.

Lemma hook_never_throws_witness :
  exists st,
    foldM (step unit constHalf keepOrder)
          [Click unit 6 4; Click unit 4 4; AiEffect unit; AiTimer unit tt;
           Undo unit; NewGame unit]
          initialHook = Ok st /\
    hookInv st /\
    wellFormed (Hook.gameState st) /\ flagsConsistent (Hook.gameState st).
Proof.
  apply (hook_never_throws unit constHalf keepOrder
           (fun g l => Permutation_refl l)).
  repeat constructor; lia.
Defined.

(** ** The move chosen *)

Section FullSearch.

Variable jitter : Q.

Lemma staticValue_total (s : GameState) :
  rows8 (board s) -> exists e, staticValue jitter s = Ok e.
Proof.
  intros Hb. unfold staticValue.
  destruct (materialAndPosition_total (board s) Hb) as [q ->]. cbn [bind]. eauto.
Qed.

Lemma fullValue_total (fuel : nat) :
  forall depth, 0 <= depth -> (Z.to_nat depth < fuel)%nat ->
  forall s isMaximizing,
    wellFormed s ->
    exists e, fullValue jitter fuel s depth isMaximizing = Ok e.
Proof.
  induction fuel as [| fuel IH]; intros depth Hd Hf s isMax Hwf; [lia |].
  cbn [fullValue].
  destruct ((depth =? 0) || isGameOver s) eqn:E.
  - unfold leafValue. destruct (isCheckmate s); [eauto |].
    destruct (isStalemate s); [eauto |].
    apply staticValue_total. apply Hwf.
  - apply orb_false_iff in E as [E _]. apply Z.eqb_neq in E.
    destruct (getAllValidMoves_total s (currentPlayer s) Hwf) as [moves Hm].
    rewrite Hm; cbn [bind].
    pose proof (legal_move_child s _ moves Hwf Hm) as Hch.
    rewrite Forall_forall in Hch.
    destruct isMax.
    + destruct (foldM_total (fun _ : num => True)
                  (fun best move =>
                     childState <- applyMove s move ;;
                     e <- fullValue jitter fuel childState (depth - 1) false ;;
                     Ok (num_max best e)) moves) with (b := NegInf)
        as (r & Hr & _); [| exact I | eauto].
      intros acc m Hin _. destruct (Hch m Hin) as (s' & -> & Hwf').
      cbn [bind].
      destruct (IH (depth - 1) ltac:(lia) ltac:(lia) s' false Hwf') as [e ->].
      cbn [bind]. eauto.
    + destruct (foldM_total (fun _ : num => True)
                  (fun best move =>
                     childState <- applyMove s move ;;
                     e <- fullValue jitter fuel childState (depth - 1) true ;;
                     Ok (num_min best e)) moves) with (b := PosInf)
        as (r & Hr & _); [| exact I | eauto].
      intros acc m Hin _. destruct (Hch m Hin) as (s' & -> & Hwf').
      cbn [bind].
      destruct (IH (depth - 1) ltac:(lia) ltac:(lia) s' true Hwf') as [e ->].
      cbn [bind]. eauto.
Qed.

End FullSearch.

Lemma bestInv_step (jitter : Q) (fuel : nat) (s : GameState) (depth : Z)
    (done : list Move) (bestMove : option Move) (bestValue : num)
    (m : Move) (e v : num) :
  bestInv jitter fuel s depth done bestMove bestValue ->
  moveValue jitter fuel s depth m = Ok e ->
  num_eq v e ->
  let better := match currentPlayer s with
                | white => num_ltb bestValue v
                | black => num_ltb v bestValue
                end in
  bestInv jitter fuel s depth (done ++ [m])
          (if better then Some m else bestMove)
          (if better then v else bestValue).
Proof.
  intros Hinv Hm [Hve Hev]. cbv zeta.
  assert (Hsplit : forall p e', In p (done ++ [m]) ->
            moveValue jitter fuel s depth p = Ok e' ->
            (In p done /\ moveValue jitter fuel s depth p = Ok e') \/ e' = e).
  { intros p e' Hin Hp. apply in_app_or in Hin as [Hin | [<- | []]];
      [left; auto | right; congruence]. }
  unfold bestInv, prefers, worstValue, num_ltb in *.
  destruct (currentPlayer s), bestMove as [b |].
  - destruct Hinv as (eb & Hb & Hbv & [Hbe Heb] & Hall).
    destruct (negb (num_leb v bestValue)) eqn:E;
      [apply negb_true_iff in E | apply negb_false_iff in E].
    + exists e. split; [apply in_or_app; right; left; reflexivity |].
      split; [exact Hm |]. split; [split; assumption |].
      intros p e' Hin Hp.
      destruct (Hsplit p e' Hin Hp) as [[Hin' Hp'] | ->];
        [pose proof (Hall p e' Hin' Hp') | ]; ord_close.
    + exists eb. split; [apply in_or_app; left; exact Hb |].
      split; [exact Hbv |]. split; [split; assumption |].
      intros p e' Hin Hp.
      destruct (Hsplit p e' Hin Hp) as [[Hin' Hp'] | ->];
        [exact (Hall p e' Hin' Hp') | ord_close].
  - destruct Hinv as [-> Hall].
    destruct (negb (num_leb v NegInf)) eqn:E;
      [apply negb_true_iff in E | apply negb_false_iff in E].
    + exists e. split; [apply in_or_app; right; left; reflexivity |].
      split; [exact Hm |]. split; [split; assumption |].
      intros p e' Hin Hp.
      destruct (Hsplit p e' Hin Hp) as [[Hin' Hp'] | ->];
        [pose proof (Hall p e' Hin' Hp'); pose proof (num_leb_NegInf e) | ];
        ord_close.
    + split; [reflexivity |].
      intros p e' Hin Hp.
      destruct (Hsplit p e' Hin Hp) as [[Hin' Hp'] | ->];
        [exact (Hall p e' Hin' Hp') | ord_close].
  - destruct Hinv as (eb & Hb & Hbv & [Hbe Heb] & Hall).
    destruct (negb (num_leb bestValue v)) eqn:E;
      [apply negb_true_iff in E | apply negb_false_iff in E].
    + exists e. split; [apply in_or_app; right; left; reflexivity |].
      split; [exact Hm |]. split; [split; assumption |].
      intros p e' Hin Hp.
      destruct (Hsplit p e' Hin Hp) as [[Hin' Hp'] | ->];
        [pose proof (Hall p e' Hin' Hp') | ]; ord_close.
    + exists eb. split; [apply in_or_app; left; exact Hb |].
      split; [exact Hbv |]. split; [split; assumption |].
      intros p e' Hin Hp.
      destruct (Hsplit p e' Hin Hp) as [[Hin' Hp'] | ->];
        [exact (Hall p e' Hin' Hp') | ord_close].
  - destruct Hinv as [-> Hall].
    destruct (negb (num_leb PosInf v)) eqn:E;
      [apply negb_true_iff in E | apply negb_false_iff in E].
    + exists e. split; [apply in_or_app; right; left; reflexivity |].
      split; [exact Hm |]. split; [split; assumption |].
      intros p e' Hin Hp.
      destruct (Hsplit p e' Hin Hp) as [[Hin' Hp'] | ->];
        [pose proof (Hall p e' Hin' Hp'); pose proof (num_leb_PosInf e) | ];
        ord_close.
    + split; [reflexivity |].
      intros p e' Hin Hp.
      destruct (Hsplit p e' Hin Hp) as [[Hin' Hp'] | ->];
        [exact (Hall p e' Hin' Hp') | ord_close].
Qed.

Section BestChoice.

Variable rng : Type.
Variable Math_random : rng -> Q * rng.
Variable sortRandom : rng -> list Move -> list Move * rng.
Variable jitter : Q.
Hypothesis Math_random_constant : forall g, fst (Math_random g) = jitter.
Hypothesis sortRandom_perm :
  forall g l, Permutation (fst (sortRandom g l)) l.

Lemma bestLoop_optimal (fuel : nat) (s : GameState) (depth : Z)
    (moves : list Move) :
  forall done bestMove bestValue g,
    Forall (fun m => exists e, moveValue jitter fuel s depth m = Ok e) moves ->
    bestInv jitter fuel s depth done bestMove bestValue ->
    exists r g' bestValue',
      bestLoop rng Math_random fuel s depth moves bestMove bestValue g
      = Ok (r, g') /\
      bestInv jitter fuel s depth (done ++ moves) r bestValue'.
Proof.
  induction moves as [| m rest IH]; intros done bestMove bestValue g Hval Hinv.
  - exists bestMove, g, bestValue. rewrite app_nil_r.
    split; [reflexivity | exact Hinv].
  - inversion Hval as [| ? ? [e He] Hrest]; subst.
    pose proof He as He'. unfold moveValue in He'.
    apply bind_Ok in He' as (cs & Hcs & Hfull).
    destruct (minimax_within rng Math_random jitter Math_random_constant fuel
                cs (depth - 1) (PieceColor_eqb (currentPlayer s) black) e
                Hfull g NegInf PosInf eq_refl) as (v & g1 & Hv & Hw).
    apply within_full in Hw.
    cbn [bestLoop]. rewrite Hcs. cbn [bind]. rewrite Hv. cbn [bind].
    pose proof (bestInv_step jitter fuel s depth done bestMove bestValue
                  m e v Hinv He Hw) as Hstep.
    cbv zeta in Hstep.
    replace (done ++ m :: rest) with ((done ++ [m]) ++ rest)
      by (rewrite <- app_assoc; reflexivity).
    destruct (match currentPlayer s with
              | white => num_ltb bestValue v
              | black => num_ltb v bestValue
              end); apply IH; assumption.
Qed.

(** X24. The move [getBestMove] chooses is a best one.  Let
    [Math.random()] return the same number at every call, whatever the
    shuffle does.  On a well-formed state, for a depth of at least 1,
    [getBestMove] returns; it returns null exactly when there is no legal
    move; and the move it returns is a legal move whose position has,
    searched to [depth - 1] without pruning, a value at least as good for
    the side to move as that of every other legal move: the largest for
    white, the smallest for black. *)
Theorem getBestMove_optimal (fuel : nat) (g : rng) (s : GameState) (depth : Z) :
  wellFormed s -> 1 <= depth -> (Z.to_nat depth <= fuel)%nat ->
  exists r g' legal,
    getBestMove rng Math_random sortRandom fuel g s depth = Ok (r, g') /\
    getAllValidMoves s (currentPlayer s) = Ok legal /\
    match r with
    | None => legal = []
    | Some m =>
        In m legal /\
        exists e,
          moveValue jitter fuel s depth m = Ok e /\
          forall m' e',
            In m' legal -> moveValue jitter fuel s depth m' = Ok e' ->
            prefers s e e'
    end.
Proof.
  intros Hwf Hd Hf.
  destruct (getAllValidMoves_total s (currentPlayer s) Hwf) as [legal Hlegal].
  unfold getBestMove. rewrite Hlegal. cbn [bind].
  destruct legal as [| m0 legal0] eqn:El.
  - exists None, g, []. repeat split.
  - rewrite <- El in *. replace (Nat.eqb (List.length legal) 0) with false
      by (rewrite El; reflexivity).
    pose proof (sortRandom_perm g legal) as Hperm.
    destruct (sortRandom g legal) as [shuffled g1]. cbn [fst] in Hperm.
    pose proof (legal_move_child s _ legal Hwf Hlegal) as Hch.
    rewrite Forall_forall in Hch.
    assert (Hval : forall m, In m legal ->
              exists e, moveValue jitter fuel s depth m = Ok e).
    { intros m Hin. destruct (Hch m Hin) as (cs & Hcs & Hwf').
      unfold moveValue. rewrite Hcs. cbn [bind].
      apply fullValue_total; [lia | lia | exact Hwf']. }
    assert (Hvals : Forall (fun m => exists e,
                       moveValue jitter fuel s depth m = Ok e) shuffled).
    { apply Forall_forall. intros m Hin. apply Hval.
      exact (Permutation_in m Hperm Hin). }
    assert (Hinit : bestInv jitter fuel s depth [] None (worstValue s)).
    { split; [reflexivity |]. intros p e []. }
    destruct (bestLoop_optimal fuel s depth shuffled [] None (worstValue s) g1
                Hvals Hinit) as (r & g' & bv & Hloop & Hinv).
    unfold worstValue in Hloop. rewrite Hloop. cbn [bind app] in *.
    assert (Hback : forall m, In m legal -> In m shuffled)
      by (intros m Hin; exact (Permutation_in m (Permutation_sym Hperm) Hin)).
    destruct r as [b |].
    + exists (Some b), g', legal. split; [reflexivity |].
      split; [reflexivity |].
      destruct Hinv as (eb & Hb & Hbv & _ & Hall).
      split; [exact (Permutation_in b Hperm Hb) |].
      exists eb. split; [exact Hbv |].
      intros m' e' Hin' Hm'. exact (Hall m' e' (Hback m' Hin') Hm').
    + destruct Hinv as [_ Hall].
      destruct shuffled as [| first others];
        [exfalso; rewrite El in Hback; exact (Hback m0 (or_introl eq_refl)) |].
      cbn [nth_error].
      exists (Some first), g', legal. split; [reflexivity |].
      split; [reflexivity |].
      assert (Hfirst : In first legal)
        by exact (Permutation_in first Hperm (or_introl eq_refl)).
      split; [exact Hfirst |].
      destruct (Hval first Hfirst) as [e0 He0].
      exists e0. split; [exact He0 |].
      intros m' e' Hin' Hm'.
      pose proof (Hall m' e' (Hback m' Hin') Hm') as H1.
      unfold prefers, worstValue in *.
      pose proof (num_leb_NegInf e0). pose proof (num_leb_PosInf e0).
      destruct (currentPlayer s); ord_close.
Qed.

End BestChoice.

Lemma getBestMove_optimal_witness :
  exists r g' legal,
    getBestMove unit constHalf keepOrder 2 tt afterE2E4_checked 2 = Ok (r, g') /\
    getAllValidMoves afterE2E4_checked (currentPlayer afterE2E4_checked)
    = Ok legal /\
    match r with
    | None => legal = []
    | Some m =>
        In m legal /\
        exists e,
          moveValue (1 # 2) 2 afterE2E4_checked 2 m = Ok e /\
          forall m' e',
            In m' legal -> moveValue (1 # 2) 2 afterE2E4_checked 2 m' = Ok e' ->
            prefers afterE2E4_checked e e'
    end.
Proof.
  apply (getBestMove_optimal unit constHalf keepOrder (1 # 2)
           (fun _ => eq_refl) (fun g l => Permutation_refl l)
           2 tt afterE2E4_checked 2).
  - apply (played_game_wellFormed [e2e4]). vm_compute. reflexivity.
  - lia.
  - apply le_n.
Defined.

(** ** Exceptions of [applyMove] *)

Lemma moveBoard_total_rows (b : Board) (m : Move) (fp tp : Position) :
  rows8 b ->
  squareToPosition (from m) = Some fp -> squareToPosition (to m) = Some tp ->
  0 <= row fp < 8 -> 0 <= row tp < 8 ->
  exists nb, moveBoard b m = Ok nb.
Proof.
  intros Hb Hf Ht Hfr Htr.
  unfold moveBoard. rewrite Hf, Ht.
  destruct (setCell_total b (row fp) (col fp) None Hb Hfr) as (b1 & -> & Hb1).
  cbn [bind].
  destruct (setCell_total b1 (row tp) (col tp)
              (Some match promotion m with
                    | Some t => {| type := t; color := color (piece m) |}
                    | None => piece m
                    end) Hb1 Htr) as (b2 & -> & Hb2).
  cbn [bind].
  assert (H3 : exists b3,
             (if truthy (enPassant m)
              then setCell b2 (row fp) (col tp) None else Ok b2) = Ok b3
             /\ rows8 b3).
  { destruct (truthy (enPassant m)); [| eauto].
    apply setCell_total; assumption. }
  destruct H3 as (b3 & -> & Hb3); cbn [bind].
  destruct (castling m) as [[|] |]; [| | eauto].
  - destruct (cell_total b3 (row tp) 7 Hb3 Htr) as [rk ->]; cbn [bind].
    destruct (setCell_total b3 (row tp) 7 None Hb3 Htr) as (b4 & -> & Hb4).
    cbn [bind].
    destruct (setCell_total b4 (row tp) 5 rk Hb4 Htr) as (b5 & -> & _). eauto.
  - destruct (cell_total b3 (row tp) 0 Hb3 Htr) as [rk ->]; cbn [bind].
    destruct (setCell_total b3 (row tp) 0 None Hb3 Htr) as (b4 & -> & Hb4).
    cbn [bind].
    destruct (setCell_total b4 (row tp) 3 rk Hb4 Htr) as (b5 & -> & _). eauto.
Qed.

(** X25. When [applyMove] throws.  On a board of eight rows [applyMove]
    returns a state exactly when the second character of the move's
    [from] and of its [to] is a digit that names one of the rows 0 to 7;
    it looks at nothing else of the move: the columns may lie off the
    board, the origin may be empty, and the piece the move carries need
    not be the one on the origin. *)
Theorem applyMove_returns_iff (s : GameState) (m : Move) :
  rows8 (board s) ->
  ((exists s', applyMove s m = Ok s')
   <-> exists fp tp,
         squareToPosition (from m) = Some fp /\
         squareToPosition (to m) = Some tp /\
         0 <= row fp < 8 /\ 0 <= row tp < 8).
Proof.
  intros Hb. split.
  - intros [s' H]. apply applyMove_Ok in H as (nb & fp & tp & Hmb & _).
    apply moveBoard_Ok in Hmb as (_ & fp' & tp' & Hf & Ht & Hfr & Htr).
    rewrite Hb in Hfr, Htr. exists fp', tp'. repeat split; assumption || lia.
  - intros (fp & tp & Hf & Ht & Hfr & Htr).
    destruct (moveBoard_total_rows (board s) m fp tp Hb Hf Ht Hfr Htr)
      as [nb Hnb].
    unfold applyMove. rewrite Hnb. cbn [bind]. rewrite Hf, Ht. eauto.
Qed.

Lemma applyMove_returns_iff_witness :
  exists s', applyMove createInitialGameState sidewaysOff = Ok s'.
Proof.
  apply (applyMove_returns_iff createInitialGameState sidewaysOff eq_refl).
  exists {| row := 6; col := 4 |}, {| row := 4; col := 25 |}.
  repeat split; cbn; lia.
Defined.

(** ** Classifying twice *)

(** X26. [checkGameStatus] is idempotent: classifying a state it has
    returned gives that state again, also in the case where it found no
    king. *)
Theorem checkGameStatus_idempotent (s s1 : GameState) :
  checkGameStatus s = Ok s1 -> checkGameStatus s1 = Ok s1.
Proof.
  intros H. pose proof (checkGameStatus_core s s1 H)
    as (Hb & Hp & Hh & Hr & He & Hc & Hf).
  unfold checkGameStatus in H |- *.
  rewrite <- Hb, <- Hp.
  rewrite <- (getAllValidMoves_ext s s1 (currentPlayer s) Hb Hr He).
  apply bind_Ok in H as (ks & Hks & H). rewrite Hks. cbn [bind].
  destruct ks as [k |].
  - apply bind_Ok in H as (ic & Hic & H). rewrite Hic. cbn [bind].
    apply bind_Ok in H as (mv & Hmv & H). rewrite Hmv. cbn [bind].
    injection H as <-. reflexivity.
  - injection H as <-. reflexivity.
Qed.

Lemma checkGameStatus_idempotent_witness :
  checkGameStatus afterE2E4_checked = Ok afterE2E4_checked.
Proof.
  apply (checkGameStatus_idempotent afterE2E4).
  vm_compute. reflexivity.
Defined.

(** ** What move generation reads *)

(** X27. [getAllValidMoves] reads the board, the castling rights and the
    en-passant target of the state and nothing else: two states that
    agree on these three give the same result, whatever their side to
    move, history, clocks and status flags.  In particular the stale
    flags of the states the search builds do not change the moves
    generated for them. *)
Theorem legal_moves_read_three_fields (s1 s2 : GameState) (clr : PieceColor) :
  board s1 = board s2 ->
  castlingRights s1 = castlingRights s2 ->
  enPassantTarget s1 = enPassantTarget s2 ->
  getAllValidMoves s1 clr = getAllValidMoves s2 clr.
Proof.
  intros Hb Hr He.
  rewrite (getAllValidMoves_ext s1 s2 clr Hb Hr He). reflexivity.
Qed.

Lemma legal_moves_read_three_fields_witness :
  getAllValidMoves epState white = getAllValidMoves epStateScrambled white.
Proof.
  apply (legal_moves_read_three_fields epState epStateScrambled white);
    reflexivity.
Defined.

(** ** The random term of the evaluation *)

Section Jitter.

Variable rng : Type.
Variable Math_random : rng -> Q * rng.

(** X28. The random term of [evaluatePosition] moves the score by at most
    5 either way: when [Math.random()] returns a number from 0 (included)
    to 1 (excluded), the evaluation is a finite number from the sum of
    material and square values minus 5 to that sum plus 5, both ends
    included.  The upper end is included because the source adds in
    binary64, where the sum with a random number just below 1 can round
    up to it; the sum itself is a multiple of 0.5 and exact. *)
Theorem evaluation_jitter_bound (g g' : rng) (s : GameState) (score x : Q) :
  materialAndPosition (board s) = Ok score ->
  Math_random g = (x, g') ->
  (0 <= x)%Q -> (x < 1)%Q ->
  exists v,
    evaluatePosition rng Math_random g s = Ok (Fin v, g') /\
    (score - 5 <= v)%Q /\ (v <= score + 5)%Q.
Proof.
  intros Hscore Hrand H0 H1. unfold evaluatePosition.
  rewrite Hscore. cbn [bind]. rewrite Hrand.
  eexists. split; [reflexivity |]. split.
  - unfold Qminus. apply Qplus_le_r.
    setoid_replace (- (5))%Q with (0 + - (5))%Q at 1 by ring.
    apply Qplus_le_l. apply Qmult_le_0_compat; [exact H0 | discriminate].
  - apply Qplus_le_r.
    setoid_replace 5%Q with (1 * 10 - 5)%Q at 2 by ring.
    unfold Qminus. apply Qplus_le_l.
    apply Qmult_le_r; [reflexivity | apply Qlt_le_weak; exact H1].
Qed.

End Jitter.

Lemma evaluation_jitter_bound_witness :
  exists score v,
    materialAndPosition (board createInitialGameState) = Ok score /\
    evaluatePosition unit constHalf tt createInitialGameState = Ok (Fin v, tt) /\
    (score - 5 <= v)%Q /\ (v <= score + 5)%Q.
Proof.
  assert (H : exists score,
             materialAndPosition (board createInitialGameState) = Ok score)
    by (eexists; vm_compute; reflexivity).
  destruct H as (score & H).
  destruct (evaluation_jitter_bound unit constHalf tt tt
              createInitialGameState score (1 # 2) H eq_refl)
    as (v & Hv & Hlo & Hhi).
  - discriminate.
  - reflexivity.
  - exists score, v. split; [exact H |]. split; [exact Hv |].
    split; [exact Hlo | exact Hhi].
Defined.

(** * The mover's king after a legal move *)

(** ** What the generators cannot miss *)

Lemma foldM_incl {A B : Type} (f : list B -> A -> outcome (list B))
    (l : list A) :
  (forall acc x acc', f acc x = Ok acc' -> incl acc acc') ->
  forall acc res, foldM f l acc = Ok res -> incl acc res.
Proof.
  intros Hf. induction l as [| a l IH]; intros acc res H.
  - injection H as <-. apply incl_refl.
  - cbn [foldM] in H. apply bind_Ok in H as (acc1 & H1 & H).
    exact (incl_tran (Hf _ _ _ H1) (IH _ _ H)).
Qed.

Lemma foldM_hit {A B : Type} (f : list B -> A -> outcome (list B))
    (P : B -> Prop) (l : list A) (x : A) :
  (forall acc y acc', f acc y = Ok acc' -> incl acc acc') ->
  (forall acc acc', f acc x = Ok acc' -> exists m, In m acc' /\ P m) ->
  In x l ->
  forall acc res, foldM f l acc = Ok res -> exists m, In m res /\ P m.
Proof.
  intros Hf Hx. induction l as [| a l IH]; intros Hin acc res H; [destruct Hin |].
  cbn [foldM] in H. apply bind_Ok in H as (acc1 & H1 & H).
  destruct Hin as [-> | Hin].
  - destruct (Hx _ _ H1) as (m & Hm & HP).
    exists m. split; [| exact HP].
    exact (foldM_incl f l Hf _ _ H m Hm).
  - exact (IH Hin _ _ H).
Qed.

Lemma anyM_false {A : Type} (f : A -> outcome bool) (l : list A) :
  anyM f l = Ok false -> forall x, In x l -> f x = Ok false.
Proof.
  induction l as [| a l IH]; intros H x Hin; [destruct Hin |].
  cbn [anyM] in H. apply bind_Ok in H as (v & Ha & H).
  destruct v; [discriminate |].
  destruct Hin as [<- | Hin]; [exact Ha | exact (IH H x Hin)].
Qed.

Section Reach.

Variable b : Board.
Variables (src : Square) (pc : ChessPiece) (clr : PieceColor) (r c : Z).

Lemma stepTo_incl (moves : list Move) (d : Z * Z) (res : list Move) :
  stepTo b src pc clr r c moves d = Ok res -> incl moves res.
Proof.
  unfold stepTo.
  destruct (inRange8 (r + fst d) && inRange8 (c + snd d));
    [| intros H; injection H as <-; apply incl_refl].
  intros H. apply bind_Ok in H as (x & _ & H).
  destruct (negb (isSome x) || negb (hasColor clr x));
    injection H as <-; [apply incl_appl |]; apply incl_refl.
Qed.

Lemma stepTo_hit (moves : list Move) (d : Z * Z) (res : list Move)
    (tp : ChessPiece) :
  0 <= r + fst d < 8 -> 0 <= c + snd d < 8 ->
  cell b (r + fst d) (c + snd d) = Ok (Some tp) ->
  PieceColor_eqb (color tp) clr = false ->
  stepTo b src pc clr r c moves d = Ok res ->
  exists m, In m res /\
            to m = positionToSquare {| row := r + fst d; col := c + snd d |}.
Proof.
  intros Hr Hc Hcell Hcol. unfold stepTo.
  apply inRange8_spec in Hr, Hc. rewrite Hr, Hc, Hcell. cbn [andb bind isSome hasColor negb].
  rewrite Hcol. cbn [negb orb]. intros H. injection H as <-.
  eexists. split; [apply in_or_app; right; left; reflexivity | reflexivity].
Qed.

Lemma slideRay_incl (dr dc : Z) (steps : list Z) :
  forall moves res,
    slideRay b src pc clr r c dr dc steps moves = Ok res -> incl moves res.
Proof.
  induction steps as [| i rest IH]; intros moves res; cbn [slideRay].
  - intros H; injection H as <-; apply incl_refl.
  - destruct ((r + i * dr <? 0) || (r + i * dr >=? 8)
              || (c + i * dc <? 0) || (c + i * dc >=? 8));
      [intros H; injection H as <-; apply incl_refl |].
    intros H. apply bind_Ok in H as (x & _ & H).
    destruct x as [tp |].
    + destruct (negb (PieceColor_eqb (color tp) clr));
        injection H as <-; [apply incl_appl |]; apply incl_refl.
    + apply IH in H. intros m Hm. apply H. apply in_or_app. left. exact Hm.
Qed.

Lemma slideRay_hit (dr dc n : Z) (post : list Z) (tp : ChessPiece) :
  0 <= r + n * dr < 8 -> 0 <= c + n * dc < 8 ->
  cell b (r + n * dr) (c + n * dc) = Ok (Some tp) ->
  PieceColor_eqb (color tp) clr = false ->
  forall pre moves res,
    (forall i, In i pre ->
       0 <= r + i * dr < 8 /\ 0 <= c + i * dc < 8 /\
       cell b (r + i * dr) (c + i * dc) = Ok None) ->
    slideRay b src pc clr r c dr dc (pre ++ n :: post) moves = Ok res ->
    exists m, In m res /\
              to m = positionToSquare {| row := r + n * dr; col := c + n * dc |}.
Proof.
  intros Hr Hc Hcell Hcol.
  induction pre as [| i pre IH]; intros moves res Hpre; cbn [app slideRay].
  - replace ((r + n * dr <? 0) || (r + n * dr >=? 8)
             || (c + n * dc <? 0) || (c + n * dc >=? 8)) with false by lia.
    rewrite Hcell. cbn [bind]. rewrite Hcol. cbn [negb].
    intros H. injection H as <-.
    eexists. split; [apply in_or_app; right; left; reflexivity | reflexivity].
  - destruct (Hpre i (or_introl eq_refl)) as (Hir & Hic & Hiempty).
    replace ((r + i * dr <? 0) || (r + i * dr >=? 8)
             || (c + i * dc <? 0) || (c + i * dc >=? 8)) with false by lia.
    rewrite Hiempty. cbn [bind].
    apply IH. intros j Hj. apply Hpre. right. exact Hj.
Qed.

End Reach.

Lemma cell_cellOpt (b : Board) (r c : Z) (x : option ChessPiece) :
  cell b r c = Ok x -> cellOpt b r c = x.
Proof.
  unfold cell, cellOpt. destruct (index b r); [| discriminate].
  intros H. injection H as <-. reflexivity.
Qed.

Lemma pawnCapture_incl (b : Board) (src : Square) (pc : ChessPiece)
    (clr : PieceColor) (ep : option Square) (r c : Z)
    (moves : list Move) (dCol : Z) (res : list Move) :
  pawnCapture b src pc clr ep r c moves dCol = Ok res -> incl moves res.
Proof.
  unfold pawnCapture.
  destruct (inRange8 (c + dCol)); [| intros H; injection H as <-; apply incl_refl].
  set (direction := match clr with white => -1 | black => 1 end).
  set (moves1 := if hasColor (opponent clr) (cellOpt b (r + direction) (c + dCol))
                 then _ else moves).
  assert (H1 : incl moves moves1).
  { subst moves1. destruct (hasColor _ _); [apply incl_appl |]; apply incl_refl. }
  destruct (match ep with
            | Some sq => if String.eqb sq EmptyString then None
                         else squareToPosition sq
            | None => None
            end) as [e |]; [| intros H; injection H as <-; exact H1].
  destruct ((row e =? r + direction) && (col e =? c + dCol));
    [| intros H; injection H as <-; exact H1].
  intros H. apply bind_Ok in H as (cap & _ & H). injection H as <-.
  apply incl_appl. exact H1.
Qed.

Lemma pawnCapture_hit (b : Board) (src : Square) (pc : ChessPiece)
    (clr : PieceColor) (ep : option Square) (r c : Z)
    (moves : list Move) (dCol : Z) (res : list Move) (tp : ChessPiece) :
  let tr := r + match clr with white => -1 | black => 1 end in
  0 <= c + dCol < 8 ->
  cell b tr (c + dCol) = Ok (Some tp) ->
  color tp = opponent clr ->
  pawnCapture b src pc clr ep r c moves dCol = Ok res ->
  exists m, In m res /\
            to m = positionToSquare {| row := tr; col := c + dCol |}.
Proof.
  intros tr Hc Hcell Hcol. subst tr. unfold pawnCapture.
  apply inRange8_spec in Hc. rewrite Hc.
  rewrite (cell_cellOpt _ _ _ _ Hcell). cbn [hasColor]. rewrite Hcol.
  replace (PieceColor_eqb (opponent clr) (opponent clr)) with true
    by (destruct clr; reflexivity).
  set (direction := match clr with white => -1 | black => 1 end).
  set (cap := {| from := src;
                 to := positionToSquare {| row := r + direction; col := c + dCol |};
                 piece := pc; captured := Some tp;
                 promotion := lastRank (r + direction);
                 castling := None; enPassant := None |}).
  assert (Hin : forall l, In cap ((moves ++ [cap]) ++ l)).
  { intros l. apply in_or_app. left. apply in_or_app. right. left. reflexivity. }
  destruct (match ep with
            | Some sq => if String.eqb sq EmptyString then None
                         else squareToPosition sq
            | None => None
            end) as [e |].
  - destruct ((row e =? r + direction) && (col e =? c + dCol)).
    + intros H. apply bind_Ok in H as (x & _ & H). injection H as <-.
      exists cap. split; [apply Hin | reflexivity].
    + intros H. injection H as <-. exists cap.
      split; [| reflexivity]. rewrite <- (app_nil_r (moves ++ [cap])). apply Hin.
  - intros H. injection H as <-. exists cap.
    split; [| reflexivity]. rewrite <- (app_nil_r (moves ++ [cap])). apply Hin.
Qed.

(** ** The geometry of a sliding attack *)

Lemma steps_split (n : Z) :
  1 <= n <= 7 ->
  exists pre post, [1; 2; 3; 4; 5; 6; 7] = pre ++ n :: post /\
                   forall i, In i pre -> 0 < i < n.
Proof.
  intros H.
  assert (E : n = 1 \/ n = 2 \/ n = 3 \/ n = 4 \/ n = 5 \/ n = 6 \/ n = 7) by lia.
  destruct E as [-> | [-> | [-> | [-> | [-> | [-> | ->]]]]]].
  - exists [], [2; 3; 4; 5; 6; 7]. split; [reflexivity | cbn; lia].
  - exists [1], [3; 4; 5; 6; 7]. split; [reflexivity | cbn; lia].
  - exists [1; 2], [4; 5; 6; 7]. split; [reflexivity | cbn; lia].
  - exists [1; 2; 3], [5; 6; 7]. split; [reflexivity | cbn; lia].
  - exists [1; 2; 3; 4], [6; 7]. split; [reflexivity | cbn; lia].
  - exists [1; 2; 3; 4; 5], [7]. split; [reflexivity | cbn; lia].
  - exists [1; 2; 3; 4; 5; 6], []. split; [reflexivity | cbn; lia].
Qed.

Lemma ray_reaches (r c tr tc : Z) :
  0 <= r < 8 -> 0 <= c < 8 -> 0 <= tr < 8 -> 0 <= tc < 8 ->
  onLine r c tr tc \/ onDiagonal r c tr tc ->
  let n := Z.max (Z.abs (tr - r)) (Z.abs (tc - c)) in
  1 <= n <= 7 /\
  r + n * Z.sgn (tr - r) = tr /\ c + n * Z.sgn (tc - c) = tc /\
  forall i, 0 < i < n ->
    0 <= r + i * Z.sgn (tr - r) < 8 /\ 0 <= c + i * Z.sgn (tc - c) < 8.
Proof.
  intros Hr Hc Htr Htc Hgeo n. subst n. unfold onLine, onDiagonal in Hgeo.
  destruct (Z.sgn_spec (tr - r)) as [[? ->] | [[? ->] | [? ->]]];
    destruct (Z.sgn_spec (tc - c)) as [[? ->] | [[? ->] | [? ->]]];
    (split; [lia | split; [lia | split; [lia | intros i Hi; lia]]]).
Qed.

Lemma line_direction (r c tr tc : Z) :
  onLine r c tr tc -> In (Z.sgn (tr - r), Z.sgn (tc - c)) rookDirs.
Proof.
  unfold onLine, rookDirs. intros H.
  destruct (Z.sgn_spec (tr - r)) as [[? ->] | [[? ->] | [? ->]]];
    destruct (Z.sgn_spec (tc - c)) as [[? ->] | [[? ->] | [? ->]]];
    first [exfalso; lia | cbn; auto 10].
Qed.

Lemma diagonal_direction (r c tr tc : Z) :
  onDiagonal r c tr tc -> In (Z.sgn (tr - r), Z.sgn (tc - c)) bishopDirs.
Proof.
  unfold onDiagonal, bishopDirs. intros H.
  destruct (Z.sgn_spec (tr - r)) as [[? ->] | [[? ->] | [? ->]]];
    destruct (Z.sgn_spec (tc - c)) as [[? ->] | [[? ->] | [? ->]]];
    first [exfalso; lia | cbn; auto 10].
Qed.

Section AttackGenerated.

Variable b : Board.
Variables (pc tp : ChessPiece) (r c tr tc : Z).
Hypothesis Hr : 0 <= r < 8.
Hypothesis Hc : 0 <= c < 8.
Hypothesis Htr : 0 <= tr < 8.
Hypothesis Htc : 0 <= tc < 8.
Hypothesis Hpc : cell b r c = Ok (Some pc).
Hypothesis Htp : cell b tr tc = Ok (Some tp).
Hypothesis Hcol : color tp = opponent (color pc).

Lemma target_other_colour : PieceColor_eqb (color tp) (color pc) = false.
Proof. rewrite Hcol. destruct (color pc); reflexivity. Qed.

Lemma slide_generated (dirs : list (Z * Z)) (moves : list Move) :
  In (Z.sgn (tr - r), Z.sgn (tc - c)) dirs ->
  onLine r c tr tc \/ onDiagonal r c tr tc ->
  emptyBetween b r c tr tc ->
  getSlidingMoves b (positionToSquare {| row := r; col := c |}) (color pc) dirs
  = Ok moves ->
  exists m, In m moves /\ to m = positionToSquare {| row := tr; col := tc |}.
Proof.
  intros Hdir Hgeo Hempty. unfold getSlidingMoves.
  rewrite (pieceAt_positionToSquare b r c pc Hr Hc Hpc); cbn [bind row col].
  destruct (ray_reaches r c tr tc Hr Hc Htr Htc Hgeo) as (Hn & Er & Ec & Hmid).
  destruct (steps_split _ Hn) as (pre & post & Esteps & Hpre).
  apply (foldM_hit _ _ dirs (Z.sgn (tr - r), Z.sgn (tc - c)));
    [| | exact Hdir].
  - intros acc d acc'. apply slideRay_incl.
  - intros acc acc'. cbn [fst snd]. rewrite Esteps. intros H.
    apply (slideRay_hit b _ pc (color pc) r c _ _ _ post tp) in H.
    + rewrite Er, Ec in H. exact H.
    + rewrite Er. exact Htr.
    + rewrite Ec. exact Htc.
    + rewrite Er, Ec. exact Htp.
    + exact target_other_colour.
    + intros i Hi. destruct (Hmid i (Hpre i Hi)) as (H1 & H2).
      split; [exact H1 | split; [exact H2 |]].
      apply Hempty. exact (Hpre i Hi).
Qed.

Lemma step_generated (deltas : list (Z * Z)) (moves : list Move) :
  In (tr - r, tc - c) deltas ->
  foldM (stepTo b (positionToSquare {| row := r; col := c |}) pc (color pc) r c)
        deltas [] = Ok moves ->
  exists m, In m moves /\ to m = positionToSquare {| row := tr; col := tc |}.
Proof.
  intros Hd.
  apply (foldM_hit _ _ deltas (tr - r, tc - c)); [| | exact Hd].
  - intros acc d acc'. apply stepTo_incl.
  - intros acc acc' H.
    assert (Er : r + (tr - r) = tr) by lia.
    assert (Ec : c + (tc - c) = tc) by lia.
    apply (stepTo_hit b _ pc (color pc) r c acc _ acc' tp) in H;
      cbn [fst snd] in *.
    + rewrite Er, Ec in H. exact H.
    + rewrite Er. exact Htr.
    + rewrite Ec. exact Htc.
    + rewrite Er, Ec. exact Htp.
    + exact target_other_colour.
Qed.

(** Whatever piece stands on (r, c), if it attacks a square that holds a
    piece of the other colour, the generator [isSquareAttacked] consults
    produces a move onto that square. *)
Lemma attack_generated (moves : list Move) :
  attacks b pc r c tr tc ->
  getPieceMovesWith (fun _ _ _ => Ok false) b
    (positionToSquare {| row := r; col := c |}) pc noRights None true = Ok moves ->
  exists m, In m moves /\ to m = positionToSquare {| row := tr; col := tc |}.
Proof.
  unfold attacks, getPieceMovesWith.
  destruct (type pc).
  - (* pawn *)
    intros (Erow & Ecol). unfold getPawnMoves.
    rewrite (pieceAt_positionToSquare b r c pc Hr Hc Hpc); cbn [bind row col].
    intros H. apply bind_Ok in H as (fwd & _ & H). revert H.
    apply (foldM_hit _ _ [-1; 1] (tc - c)).
    + intros acc d acc'. apply pawnCapture_incl.
    + intros acc acc' H.
      apply (pawnCapture_hit b _ pc (color pc) None r c acc (tc - c) acc' tp) in H.
      * replace (c + (tc - c)) with tc in H by lia.
        rewrite <- Erow in H. exact H.
      * lia.
      * replace (c + (tc - c)) with tc by lia. rewrite <- Erow. exact Htp.
      * exact Hcol.
    + cbn. lia.
  - (* rook *)
    intros (Hline & Hempty).
    apply slide_generated; [apply line_direction; exact Hline | left; exact Hline
                            | exact Hempty].
  - (* knight *)
    intros Hgeo. unfold getKnightMoves.
    rewrite (pieceAt_positionToSquare b r c pc Hr Hc Hpc); cbn [bind row col].
    apply step_generated.
    assert (E1 : tr - r = 1 \/ tr - r = -1 \/ tr - r = 2 \/ tr - r = -2) by lia.
    assert (E2 : tc - c = 1 \/ tc - c = -1 \/ tc - c = 2 \/ tc - c = -2) by lia.
    destruct E1 as [E1 | [E1 | [E1 | E1]]];
      destruct E2 as [E2 | [E2 | [E2 | E2]]];
      rewrite E1, E2 in *; first [exfalso; lia | cbn; auto 10].
  - (* bishop *)
    intros (Hdiag & Hempty).
    apply slide_generated; [apply diagonal_direction; exact Hdiag
                            | right; exact Hdiag | exact Hempty].
  - (* queen *)
    intros (Hgeo & Hempty).
    apply slide_generated; [| exact Hgeo | exact Hempty].
    apply in_or_app. destruct Hgeo as [Hline | Hdiag];
      [left; apply line_direction; exact Hline
      | right; apply diagonal_direction; exact Hdiag].
  - (* king *)
    intros (H1 & H2 & H3). unfold getKingMoves.
    rewrite (pieceAt_positionToSquare b r c pc Hr Hc Hpc); cbn [bind row col].
    intros H. apply bind_Ok in H as (steps & Hsteps & H).
    cbn in H. injection H as <-. revert Hsteps.
    apply step_generated.
    assert (E1 : tr - r = 0 \/ tr - r = 1 \/ tr - r = -1) by lia.
    assert (E2 : tc - c = 0 \/ tc - c = 1 \/ tc - c = -1) by lia.
    destruct E1 as [E1 | [E1 | E1]]; destruct E2 as [E2 | [E2 | E2]];
      rewrite E1, E2 in *; first [exfalso; lia | cbn; auto 10].
Qed.

End AttackGenerated.

(** On a square that holds a piece of the other colour, a negative answer of
    [isSquareAttacked] leaves no attacker of [byColor] on the board. *)
Lemma isSquareAttacked_false_no_attacker
    (b : Board) (byColor : PieceColor) (tr tc : Z) (tp : ChessPiece) :
  0 <= tr < 8 -> 0 <= tc < 8 ->
  cell b tr tc = Ok (Some tp) -> color tp = opponent byColor ->
  isSquareAttacked b (positionToSquare {| row := tr; col := tc |}) byColor
  = Ok false ->
  ~ attackedBy b byColor tr tc.
Proof.
  intros Htr Htc Htp Hcol Hatt (r & c & pc & Hr & Hc & Hpc & Hclr & Hgeo).
  unfold isSquareAttacked in Hatt.
  assert (Hrow := anyM_false _ _ Hatt r (proj2 (idx8_In r) Hr)).
  cbv beta in Hrow.
  assert (Hcell := anyM_false _ _ Hrow c (proj2 (idx8_In c) Hc)).
  cbv beta in Hcell.
  rewrite Hpc in Hcell. cbn [bind] in Hcell.
  rewrite Hclr in Hcell.
  replace (PieceColor_eqb byColor byColor) with true in Hcell
    by (destruct byColor; reflexivity).
  apply bind_Ok in Hcell as (moves & Hgen & Hnone).
  rewrite <- Hclr in Hcol.
  destruct (attack_generated b pc tp r c tr tc Hr Hc Htr Htc Hpc Htp Hcol
              moves Hgeo Hgen) as (m & Hin & Hto).
  injection Hnone as Hnone.
  assert (Hsome : existsb
            (fun move => String.eqb (to move)
                           (positionToSquare {| row := tr; col := tc |}))
            moves = true).
  { apply existsb_exists. exists m. split; [exact Hin |].
    rewrite Hto. apply String.eqb_refl. }
  rewrite Hsome in Hnone. discriminate.
Qed.

(** Where [findKing] finds the king, the king stands. *)
Lemma findKing_Some (b : Board) (clr : PieceColor) (k : Square) :
  findKing b clr = Ok (Some k) ->
  exists r c, 0 <= r < 8 /\ 0 <= c < 8 /\
              k = positionToSquare {| row := r; col := c |} /\
              kingAt b clr r c.
Proof.
  unfold findKing. intros H.
  apply firstM_Some in H as (l1 & r & l2 & Er & H & _).
  apply firstM_Some in H as (l1' & c & l2' & Ec & H & _).
  apply idx8_prefix in Er as (Hr & _). apply idx8_prefix in Ec as (Hc & _).
  apply bind_Ok in H as (x & Hcell & H).
  destruct x as [pc |]; [| discriminate].
  destruct (PieceType_eqb (type pc) king) eqn:Et; [| discriminate].
  destruct (PieceColor_eqb (color pc) clr) eqn:Ec'; [| discriminate].
  injection H as <-.
  exists r, c. repeat split; try lia.
  exists pc. split; [exact Hcell |].
  split; [destruct (type pc); (reflexivity || discriminate)
         | destruct (color pc), clr; (reflexivity || discriminate)].
Qed.

Lemma kept_move_king_unattacked (state : GameState) (clr : PieceColor) (m : Move) :
  kingSafeAfter state clr m ->
  exists s' kr kc,
    applyMove state m = Ok s' /\
    0 <= kr < 8 /\ 0 <= kc < 8 /\
    findKing (board s') clr = Ok (Some (positionToSquare {| row := kr; col := kc |})) /\
    kingAt (board s') clr kr kc /\
    ~ attackedBy (board s') (opponent clr) kr kc.
Proof.
  intros (s' & k & Happ & Hking & Hatt).
  destruct (findKing_Some _ _ _ Hking) as (kr & kc & Hr & Hc & -> & Hat).
  exists s', kr, kc.
  split; [exact Happ |]. split; [exact Hr |]. split; [exact Hc |].
  split; [exact Hking |]. split; [exact Hat |].
  destruct Hat as (kp & Hcell & _ & Hclr).
  apply (isSquareAttacked_false_no_attacker _ _ kr kc kp Hr Hc Hcell);
    [| exact Hatt].
  rewrite Hclr. destruct clr; reflexivity.
Qed.

(** C1. For every game state and every move returned by
    [getAllValidMoves state clr], [applyMove] applies the move, [findKing]
    then locates [clr]'s king on a square of the board where that king
    stands, and no piece of the opposing colour attacks that square: no
    opposing pawn stands diagonally behind it in the pawn's direction of
    travel, no opposing knight a knight's jump away, no opposing king on a
    neighbouring square, and no opposing rook, bishop or queen on a line or
    diagonal of its kind with only empty squares in between.  Attack is here
    the geometric relation [attackedBy] on the board, not the answer of
    [isSquareAttacked]. *)
Theorem valid_moves_leave_king_unattacked
    (state : GameState) (clr : PieceColor) (moves : list Move) (m : Move) :
  getAllValidMoves state clr = Ok moves ->
  In m moves ->
  exists s' kr kc,
    applyMove state m = Ok s' /\
    0 <= kr < 8 /\ 0 <= kc < 8 /\
    findKing (board s') clr = Ok (Some (positionToSquare {| row := kr; col := kc |})) /\
    kingAt (board s') clr kr kc /\
    ~ attackedBy (board s') (opponent clr) kr kc.
Proof.
  intros Hall Hin.
  apply kept_move_king_unattacked.
  apply getAllValidMoves_checked in Hall.
  rewrite Forall_forall in Hall. exact (Hall m Hin).
Qed.

Lemma valid_moves_leave_king_unattacked_witness :
  exists moves,
    getAllValidMoves createInitialGameState white = Ok moves /\
    In e2e4 moves /\
    exists s' kr kc,
      applyMove createInitialGameState e2e4 = Ok s' /\
      0 <= kr < 8 /\ 0 <= kc < 8 /\
      findKing (board s') white
      = Ok (Some (positionToSquare {| row := kr; col := kc |})) /\
      kingAt (board s') white kr kc /\
      ~ attackedBy (board s') (opponent white) kr kc.
Proof.
  destruct (getAllValidMoves createInitialGameState white) as [moves | |] eqn:E;
    [| vm_compute in E; discriminate | vm_compute in E; discriminate].
  assert (Hin : In e2e4 moves).
  { vm_compute in E. injection E as <-. in_list. }
  exists moves. split; [reflexivity |]. split; [exact Hin |].
  exact (valid_moves_leave_king_unattacked createInitialGameState white moves
           e2e4 E Hin).
Defined.

(** The relation [attackedBy] at work: once the pinned knight of
    [pinnedKnightState] has left e2 for c3, the rook on e8 attacks the king
    on e1, and the knight's moves are not among the legal ones. *)
Lemma pinned_knight_exposes_king :
  exists s',
    applyMove pinnedKnightState (mkMove "e2" "c3" (mkPiece knight white)) = Ok s' /\
    kingAt (board s') white 7 4 /\
    attackedBy (board s') black 7 4.
Proof.
  eexists. split; [vm_compute; reflexivity |].
  split.
  - exists (mkPiece king white). repeat split.
  - exists 0, 4, (mkPiece rook black).
    split; [lia |]. split; [lia |]. split; [reflexivity |]. split; [reflexivity |].
    cbn [attacks type mkPiece]. split.
    + right. split; [reflexivity | lia].
    + intros i Hi. cbn in Hi.
      assert (E : i = 1 \/ i = 2 \/ i = 3 \/ i = 4 \/ i = 5 \/ i = 6) by lia.
      destruct E as [-> | [-> | [-> | [-> | [-> | ->]]]]]; reflexivity.
Qed.

(** * The move [getBestMove] settles on *)

Lemma beats_trans (s : GameState) (a b c : num) :
  beats s a b = true -> beats s b c = true -> beats s a c = true.
Proof.
  unfold beats, num_ltb.
  destruct (currentPlayer s); rewrite !negb_true_iff; intros H1 H2; ord_close.
Qed.

Lemma beats_over (s : GameState) (x w v : num) :
  beats s x w = false -> beats s v w = true -> beats s v x = true.
Proof.
  unfold beats, num_ltb.
  destruct (currentPlayer s); rewrite !negb_true_iff, !negb_false_iff;
    intros H1 H2; ord_close.
Qed.

Lemma scoredInv_step (s : GameState) (scored : list (Move * num))
    (bestMove : option Move) (bestValue : num) (m : Move) (v : num) :
  scoredInv s scored bestMove bestValue ->
  scoredInv s (scored ++ [(m, v)])
    (if beats s v bestValue then Some m else bestMove)
    (if beats s v bestValue then v else bestValue).
Proof.
  intros Hinv. destruct (beats s v bestValue) eqn:Hb.
  - exists scored, []. split; [reflexivity |].
    destruct bestMove as [bm |]; cbn [scoredInv] in Hinv.
    + destruct Hinv as (before & after & -> & Hw & Hbefore & Hafter).
      split; [exact (beats_trans s _ _ _ Hb Hw) |].
      split; [| intros m' v' []].
      intros m' v' Hin. apply in_app_or in Hin as [Hin | [Hin | Hin]].
      * exact (beats_trans s _ _ _ Hb (Hbefore m' v' Hin)).
      * injection Hin as <- <-. exact Hb.
      * exact (beats_over s _ _ _ (Hafter m' v' Hin) Hb).
    + destruct Hinv as (-> & Hnone).
      split; [exact Hb |]. split; [| intros m' v' []].
      intros m' v' Hin. exact (beats_over s _ _ _ (Hnone m' v' Hin) Hb).
  - destruct bestMove as [bm |]; cbn [scoredInv] in *.
    + destruct Hinv as (before & after & -> & Hw & Hbefore & Hafter).
      exists before, (after ++ [(m, v)]).
      split; [rewrite <- app_assoc; reflexivity |].
      split; [exact Hw |]. split; [exact Hbefore |].
      intros m' v' Hin. apply in_app_or in Hin as [Hin | [Hin | []]].
      * exact (Hafter m' v' Hin).
      * injection Hin as <- <-. exact Hb.
    + destruct Hinv as (-> & Hnone). split; [reflexivity |].
      intros m' v' Hin. apply in_app_or in Hin as [Hin | [Hin | []]].
      * exact (Hnone m' v' Hin).
      * injection Hin as <- <-. exact Hb.
Qed.

Section BestScoring.

Variable rng : Type.
Variable Math_random : rng -> Q * rng.
Variable sortRandom : rng -> list Move -> list Move * rng.

(** All that is assumed of the shuffle: it returns the moves it was
    given, in some order. *)
Hypothesis sortRandom_perm :
  forall g l, Permutation (fst (sortRandom g l)) l.

(** The loop of [getBestMove] scores the moves as [scoreMoves] does and
    keeps [scoredInv]. *)
Lemma bestLoop_scored (fuel : nat) (s : GameState) (depth : Z)
    (moves : list Move) :
  forall done bestMove bestValue g r g',
    bestLoop rng Math_random fuel s depth moves bestMove bestValue g = Ok (r, g') ->
    scoredInv s done bestMove bestValue ->
    exists scored bestValue',
      scoreMoves rng Math_random fuel s depth moves g = Ok (scored, g') /\
      map fst scored = moves /\
      scoredInv s (done ++ scored) r bestValue'.
Proof.
  induction moves as [| m rest IH]; intros done bestMove bestValue g r g' H Hinv.
  - cbn in H. injection H as <- <-. exists [], bestValue.
    split; [reflexivity |]. split; [reflexivity |].
    rewrite app_nil_r. exact Hinv.
  - cbn [bestLoop scoreMoves] in *.
    apply bind_Ok in H as (cs & Hcs & H). rewrite Hcs. cbn [bind].
    apply bind_Ok in H as ([v g1] & Hv & H). rewrite Hv. cbn [bind].
    pose proof (scoredInv_step s done bestMove bestValue m v Hinv) as Hstep.
    unfold beats in Hstep at 1 2.
    destruct (match currentPlayer s with
              | white => num_ltb bestValue v
              | black => num_ltb v bestValue
              end);
      destruct (IH _ _ _ _ _ _ H Hstep) as (scored & bv & -> & Hmap & Hfinal);
      cbn [bind]; exists ((m, v) :: scored), bv;
      (split; [reflexivity |]); (split; [cbn; rewrite Hmap; reflexivity |]);
      rewrite <- app_assoc in Hfinal; exact Hfinal.
Qed.

Lemma getBestMove_scored (fuel : nat) (g : rng) (s : GameState) (depth : Z)
    (r : option Move) (g' : rng) :
  getBestMove rng Math_random sortRandom fuel g s depth = Ok (r, g') ->
  exists legal,
    getAllValidMoves s (currentPlayer s) = Ok legal /\
    (r = None <-> legal = []) /\
    forall m, r = Some m ->
      In m legal /\
      exists shuffled g1 scored,
        sortRandom g legal = (shuffled, g1) /\
        scoreMoves rng Math_random fuel s depth shuffled g1 = Ok (scored, g') /\
        map fst scored = shuffled /\
        ((exists v, bestScoring s scored m v) \/
         (noImprovement s scored /\ nth_error shuffled 0 = Some m)).
Proof.
  intros Hret.
  destruct (getBestMove_result rng Math_random sortRandom sortRandom_perm
              fuel g s depth r g' Hret) as (legal & Hlegal & Hnull & Hmem).
  exists legal. split; [exact Hlegal |]. split; [exact Hnull |].
  intros m ->. split; [exact (Hmem m eq_refl) |].
  unfold getBestMove in Hret. rewrite Hlegal in Hret. cbn [bind] in Hret.
  destruct (Nat.eqb (List.length legal) 0); [discriminate |].
  destruct (sortRandom g legal) as [shuffled g1].
  apply bind_Ok in Hret as ([bm g2] & Hloop & Hret).
  assert (Hinit : scoredInv s [] None
                    (match currentPlayer s with
                     | white => NegInf | black => PosInf end)).
  { split; [reflexivity | intros m' v' []]. }
  destruct (bestLoop_scored fuel s depth shuffled [] None _ g1 bm g2 Hloop Hinit)
    as (scored & bv & Hscored & Hmap & Hinv).
  cbn [app] in Hinv.
  exists shuffled, g1, scored. split; [reflexivity |].
  destruct bm as [b |]; injection Hret as Hm <-.
  - subst b. split; [exact Hscored |]. split; [exact Hmap |].
    left. exists bv. exact Hinv.
  - split; [exact Hscored |]. split; [exact Hmap |].
    right. destruct Hinv as (_ & Hnone). split; [exact Hnone | exact Hm].
Qed.

(** C6, with the depth at which it holds.  Whenever [getBestMove] returns,
    at any depth, it returns null if and only if [getAllValidMoves] for the
    side to move is empty, and otherwise a member of that list of legal
    moves, which one being settled by the scores: with the legal moves in
    the order the shuffle left them and each scored by the loop's call of
    [minimax] ([scoreMoves]), the move returned is the best-scoring
    candidate, the one whose score strictly improves on the starting value
    (-Infinity for white, Infinity for black) and on every score before it
    and on which no later score strictly improves (larger is better for
    white, smaller for black); or, when no score strictly improves on the
    starting value, it is the first move of the shuffled list.  On a
    well-formed state and at a depth of one or more (with a recursion budget
    of at least the depth) [getBestMove] does return. *)
Theorem getBestMove_returns_best_scoring_move
    (fuel : nat) (g : rng) (s : GameState) (depth : Z) :
  (forall r g',
     getBestMove rng Math_random sortRandom fuel g s depth = Ok (r, g') ->
     exists legal,
       getAllValidMoves s (currentPlayer s) = Ok legal /\
       (r = None <-> legal = []) /\
       forall m, r = Some m ->
         In m legal /\
         exists shuffled g1 scored,
           sortRandom g legal = (shuffled, g1) /\
           scoreMoves rng Math_random fuel s depth shuffled g1 = Ok (scored, g') /\
           map fst scored = shuffled /\
           ((exists v, bestScoring s scored m v) \/
            (noImprovement s scored /\ nth_error shuffled 0 = Some m))) /\
  (wellFormed s -> 1 <= depth -> (Z.to_nat depth <= fuel)%nat ->
   exists r g',
     getBestMove rng Math_random sortRandom fuel g s depth = Ok (r, g')).
Proof.
  split.
  - intros r g' Hret. exact (getBestMove_scored fuel g s depth r g' Hret).
  - intros Hwf Hd Hf.
    exact (getBestMove_total rng Math_random sortRandom sortRandom_perm
             fuel g s depth Hwf Hd Hf).
Qed.

End BestScoring.

Lemma getBestMove_returns_best_scoring_move_witness :
  exists legal r g',
    getAllValidMoves createInitialGameState white = Ok legal /\
    getBestMove unit constHalf keepOrder 2 tt createInitialGameState 2
    = Ok (r, g') /\
    (r = None <-> legal = []) /\
    forall m, r = Some m ->
      In m legal /\
      exists shuffled g1 scored,
        keepOrder tt legal = (shuffled, g1) /\
        scoreMoves unit constHalf 2 createInitialGameState 2 shuffled g1
        = Ok (scored, g') /\
        map fst scored = shuffled /\
        ((exists v, bestScoring createInitialGameState scored m v) \/
         (noImprovement createInitialGameState scored /\
          nth_error shuffled 0 = Some m)).
Proof.
  destruct (getBestMove_returns_best_scoring_move unit constHalf keepOrder
              keepOrder_perm 2 tt createInitialGameState 2)
    as [Hresult Hreturns].
  destruct (Hreturns initial_wellFormed) as (r & g' & Hret);
    [lia | vm_compute; lia |].
  destruct (Hresult r g' Hret) as (legal & Hm & Hnull & Hbest).
  exists legal, r, g'. auto.
Defined.
